(** * Mongolian book translation pipeline: a shallow embedding

    The development follows the two source files of the repository,
    [main.py] (segmenter, batch translator, Stage 1, patcher, driver) and
    [assemble.py] (refiner and renderers).  Python values are modelled as
    the code uses them: a [str] is a list of Unicode code points, a parsed
    JSON document is a tree of dynamically typed values, and every
    operation that can raise in Python returns in an error type here. *)

From Stdlib Require Import List NArith ZArith Bool String Ascii Lia.
From Stdlib Require Import DecimalString.
Import ListNotations.
Open Scope N_scope.

(** ** Python strings *)

Module Py.

Definition char := N.
Definition str := list char.

(** ASCII literals of the source files, as code points. *)
Definition py (s : string) : str :=
  map N_of_ascii (list_ascii_of_string s).

Fixpoint str_eqb (a b : str) : bool :=
  match a, b with
  | [], [] => true
  | x :: a', y :: b' => (x =? y) && str_eqb a' b'
  | _, _ => false
  end.

(** [str.isspace] on one code point; the same table decides [\s] in
    [re] patterns over [str], [str.strip()] and [str.split()]. *)
Definition isspace (c : char) : bool :=
  ((9 <=? c) && (c <=? 13)) || ((28 <=? c) && (c <=? 32)) ||
  (c =? 133) || (c =? 160) || (c =? 5760) ||
  ((8192 <=? c) && (c <=? 8202)) || (c =? 8232) || (c =? 8233) ||
  (c =? 8239) || (c =? 8287) || (c =? 12288).

Definition head_is_space (t : str) : bool :=
  match t with c :: _ => isspace c | [] => false end.

Fixpoint lstrip (t : str) : str :=
  match t with
  | c :: t' => if isspace c then lstrip t' else t
  | [] => []
  end.

Definition rstrip (t : str) : str := rev (lstrip (rev t)).

(** [text.strip()] *)
Definition strip (t : str) : str := lstrip (rstrip t).

(** [text.split()]: the maximal runs of non-whitespace. *)
Fixpoint split (t : str) : list str :=
  match t with
  | [] => []
  | c :: t' =>
      if isspace c then split t'
      else if head_is_space t' then [c] :: split t'
      else match split t' with
           | w :: ws => (c :: w) :: ws
           | [] => [[c]]
           end
  end.

(** [sep.join(parts)] *)
Fixpoint join (sep : str) (parts : list str) : str :=
  match parts with
  | [] => []
  | [x] => x
  | x :: rest => x ++ sep ++ join sep rest
  end.

Fixpoint starts_with (pre s : str) : bool :=
  match pre, s with
  | [], _ => true
  | p :: pre', c :: s' => (p =? c) && starts_with pre' s'
  | _ :: _, [] => false
  end.

(** [needle in haystack] on two strings. *)
Fixpoint contains (needle haystack : str) : bool :=
  starts_with needle haystack ||
  match haystack with
  | [] => false
  | _ :: h' => contains needle h'
  end.

(** *** Dynamically typed values

    What [json.loads] builds and what the code stores in its dicts and
    lists.  A float keeps the decimal literal it was read from
    ([mantissa * 10 ^ exp10], with its sign); only its truth value is ever
    asked for. *)
#[warnings="-register-all"]
Inductive pyval :=
| PNone
| PBool (b : bool)
| PInt (z : Z)
| PFloat (neg : bool) (mantissa : N) (exp10 : Z)
| PNaN
| PInf (neg : bool)
| PStr (s : str)
| PList (l : list pyval)
| PDict (d : list (str * pyval)).

(** A decimal literal that [float] rounds to zero: a zero mantissa, or a
    value of at most half the smallest subnormal, [2 ^ -1075]. *)
Definition float_is_zero (mantissa : N) (exp10 : Z) : bool :=
  (mantissa =? 0) ||
  ((exp10 <? 0)%Z && (Z.of_N mantissa * 2 ^ 1075 <=? 10 ^ (- exp10))%Z).

(** [bool(v)] *)
Definition truthy (v : pyval) : bool :=
  match v with
  | PNone => false
  | PBool b => b
  | PInt z => negb (z =? 0)%Z
  | PFloat _ m e => negb (float_is_zero m e)
  | PNaN | PInf _ => true
  | PStr s => match s with [] => false | _ :: _ => true end
  | PList l => match l with [] => false | _ :: _ => true end
  | PDict d => match d with [] => false | _ :: _ => true end
  end.

(** A dict keeps its keys in insertion order; storing under a key that is
    present replaces the value in place. *)
Fixpoint dict_get (d : list (str * pyval)) (k : str) : option pyval :=
  match d with
  | [] => None
  | (k', v) :: d' => if str_eqb k' k then Some v else dict_get d' k
  end.

Fixpoint dict_set (d : list (str * pyval)) (k : str) (v : pyval)
  : list (str * pyval) :=
  match d with
  | [] => [(k, v)]
  | (k', v') :: d' =>
      if str_eqb k' k then (k', v) :: d' else (k', v') :: dict_set d' k v
  end.

(** *** Exceptions *)

Inductive exn :=
| TypeError | AttributeError | KeyError | IndexError
| RequestException | JSONDecodeError | UnicodeEncodeError.

Inductive res (A : Type) :=
| Ok (a : A)
| Raise (e : exn).
Arguments Ok {A} a.
Arguments Raise {A} e.

Definition bind {A B : Type} (r : res A) (k : A -> res B) : res B :=
  match r with
  | Ok a => k a
  | Raise e => Raise e
  end.

Notation "'do' x <- r ; k" := (bind r (fun x => k))
  (at level 10, x pattern, r at level 100, k at level 200).

Fixpoint map_res {A B : Type} (f : A -> res B) (l : list A) : res (list B) :=
  match l with
  | [] => Ok []
  | a :: l' => do b <- f a; do bs <- map_res f l'; Ok (b :: bs)
  end.

(** [v.get(key, default)]: only a dict has the method. *)
Definition py_get (v : pyval) (key : str) (default : pyval) : res pyval :=
  match v with
  | PDict d => Ok (match dict_get d key with Some x => x | None => default end)
  | _ => Raise AttributeError
  end.

(** [for t in v]: the items the loop sees. *)
Definition py_iter (v : pyval) : res (list pyval) :=
  match v with
  | PList l => Ok l
  | PStr s => Ok (map (fun c => PStr [c]) s)
  | PDict d => Ok (map (fun kv => PStr (fst kv)) d)
  | _ => Raise TypeError
  end.

Definition is_str (key : str) (v : pyval) : bool :=
  match v with PStr s => str_eqb s key | _ => false end.

(** [key in v] for a string [key]: substring of a string, element of a
    list, key of a dict. *)
Definition py_in (key : str) (v : pyval) : res bool :=
  match v with
  | PStr s => Ok (contains key s)
  | PList l => Ok (existsb (is_str key) l)
  | PDict d => Ok (match dict_get d key with Some _ => true | None => false end)
  | _ => Raise TypeError
  end.

(** [v[key]] for a string [key]. *)
Definition py_getitem (v : pyval) (key : str) : res pyval :=
  match v with
  | PDict d => match dict_get d key with Some x => Ok x | None => Raise KeyError end
  | _ => Raise TypeError
  end.

(** [v[i]] for a non-negative integer [i]; the keys of a parsed dict are
    strings, so an integer is never among them. *)
Definition py_index (v : pyval) (i : nat) : res pyval :=
  match v with
  | PList l => match nth_error l i with Some x => Ok x | None => Raise IndexError end
  | PStr s => match nth_error s i with Some c => Ok (PStr [c]) | None => Raise IndexError end
  | PDict _ => Raise KeyError
  | _ => Raise TypeError
  end.

(** [len(v)] *)
Definition py_len (v : pyval) : res nat :=
  match v with
  | PStr s => Ok (List.length s)
  | PList l => Ok (List.length l)
  | PDict d => Ok (List.length d)
  | _ => Raise TypeError
  end.

(** Lists and dicts cannot be dict keys. *)
Definition hashable (v : pyval) : bool :=
  match v with
  | PList _ | PDict _ => false
  | _ => true
  end.

(** *** Writing text

    A file opened with [encoding="utf-8"] encodes what is written to it;
    the codec refuses the surrogate code points, which a [str] can hold
    (an escape of a JSON document is enough to put one there). *)
Definition is_surrogate (c : char) : bool := (55296 <=? c) && (c <=? 57343).

Definition utf8_ok (s : str) : bool :=
  forallb (fun c => negb (is_surrogate c)) s.

(** The strings of a value, keys included, can all be written. *)
Fixpoint dumpable (v : pyval) : bool :=
  match v with
  | PStr s => utf8_ok s
  | PList l => forallb dumpable l
  | PDict d =>
      forallb (fun kv => match kv with (k, x) => utf8_ok k && dumpable x end) d
  | _ => true
  end.

End Py.
Import Py.

(** ** The regular expressions of the source, one function each *)

Module Re.

(** The class [[.!?]]. *)
Definition is_terminal (c : char) : bool :=
  (c =? 46) || (c =? 33) || (c =? 63).

Definition cons_head (c : char) (l : list str) : list str :=
  match l with
  | r :: rs => (c :: r) :: rs
  | [] => [[c]]
  end.

(** [re.split(r'([.!?])\s+', text)].  The scan goes left to right; a match
    starts at a terminal mark followed by whitespace and swallows the whole
    whitespace run ([skip] is set while it is being swallowed).  The result
    alternates chunk, captured mark, chunk, ..., and ends with the text
    after the last match. *)
Fixpoint split_terminal_go (skip : bool) (t : str) : list str :=
  match t with
  | [] => [[]]
  | c :: t' =>
      if skip && isspace c then split_terminal_go true t'
      else if is_terminal c && head_is_space t'
      then [] :: [c] :: split_terminal_go true t'
      else cons_head c (split_terminal_go false t')
  end.

Definition split_terminal (t : str) : list str := split_terminal_go false t.

(** The prefix of [t] up to and including its last [c]. *)
Fixpoint upto_last (c : char) (t : str) : option str :=
  match t with
  | [] => None
  | d :: t' =>
      match upto_last c t' with
      | Some p => Some (d :: p)
      | None => if d =? c then Some [d] else None
      end
  end.

(** [re.search] with the pattern of [extract_json] (an opening brace, any
    text, a closing brace, or the same with square brackets; DOTALL), and
    [match.group(0)]: the leftmost opening character that has its closing
    character somewhere after it, up to the last such closing character. *)
Fixpoint search_span (t : str) : option str :=
  match t with
  | [] => None
  | c :: t' =>
      if c =? 123 then
        match upto_last 125 t' with
        | Some p => Some (c :: p)
        | None => search_span t'
        end
      else if c =? 91 then
        match upto_last 93 t' with
        | Some p => Some (c :: p)
        | None => search_span t'
        end
      else search_span t'
  end.

(** Whitespace, then [close]. *)
Definition closes (close : char) (t : str) : bool :=
  match lstrip t with
  | d :: _ => d =? close
  | [] => false
  end.

(** [re.sub] of a comma, optional whitespace and [close] by [close] alone;
    [skip] is set while a match is being dropped. *)
Fixpoint sub_trailing_go (close : char) (skip : bool) (t : str) : str :=
  match t with
  | [] => []
  | c :: t' =>
      if skip then
        if c =? close then sub_trailing_go close false t'
        else sub_trailing_go close true t'
      else if (c =? 44) && closes close t'
      then close :: sub_trailing_go close true t'
      else c :: sub_trailing_go close false t'
  end.

Definition sub_trailing_comma (close : char) (t : str) : str :=
  sub_trailing_go close false t.

(** [re.sub(r'\s+', ' ', text)]: every whitespace run becomes one blank;
    [skip] is set inside a run. *)
Fixpoint sub_spaces_go (skip : bool) (t : str) : str :=
  match t with
  | [] => []
  | c :: t' =>
      if isspace c then
        if skip then sub_spaces_go true t' else 32 :: sub_spaces_go true t'
      else c :: sub_spaces_go false t'
  end.

Definition sub_spaces (t : str) : str := sub_spaces_go false t.

End Re.

(** ** [json.loads]

    A scanner, one character at a time, and a parser over its tokens with
    an explicit stack of open containers.  Only blank, tab, newline and
    carriage return separate tokens, a raw control character inside a
    string is an error, a repeated key keeps its first position and its
    last value, and anything left after the value is an error.  Numbers
    are read whatever their size: the limit of the interpreter on the
    digits of an integer and the rounding of a large float to infinity
    are left out. *)

Module Json.

Inductive token :=
| TLBrace | TRBrace | TLBrack | TRBrack | TComma | TColon
| TVal (v : pyval).

Definition is_digit (c : char) : bool := (48 <=? c) && (c <=? 57).
Definition is_letter (c : char) : bool :=
  ((65 <=? c) && (c <=? 90)) || ((97 <=? c) && (c <=? 122)).
Definition is_numchar (c : char) : bool :=
  is_digit c || (c =? 43) || (c =? 45) || (c =? 46) || (c =? 69) || (c =? 101).
Definition is_json_space (c : char) : bool :=
  (c =? 32) || (c =? 9) || (c =? 10) || (c =? 13).

Definition hex_value (c : char) : option N :=
  if is_digit c then Some (c - 48)
  else if (97 <=? c) && (c <=? 102) then Some (c - 87)
  else if (65 <=? c) && (c <=? 70) then Some (c - 55)
  else None.

(** The value of a run of decimal digits. *)
Fixpoint digits_value (acc : N) (ds : str) : N :=
  match ds with
  | [] => acc
  | d :: ds' => digits_value (10 * acc + (d - 48)) ds'
  end.

Fixpoint take_digits (t : str) : str * str :=
  match t with
  | c :: t' =>
      if is_digit c then let '(ds, r) := take_digits t' in (c :: ds, r)
      else ([], t)
  | [] => ([], [])
  end.

(** A whole run of number characters against the number grammar: an
    optional minus, an integer part without a leading zero, an optional
    fraction, an optional exponent.  Without fraction and exponent the
    value is an [int]. *)
Definition number_of_run (run : str) : option pyval :=
  let '(neg, t) := match run with
                   | 45 :: t => (true, t)
                   | _ => (false, run)
                   end in
  let '(ip, t) := take_digits t in
  match ip with
  | [] => None
  | d0 :: ip' =>
      if (d0 =? 48) && negb (match ip' with [] => true | _ => false end)
      then None
      else
        let '(fp, t, has_frac) :=
          match t with
          | 46 :: t' => let '(fp, r) := take_digits t' in (fp, r, true)
          | _ => ([], t, false)
          end in
        if has_frac && (match fp with [] => true | _ => false end) then None
        else
          let exp_part :=
            match t with
            | [] => Some None
            | e :: t' =>
                if (e =? 69) || (e =? 101) then
                  let '(eneg, t'') :=
                    match t' with
                    | 45 :: r => (true, r)
                    | 43 :: r => (false, r)
                    | _ => (false, t')
                    end in
                  let '(ed, r) := take_digits t'' in
                  match ed, r with
                  | _ :: _, [] =>
                      let v := Z.of_N (digits_value 0 ed) in
                      Some (Some (if eneg then (- v)%Z else v))
                  | _, _ => None
                  end
                else None
            end in
          match exp_part with
          | None => None
          | Some ex =>
              match has_frac, ex with
              | false, None =>
                  let v := Z.of_N (digits_value 0 ip) in
                  Some (PInt (if neg then (- v)%Z else v))
              | _, _ =>
                  let e := match ex with Some e => e | None => 0%Z end in
                  Some (PFloat neg (digits_value 0 (ip ++ fp))
                          (e - Z.of_nat (List.length fp))%Z)
              end
          end
  end.

Definition literal_of_run (run : str) : option pyval :=
  if str_eqb run (py "null") then Some PNone
  else if str_eqb run (py "true") then Some (PBool true)
  else if str_eqb run (py "false") then Some (PBool false)
  else if str_eqb run (py "NaN") then Some PNaN
  else if str_eqb run (py "Infinity") then Some (PInf false)
  else if str_eqb run (py "-Infinity") then Some (PInf true)
  else None.

Inductive lex_state :=
| LIdle
| LStr (acc : str) (hi : option N)
| LEsc (acc : str) (hi : option N)
| LUni (acc : str) (hi : option N) (k : nat) (v : N)
| LNum (acc : str)
| LWord (acc : str).

Definition flush_hi (acc : str) (hi : option N) : str :=
  match hi with Some h => h :: acc | None => acc end.

Definition is_high (v : N) : bool := (55296 <=? v) && (v <=? 56319).
Definition is_low (v : N) : bool := (56320 <=? v) && (v <=? 57343).

(** A completed four-digit escape with value [v]; [hi] is the high
    surrogate an escape just before it left pending. *)
Definition push_unit (acc : str) (hi : option N) (v : N) : lex_state :=
  match hi with
  | Some h =>
      if is_low v
      then LStr ((65536 + (h - 55296) * 1024 + (v - 56320)) :: acc) None
      else if is_high v then LStr (h :: acc) (Some v)
      else LStr (v :: h :: acc) None
  | None => if is_high v then LStr acc (Some v) else LStr (v :: acc) None
  end.

Definition idle_step (c : char) : option (list token * lex_state) :=
  if is_json_space c then Some ([], LIdle)
  else if c =? 123 then Some ([TLBrace], LIdle)
  else if c =? 125 then Some ([TRBrace], LIdle)
  else if c =? 91 then Some ([TLBrack], LIdle)
  else if c =? 93 then Some ([TRBrack], LIdle)
  else if c =? 44 then Some ([TComma], LIdle)
  else if c =? 58 then Some ([TColon], LIdle)
  else if c =? 34 then Some ([], LStr [] None)
  else if is_digit c || (c =? 45) then Some ([], LNum [c])
  else if is_letter c then Some ([], LWord [c])
  else None.

Definition close_run (tok : option pyval) (c : char)
  : option (list token * lex_state) :=
  match tok with
  | None => None
  | Some v =>
      match idle_step c with
      | Some (toks, st) => Some (TVal v :: toks, st)
      | None => None
      end
  end.

Definition escape_char (c : char) : option char :=
  if c =? 34 then Some 34
  else if c =? 92 then Some 92
  else if c =? 47 then Some 47
  else if c =? 98 then Some 8
  else if c =? 102 then Some 12
  else if c =? 110 then Some 10
  else if c =? 114 then Some 13
  else if c =? 116 then Some 9
  else None.

Definition lex_step (st : lex_state) (c : char)
  : option (list token * lex_state) :=
  match st with
  | LIdle => idle_step c
  | LStr acc hi =>
      if c =? 34 then Some ([TVal (PStr (rev (flush_hi acc hi)))], LIdle)
      else if c =? 92 then Some ([], LEsc acc hi)
      else if c <? 32 then None
      else Some ([], LStr (c :: flush_hi acc hi) None)
  | LEsc acc hi =>
      if c =? 117 then Some ([], LUni acc hi 0 0)
      else match escape_char c with
           | Some d => Some ([], LStr (d :: flush_hi acc hi) None)
           | None => None
           end
  | LUni acc hi k v =>
      match hex_value c with
      | None => None
      | Some h =>
          let v' := 16 * v + h in
          match k with
          | 3%nat => Some ([], push_unit acc hi v')
          | _ => Some ([], LUni acc hi (S k) v')
          end
      end
  | LNum acc =>
      if is_numchar c then Some ([], LNum (c :: acc))
      else if str_eqb acc [45] && (c =? 73) then Some ([], LWord [c; 45])
      else close_run (number_of_run (rev acc)) c
  | LWord acc =>
      if is_letter c then Some ([], LWord (c :: acc))
      else close_run (literal_of_run (rev acc)) c
  end.

Definition lex_finish (st : lex_state) : option (list token) :=
  match st with
  | LIdle => Some []
  | LNum acc => option_map (fun v => [TVal v]) (number_of_run (rev acc))
  | LWord acc => option_map (fun v => [TVal v]) (literal_of_run (rev acc))
  | _ => None
  end.

Fixpoint lex (st : lex_state) (t : str) : option (list token) :=
  match t with
  | [] => lex_finish st
  | c :: t' =>
      match lex_step st c with
      | None => None
      | Some (toks, st') => option_map (app toks) (lex st' t')
      end
  end.

Inductive frame :=
| FList (acc : list pyval)
| FDict (acc : list (str * pyval)) (key : option str).

Inductive mode :=
| MValue | MFirst | MKeyFirst | MKey | MColon | MAfter | MDone (v : pyval).

Definition push_value (v : pyval) (stack : list frame)
  : option (list frame * mode) :=
  match stack with
  | [] => Some ([], MDone v)
  | FList acc :: st => Some (FList (v :: acc) :: st, MAfter)
  | FDict acc (Some k) :: st => Some (FDict (dict_set acc k v) None :: st, MAfter)
  | FDict _ None :: _ => None
  end.

Definition open_value (tok : token) (stack : list frame)
  : option (list frame * mode) :=
  match tok with
  | TVal v => push_value v stack
  | TLBrack => Some (FList [] :: stack, MFirst)
  | TLBrace => Some (FDict [] None :: stack, MKeyFirst)
  | _ => None
  end.

Definition set_key (tok : token) (stack : list frame)
  : option (list frame * mode) :=
  match tok, stack with
  | TVal (PStr k), FDict acc None :: st => Some (FDict acc (Some k) :: st, MColon)
  | _, _ => None
  end.

Definition parse_step (stack : list frame) (m : mode) (tok : token)
  : option (list frame * mode) :=
  match m with
  | MValue => open_value tok stack
  | MFirst =>
      match tok, stack with
      | TRBrack, FList [] :: st => push_value (PList []) st
      | _, _ => open_value tok stack
      end
  | MKeyFirst =>
      match tok, stack with
      | TRBrace, FDict [] None :: st => push_value (PDict []) st
      | _, _ => set_key tok stack
      end
  | MKey => set_key tok stack
  | MColon => match tok with TColon => Some (stack, MValue) | _ => None end
  | MAfter =>
      match tok, stack with
      | TComma, FList _ :: _ => Some (stack, MValue)
      | TRBrack, FList acc :: st => push_value (PList (rev acc)) st
      | TComma, FDict _ None :: _ => Some (stack, MKey)
      | TRBrace, FDict acc None :: st => push_value (PDict acc) st
      | _, _ => None
      end
  | MDone _ => None
  end.

Fixpoint parse (stack : list frame) (m : mode) (toks : list token)
  : option pyval :=
  match toks with
  | [] => match stack, m with [], MDone v => Some v | _, _ => None end
  | tok :: toks' =>
      match parse_step stack m tok with
      | Some (stack', m') => parse stack' m' toks'
      | None => None
      end
  end.

(** [json.loads(s)]; [None] when it raises. *)
Definition loads (s : str) : option pyval :=
  match lex LIdle s with
  | Some toks => parse [] MValue toks
  | None => None
  end.

End Json.

(** ** main.py *)

Module Main.

Definition heal_text (text : str) : str := strip (Re.sub_spaces text).

Definition abbreviations : list str :=
  map py ["Mr"; "Mrs"; "Ms"; "Dr"; "St"; "a"; "p"; "v"; "vs"; "Inc"; "Ltd";
          "Corp"]%string.

Definition is_abbreviation (w : str) : bool :=
  existsb (str_eqb w) abbreviations.

(** The [for i in range(0, len(raw_splits) - 1, 2)] loop of
    [split_sentences]: it consumes [raw_splits] two entries at a time and
    never reaches a last entry that has no partner. *)
Fixpoint split_loop (raw : list str) (current : str) (sentences : list str)
  : str * list str :=
  match raw with
  | chunk :: punc :: rest =>
      let current := current ++ chunk ++ punc in
      let words := split chunk in
      let last_word := last words [] in
      if negb (is_abbreviation last_word)
      then split_loop rest [] (sentences ++ [strip current])
      else split_loop rest current sentences
  | _ => (current, sentences)
  end.

Definition split_sentences (text : str) : list str :=
  match text with
  | [] => []
  | _ :: _ =>
      let raw_splits := Re.split_terminal text in
      let '(current, sentences) := split_loop raw_splits [] [] in
      let odd_len := Nat.odd (List.length raw_splits) in
      let sentences :=
        match current with
        | _ :: _ =>
            let current :=
              if odd_len then current ++ last raw_splits [] else current in
            sentences ++ [strip current]
        | [] =>
            if odd_len then sentences ++ [strip (last raw_splits [])]
            else sentences
        end in
      filter (fun s => (2 <? List.length s)%nat) sentences
  end.

(** *** The external service *)

(** One POST to the generation service.  A translation request is fixed by
    the sentences, the title and the context label; a refinement request by
    the target texts it lists and the title. *)
Inductive request :=
| TranslateReq (all_sentences : list str) (book_title chapter_context : str)
| RefineReq (targets : list pyval) (book_title : str).

(** What comes back: an exception of the HTTP layer (no connection, a
    timeout, a status that [raise_for_status] rejects), or the body. *)
Inductive http_reply :=
| HttpError
| HttpBody (body : str).

(** The service, as the pipeline sees it: the reply to a request, given how
    many requests were issued before it. *)
Definition service := nat -> request -> http_reply.

(** *** extract_json *)

(** [ord(ch) >= 32 or ch in "\n\r\t"] *)
Definition keep_char (c : char) : bool :=
  (32 <=? c) || (c =? 10) || (c =? 13) || (c =? 9).

Definition one_char (v : pyval) : option char :=
  match v with
  | PStr [c] => Some c
  | _ => None
  end.

Fixpoint all_chars (l : list pyval) : option str :=
  match l with
  | [] => Some []
  | v :: l' =>
      match one_char v, all_chars l' with
      | Some c, Some s => Some (c :: s)
      | _, _ => None
      end
  end.

(** The characters [for ch in text] yields and [ord(ch)] accepts; [None]
    when the generator raises. *)
Definition chars_of (text : pyval) : option str :=
  match text with
  | PStr s => Some s
  | PList l => all_chars l
  | PDict d => all_chars (map (fun kv => PStr (fst kv)) d)
  | _ => None
  end.

Definition extract_json (text : pyval) : pyval :=
  match chars_of text with
  | None => PNone
  | Some t =>
      let text := filter keep_char t in
      match Re.search_span text with
      | Some json_str =>
          let json_str := Re.sub_trailing_comma 125 json_str in
          let json_str := Re.sub_trailing_comma 93 json_str in
          match Json.loads json_str with
          | Some v => v
          | None => PNone
          end
      | None => PNone
      end
  end.

(** *** translate_sentence_batch *)

(** The [try] block once the reply is there: [raise_for_status],
    [response.json()], [extract_json] on the text of the reply, and the
    list under "translations"; every exception ends in the empty list. *)
Definition response_translations (reply : http_reply) : pyval :=
  match reply with
  | HttpError => PList []
  | HttpBody body =>
      match Json.loads body with
      | None => PList []
      | Some data =>
          match py_get data (py "response") (PStr (py "{}")) with
          | Raise _ => PList []
          | Ok text =>
              let result := extract_json text in
              if truthy result then
                match py_get result (py "translations") (PList []) with
                | Ok v => v
                | Raise _ => PList []
                end
              else PList []
          end
      end
  end.

(** The requests issued so far are threaded through; the function itself
    never raises. *)
Definition translate_sentence_batch (svc : service) (log : list request)
    (all_sentences : list str) (book_title chapter_context : str)
  : pyval * list request :=
  match all_sentences with
  | [] => (PList [], log)
  | _ :: _ =>
      let req := TranslateReq all_sentences book_title chapter_context in
      (response_translations (svc (List.length log) req), log ++ [req])
  end.

(** *** Document State *)

Inductive block_type := heading | paragraph | image.

Record segment := { en : str; mn : pyval }.

Record block := {
  page : nat;
  type : block_type;
  content : list segment;
  path : option str
}.

(** [json.dump(data, f, ensure_ascii=False, indent=4)] on a file opened
    for writing in UTF-8, for [data] as [json.load] returned it or as the
    stages built it: the encoder writes every value, the file encodes the
    text, and a string with a surrogate raises. *)
Definition block_dumpable (b : block) : bool :=
  forallb (fun item => utf8_ok (en item) && dumpable (mn item)) (content b) &&
  match path b with Some p => utf8_ok p | None => true end.

Definition json_dump (data : list block) : res unit :=
  if forallb block_dumpable data then Ok tt else Raise UnicodeEncodeError.

(** [mn.endswith(('.', '!', '?'))] *)
Definition endswith_terminal (s : str) : bool :=
  match rev s with
  | c :: _ => Re.is_terminal c
  | [] => false
  end.

(** *** Stage 1 *)

(** What [get_page_structure] returns for a page: text blocks with their
    cleaned text (their sentences are [split_sentences] of it) and image
    blocks with the path of the saved bitmap. *)
Inductive page_block :=
| text_block (is_heading : bool) (text : str)
| image_block (img_path : str).

Record pending_block := {
  pb_page : nat;
  pb_type : block_type;
  sentences : list str
}.

Record stage1 := {
  full_structure : list block;
  current_chapter : str;
  pending_sentences : list str;
  pending_blocks : list pending_block;
  requests : list request;
  writes : list (list block)
}.

(** One entry of the dict comprehension over [translations]. *)
Definition mapping_entry (t : pyval) : res (option (pyval * pyval)) :=
  do has_en <- py_in (py "en") t;
  if has_en then
    do has_mn <- py_in (py "mn") t;
    if has_mn then
      do k <- py_getitem t (py "en");
      do v <- py_getitem t (py "mn");
      if hashable k then Ok (Some (k, v)) else Raise TypeError
    else Ok None
  else Ok None.

Fixpoint build_mapping (ts : list pyval) : res (list (pyval * pyval)) :=
  match ts with
  | [] => Ok []
  | t :: ts' =>
      do e <- mapping_entry t;
      do m <- build_mapping ts';
      Ok (match e with Some kv => kv :: m | None => m end)
  end.

(** [mapping.get] with the empty string as default: of the entries under the string [en] the last
    one stored counts. *)
Definition mapping_get (m : list (pyval * pyval)) (en : str) : pyval :=
  match find (fun kv => is_str en (fst kv)) (rev m) with
  | Some (_, v) => v
  | None => PStr []
  end.

(** The body of the loop over [block["sentences"]]. *)
Definition fill_sentence (m : list (pyval * pyval)) (en : str) : res segment :=
  let mn := mapping_get m en in
  if truthy mn then
    match mn with
    | PStr s =>
        Ok {| en := en;
              mn := PStr (if endswith_terminal s then s else s ++ py ".") |}
    | _ => Raise AttributeError
    end
  else Ok {| en := en; mn := mn |}.

Definition fill_block (m : list (pyval * pyval)) (b : pending_block)
  : res block :=
  do segs <- map_res (fill_sentence m) (sentences b);
  Ok {| page := pb_page b; type := pb_type b; content := segs; path := None |}.

Definition flush_batch (svc : service) (book_name : str) (st : stage1)
  : res stage1 :=
  match pending_sentences st with
  | [] => Ok st
  | _ :: _ =>
      let '(translations, log) :=
        translate_sentence_batch svc (requests st) (pending_sentences st)
          book_name (current_chapter st) in
      do ts <- py_iter translations;
      do mapping <- build_mapping ts;
      do blocks <- map_res (fill_block mapping) (pending_blocks st);
      Ok {| full_structure := full_structure st ++ blocks;
            current_chapter := current_chapter st;
            pending_sentences := [];
            pending_blocks := [];
            requests := log;
            writes := writes st |}
  end.

(** [json.dump(full_structure, f)] on the structural state file.  The
    dump is taken to return here: a run in which it raises, on a string
    that UTF-8 cannot encode, ends at that point, and is counted among
    the runs that go on. *)
Definition write_cache (st : stage1) : stage1 :=
  {| full_structure := full_structure st;
     current_chapter := current_chapter st;
     pending_sentences := pending_sentences st;
     pending_blocks := pending_blocks st;
     requests := requests st;
     writes := writes st ++ [full_structure st] |}.

(** The body of [for block in page_blocks]. *)
Definition stage1_block (svc : service) (book_name : str) (page_num : nat)
    (st : stage1) (b : page_block) : res stage1 :=
  match b with
  | image_block p =>
      Ok {| full_structure :=
              full_structure st ++
              [{| page := page_num + 1; type := image; content := [];
                  path := Some p |}];
            current_chapter := current_chapter st;
            pending_sentences := pending_sentences st;
            pending_blocks := pending_blocks st;
            requests := requests st;
            writes := writes st |}
  | text_block is_heading text =>
      let sents := split_sentences text in
      let st :=
        {| full_structure := full_structure st;
           current_chapter :=
             if is_heading then text else current_chapter st;
           pending_sentences := pending_sentences st ++ sents;
           pending_blocks :=
             pending_blocks st ++
             [{| pb_page := page_num + 1;
                 pb_type := if is_heading then heading else paragraph;
                 sentences := sents |}];
           requests := requests st;
           writes := writes st |} in
      if (30 <=? List.length (pending_sentences st))%nat
      then do st <- flush_batch svc book_name st; Ok (write_cache st)
      else Ok st
  end.

Fixpoint stage1_blocks (svc : service) (book_name : str) (page_num : nat)
    (st : stage1) (page_blocks : list page_block) : res stage1 :=
  match page_blocks with
  | [] => Ok st
  | b :: rest =>
      do st <- stage1_block svc book_name page_num st b;
      stage1_blocks svc book_name page_num st rest
  end.

Fixpoint stage1_pages (svc : service) (book_name : str) (page_num : nat)
    (st : stage1) (doc : list (list page_block)) : res stage1 :=
  match doc with
  | [] => Ok st
  | page_blocks :: rest =>
      do st <- stage1_blocks svc book_name page_num st page_blocks;
      stage1_pages svc book_name (S page_num) st rest
  end.

Definition stage1_start : stage1 :=
  {| full_structure := [];
     current_chapter := py "Unknown";
     pending_sentences := [];
     pending_blocks := [];
     requests := [];
     writes := [] |}.

(** [process_book_stage1]: [cache_exists] is [os.path.exists(cache_path)],
    [doc] the pages of the opened source document.  The result carries the
    requests issued and the states written; with an existing cache file
    there are none. *)
Definition process_book_stage1 (svc : service) (cache_exists : bool)
    (doc : list (list page_block)) (book_name : str) : res stage1 :=
  if cache_exists then Ok stage1_start
  else
    do st <- stage1_pages svc book_name 0 stage1_start doc;
    do st <- flush_batch svc book_name st;
    Ok (write_cache st).

(** *** Patcher *)

Record patch_log := {
  p_requests : list request;
  p_writes : list (list block);
  modified_count : nat
}.

Definition set_content (b : block) (items : list segment) : block :=
  {| page := page b; type := type b; content := items; path := path b |}.

(** [not item.get("mn") or len(item["mn"]) < 3] *)
Definition needs_patch (item : segment) : res bool :=
  if negb (truthy (mn item)) then Ok true
  else do n <- py_len (mn item); Ok (n <? 3)%nat.

(** From [res], the reply to a one-sentence request: the new target text
    when [res and res[0].get("mn")] holds, with its final full stop. *)
Definition patched_target (reply : pyval) : res (option pyval) :=
  if truthy reply then
    do first <- py_index reply 0;
    do v <- py_get first (py "mn") PNone;
    if truthy v then
      match v with
      | PStr s =>
          Ok (Some (PStr (if endswith_terminal s then s else s ++ py ".")))
      | _ => Raise AttributeError
      end
    else Ok None
  else Ok None.

(** The loop over [block["content"]] of the block [b], which stands between
    the blocks [before] and [after]; [done] are its items already seen.
    Every successful patch dumps the whole of [data] as it then is, and
    the dump can raise. *)
Fixpoint patch_items (svc : service) (book_title : str)
    (before : list block) (b : block) (after : list block)
    (done todo : list segment) (st : patch_log)
  : res (list segment * patch_log) :=
  match todo with
  | [] => Ok (done, st)
  | item :: rest =>
      do need <- needs_patch item;
      if need then
        let '(reply, log) :=
          translate_sentence_batch svc (p_requests st) [en item] book_title
            (py "Patching") in
        do target <- patched_target reply;
        match target with
        | Some v =>
            let item' := {| en := en item; mn := v |} in
            let data :=
              before ++ [set_content b (done ++ item' :: rest)] ++ after in
            do _ <- json_dump data;
            patch_items svc book_title before b after (done ++ [item']) rest
              {| p_requests := log;
                 p_writes := p_writes st ++ [data];
                 modified_count := S (modified_count st) |}
        | None =>
            patch_items svc book_title before b after (done ++ [item]) rest
              {| p_requests := log;
                 p_writes := p_writes st;
                 modified_count := modified_count st |}
        end
      else patch_items svc book_title before b after (done ++ [item]) rest st
  end.

(** The loop over [data]. *)
Fixpoint patch_blocks (svc : service) (book_title : str)
    (before todo : list block) (st : patch_log)
  : res (list block * patch_log) :=
  match todo with
  | [] => Ok (before, st)
  | b :: after =>
      match type b with
      | image => patch_blocks svc book_title (before ++ [b]) after st
      | _ =>
          do r <- patch_items svc book_title before b after [] (content b) st;
          patch_blocks svc book_title (before ++ [set_content b (fst r)])
            after (snd r)
      end
  end.

(** [patch_missing_translations]: [data] is the structural state as read
    from the cache file.  The function returns [data], the first component
    here; the second records what it did on the way. *)
Definition patch_missing_translations (svc : service) (data : list block)
    (book_title : str) : res (list block * patch_log) :=
  patch_blocks svc book_title [] data
    {| p_requests := []; p_writes := []; modified_count := 0 |}.

(** *** Driver *)

(** The three artifacts the driver probes, each with its size in bytes when
    the file exists. *)
Record artifacts := {
  pdf_final : option N;
  refined : option N;
  cache : option N
}.

Definition exists_file (f : option N) : bool :=
  match f with Some _ => true | None => false end.

Definition is_valid_file (f : option N) (min_size : N) : bool :=
  match f with
  | Some size => min_size <? size
  | None => false
  end.

(** What [process_single_book] does, in order, as long as every step
    returns: nothing there catches an exception, so a step that raises
    ends the function and the steps after it are not taken.
    [Stage1 cache_exists] is the call of [process_book_stage1], which
    finds the structural file present or not. *)
Inductive step :=
| SkipComplete
| RemoveFinal
| AssembleOnly
| RemoveRefined
| Stage1 (cache_exists : bool)
| Patch
| RefineAssemble.

Definition process_single_book (a : artifacts) : list step :=
  if is_valid_file (pdf_final a) 10000 then [SkipComplete]
  else
    (if exists_file (pdf_final a) then [RemoveFinal] else []) ++
    (if is_valid_file (refined a) 1000 then [AssembleOnly]
     else
       (if exists_file (refined a) then [RemoveRefined] else []) ++
       (if negb (is_valid_file (cache a) 1000)
        then [Stage1 (exists_file (cache a))] else []) ++
       [Patch; RefineAssemble]).

End Main.

(** ** assemble.py *)

Module Assemble.
Import Main.

(** [extract_json] of this file: the span goes to [json.loads] as found. *)
Definition extract_json (text : pyval) : pyval :=
  match chars_of text with
  | None => PNone
  | Some t =>
      let text := filter keep_char t in
      match Re.search_span text with
      | Some span =>
          match Json.loads span with
          | Some v => v
          | None => PNone
          end
      | None => PNone
      end
  end.

(** *** Refiner *)

(** The target texts of a chunk, in the order [input_text] lists them. *)
Definition chunk_targets (blocks_chunk : list block) : list pyval :=
  flat_map (fun b => map mn (content b)) blocks_chunk.

(** Whether one formatted target adds only whitespace to [input_text]; the
    text a value other than a string formats to is never blank. *)
Definition format_blank (v : pyval) : bool :=
  match v with
  | PStr s => forallb isspace s
  | _ => false
  end.

(** The statements of the [try] block up to [refined_list]. *)
Definition refined_list_of (reply : http_reply) : res pyval :=
  match reply with
  | HttpError => Raise RequestException
  | HttpBody body =>
      match Json.loads body with
      | None => Raise JSONDecodeError
      | Some data =>
          do text <- py_get data (py "response") (PStr (py "{}"));
          py_get (extract_json text) (py "refined_mn") (PList [])
      end
  end.

(** The inner loop of the mapping back; an exception leaves the items not
    yet reached as they are. *)
Fixpoint refine_items (refined_list : pyval) (idx : nat)
    (items : list segment) : list segment * nat * option exn :=
  match items with
  | [] => ([], idx, None)
  | item :: rest =>
      match py_len refined_list with
      | Raise e => (items, idx, Some e)
      | Ok n =>
          if (idx <? n)%nat then
            match py_index refined_list idx with
            | Raise e => (items, idx, Some e)
            | Ok v =>
                let '(rest', idx', err) :=
                  refine_items refined_list (S idx) rest in
                ({| en := en item; mn := v |} :: rest', idx', err)
            end
          else
            let '(rest', idx', err) := refine_items refined_list idx rest in
            (item :: rest', idx', err)
      end
  end.

Fixpoint refine_blocks (refined_list : pyval) (idx : nat)
    (blocks : list block) : list block * nat * option exn :=
  match blocks with
  | [] => ([], idx, None)
  | b :: rest =>
      let '(items, idx1, err) := refine_items refined_list idx (content b) in
      match err with
      | Some e => (set_content b items :: rest, idx1, Some e)
      | None =>
          let '(rest', idx2, err2) := refine_blocks refined_list idx1 rest in
          (set_content b items :: rest', idx2, err2)
      end
  end.

Definition refine_chunk (svc : service) (log : list request)
    (blocks_chunk : list block) (book_title : str)
  : list block * list request :=
  match blocks_chunk with
  | [] => (blocks_chunk, log)
  | _ :: _ =>
      if forallb format_blank (chunk_targets blocks_chunk)
      then (blocks_chunk, log)
      else
        let req := RefineReq (chunk_targets blocks_chunk) book_title in
        match refined_list_of (svc (List.length log) req) with
        | Raise _ => (blocks_chunk, log ++ [req])
        | Ok refined_list =>
            (fst (fst (refine_blocks refined_list 0 blocks_chunk)),
             log ++ [req])
        end
  end.

Definition translatable (b : block) : bool :=
  match type b with
  | image => false
  | _ => match content b with [] => false | _ :: _ => true end
  end.

(** The slices [l[i:i + size]] for [i] in steps of [size]; [room] is what
    the slice being filled still takes. *)
Fixpoint chunks_go {A : Type} (size room : nat) (l : list A)
  : list (list A) :=
  match l with
  | [] => []
  | a :: l' =>
      match room with
      | 0%nat | 1%nat => [a] :: chunks_go size size l'
      | S r =>
          match chunks_go size r l' with
          | g :: gs => (a :: g) :: gs
          | [] => [[a]]
          end
      end
  end.

Definition chunks {A : Type} (size : nat) (l : list A) : list (list A) :=
  chunks_go size size l.

Fixpoint refine_chunks (svc : service) (log : list request)
    (cs : list (list block)) (book_title : str)
  : list (list block) * list request :=
  match cs with
  | [] => ([], log)
  | chunk :: rest =>
      let '(chunk', log') := refine_chunk svc log chunk book_title in
      let '(rest', log'') := refine_chunks svc log' rest book_title in
      (chunk' :: rest', log'')
  end.

(** The blocks of [translatable_blocks] are the very objects of [blocks]:
    what the chunks did to them shows in [blocks], in place. *)
Fixpoint merge_back (blocks refined_blocks : list block) : list block :=
  match blocks with
  | [] => []
  | b :: rest =>
      if translatable b then
        match refined_blocks with
        | r :: rs => r :: merge_back rest rs
        | [] => b :: merge_back rest []
        end
      else b :: merge_back rest refined_blocks
  end.

Definition chunk_size : nat := 15.

Definition refine_narrative_chunked (svc : service) (log : list request)
    (blocks : list block) (book_title : str) : list block * list request :=
  match blocks with
  | [] => ([], log)
  | _ :: _ =>
      let translatable_blocks := filter translatable blocks in
      match translatable_blocks with
      | [] => (blocks, log)
      | _ :: _ =>
          let '(refined_chunks, log') :=
            refine_chunks svc log (chunks chunk_size translatable_blocks)
              book_title in
          (merge_back blocks (List.concat refined_chunks), log')
      end
  end.

(** *** Reflowable renderer *)

Record chapter := {
  title : str;
  file_name : str;
  chapter_content : str
}.

Record epub := {
  chapters : list chapter;
  current_chapter : option (str * str);
  current_content : str;
  images : list str
}.

Fixpoint strs_of (vs : list pyval) : res (list str) :=
  match vs with
  | [] => Ok []
  | PStr s :: vs' => do rest <- strs_of vs'; Ok (s :: rest)
  | _ :: _ => Raise TypeError
  end.

(** [" ".join([item["mn"] for item in block["content"] if item.get("mn")])] *)
Definition joined_targets (b : block) : res str :=
  do parts <- strs_of (filter truthy (map mn (content b)));
  Ok (join (py " ") parts).

(** [os.path.basename] *)
Fixpoint basename (p : str) : str :=
  match p with
  | [] => []
  | c :: p' => if existsb (N.eqb 47) p' then basename p' else
               if c =? 47 then p' else p
  end.

Definition str_of_nat (n : nat) : str :=
  py (NilEmpty.string_of_uint (Nat.to_uint n)).

(** [current_chapter.content = current_content] and the two registrations
    that follow it. *)
Definition close_chapter (st : epub) : list chapter :=
  match current_chapter st with
  | Some (t, f) =>
      chapters st ++
      [{| title := t; file_name := f; chapter_content := current_content st |}]
  | None => chapters st
  end.

(** The body of [for i, block in enumerate(book_data)]; [file_exists] is
    [os.path.exists]. *)
Definition epub_block (file_exists : str -> bool) (i : nat) (st : epub)
    (b : block) : res epub :=
  match type b with
  | image =>
      match path b with
      | None => Raise TypeError
      | Some p =>
          if file_exists p then
            let img_name := basename p in
            Ok {| chapters := chapters st;
                  current_chapter := current_chapter st;
                  current_content :=
                    current_content st ++ py "<div><img src=" ++ [34] ++
                    py "images/" ++ img_name ++ [34] ++ py " /></div>";
                  images := images st ++ [py "images/" ++ img_name] |}
          else Ok st
      end
  | _ =>
      let is_heading :=
        match type b with heading => true | _ => false end in
      if is_heading || (i =? 0)%nat then
        do joined <- joined_targets b;
        let t := match joined with [] => py "Chapter" | _ :: _ => joined end in
        let done := close_chapter st in
        Ok {| chapters := done;
              current_chapter :=
                Some (t, py "chap_" ++ str_of_nat (List.length done) ++
                         py ".xhtml");
              current_content := py "<h1>" ++ t ++ py "</h1>";
              images := images st |}
      else
        do text <- joined_targets b;
        match text with
        | [] => Ok st
        | _ :: _ =>
            Ok {| chapters := chapters st;
                  current_chapter := current_chapter st;
                  current_content :=
                    current_content st ++ py "<p>" ++ text ++ py "</p>";
                  images := images st |}
        end
  end.

Fixpoint epub_blocks (file_exists : str -> bool) (i : nat) (st : epub)
    (book_data : list block) : res epub :=
  match book_data with
  | [] => Ok st
  | b :: rest =>
      do st <- epub_block file_exists i st b;
      epub_blocks file_exists (S i) st rest
  end.

(** [assemble_epub], with the library present, up to the call of
    [epub.write_epub]: the chapters that make the table of contents and
    the spine.  Reading the picture files and writing the book are left
    to the library and the file system; both can raise. *)
Definition assemble_epub (file_exists : str -> bool) (book_data : list block)
  : res (list chapter) :=
  do st <- epub_blocks file_exists 0
             {| chapters := []; current_chapter := None;
                current_content := []; images := [] |} book_data;
  Ok (close_chapter st).

End Assemble.

(** * Vocabulary of the statements *)

(** ** Segmenter: sentences that segment to themselves *)

Module Segmenter.
Import Re Main.

(** No terminal mark of [t] is followed by whitespace: the pattern of
    [split_terminal] matches nowhere in [t]. *)
Fixpoint nosplit (t : str) : bool :=
  match t with
  | c :: t' => negb (is_terminal c && head_is_space t') && nosplit t'
  | [] => true
  end.

(** What the final filter of [split_sentences] keeps. *)
Definition long (s : str) : Prop := (2 < List.length s)%nat.

(** A sentence closed inside the loop: a body and its terminal mark. *)
Definition loop_good (s : str) : Prop :=
  exists b p, s = b ++ [p] /\ is_terminal p = true /\ nosplit s = true /\
    head_is_space s = false /\ is_abbreviation (last (split b) []) = false.

(** The last sentence: trimmed and without a place to split. *)
Definition final_good (s : str) : Prop :=
  nosplit s = true /\ head_is_space s = false /\ head_is_space (rev s) = false.

(** Sentences closed inside the loop, then one last sentence, all of
    them kept by the final filter. *)
Fixpoint good_list (L : list str) : Prop :=
  match L with
  | [] => True
  | s :: L' =>
      match L' with
      | [] => final_good s /\ long s
      | _ :: _ => loop_good s /\ long s /\ good_list L'
      end
  end.

(** The shape of what the pattern returns: chunks without a place to split,
    one-character terminal marks between them, and no chunk after the first
    starts with whitespace. *)
Fixpoint raw_ok (first : bool) (raw : list str) : Prop :=
  match raw with
  | [] => False
  | chunk :: raw' =>
      nosplit chunk = true /\ (first = true \/ head_is_space chunk = false) /\
      match raw' with
      | [] => True
      | punc :: rest =>
          (exists p, punc = [p] /\ is_terminal p = true) /\ raw_ok false rest
      end
  end.

(** The held text [current] is empty or ends with a terminal mark. *)
Definition cur_ok (cur : str) : Prop :=
  cur = [] \/
  (nosplit cur = true /\ exists h q, cur = h ++ [q] /\ is_terminal q = true).

End Segmenter.

(** ** Sample inputs *)

Module Samples.
Import Main.

(** [py], with an apostrophe standing for the double quote. *)
Definition pyq (s : string) : str :=
  map (fun c => if c =? 39 then 34 else c) (py s).

(** A service that is never reached. *)
Definition svc_down : service := fun _ _ => HttpError.

(** A service whose reply is well-formed JSON all the way, with a list of
    numbers where the translations should be. *)
Definition svc_numbers : service :=
  fun _ _ => HttpBody (pyq "{'response': '{\'translations\': [1]}'}").

(** A service that translates every sentence to the same words. *)
Definition svc_same : service :=
  fun _ _ =>
    HttpBody (pyq "{'response': '{\'translations\': [{\'en\': \'Hello world.\', \'mn\': \'Sain uu\'}]}'}").

(** One page: a paragraph, then a picture. *)
Definition page_text_then_image : list (list page_block) :=
  [[text_block false (py "Hello world."); image_block (py "img_0_1.png")]].

(** The sentence of that paragraph with a target text. *)
Definition hello_segment (target : str) : segment :=
  {| en := py "Hello world."; mn := PStr target |}.

(** The paragraph as Document State has it. *)
Definition hello_paragraph (target : str) : block :=
  {| page := 1; type := paragraph; content := [hello_segment target];
     path := None |}.

(** Stage 1 with that paragraph pending. *)
Definition pending_hello : stage1 :=
  {| full_structure := [];
     current_chapter := py "Unknown";
     pending_sentences := [py "Hello world."];
     pending_blocks :=
       [{| pb_page := 1; pb_type := paragraph;
           sentences := [py "Hello world."] |}];
     requests := [];
     writes := [] |}.

(** The picture as Document State has it. *)
Definition picture : block :=
  {| page := 1; type := image; content := [];
     path := Some (py "img_0_1.png") |}.

(** A translated heading. *)
Definition title_block : block :=
  {| page := 2; type := heading;
     content := [{| en := py "Chapter One."; mn := PStr (py "Neg.") |}];
     path := None |}.

End Samples.

(** ** The span of [extract_json] and its trailing commas *)

Module ExtractJson.
Import Main.

(** The span both routines cut out of the reply. *)
Definition span_of (text : pyval) : option str :=
  match chars_of text with
  | Some t => Re.search_span (filter keep_char t)
  | None => None
  end.

(** A comma, optional whitespace, and [close]. *)
Fixpoint has_trailing_comma (close : char) (t : str) : bool :=
  match t with
  | [] => false
  | c :: t' => ((c =? 44) && Re.closes close t') || has_trailing_comma close t'
  end.

(** The span has a comma that main.py takes out before parsing. *)
Definition repairable (text : pyval) : bool :=
  match span_of text with
  | Some span => has_trailing_comma 125 span || has_trailing_comma 93 span
  | None => false
  end.

End ExtractJson.

(** ** The target texts the pipeline writes *)

Module Targets.
Import Main.

(** A target text that is a non-empty string ends with a full stop, an
    exclamation mark or a question mark. *)
Definition target_ok (v : pyval) : Prop :=
  forall s, v = PStr s -> s <> [] ->
  exists s' c, s = s' ++ [c] /\ (c = 46 \/ c = 33 \/ c = 63).

(** The target texts the pipeline writes: those of the blocks a flush of
    Stage 1 appends, and those a patch of the patcher stores. *)
Inductive produced : pyval -> Prop :=
| by_flush svc book_name st st' b item :
    flush_batch svc book_name st = Ok st' ->
    In b (skipn (List.length (full_structure st)) (full_structure st')) ->
    In item (content b) ->
    produced (mn item)
| by_patch reply v :
    patched_target reply = Ok (Some v) ->
    produced v.

End Targets.

(** ** What a pass over the targets keeps *)

Module Doc.
Import Main.

(** What a pass over the document may not change: the blocks, their
    order, and the source sentences of every block. *)
Definition skeleton (data : list block) :=
  map (fun b => (page b, type b, path b, map en (content b))) data.

End Doc.

(** ** The work of the patcher *)

Module Patcher.
Import Main Doc.

(** A segment the patcher asks the service about. *)
Definition unfilled (item : segment) : bool :=
  match needs_patch item with
  | Ok need => need
  | Raise _ => false
  end.

(** The segments of the heading and paragraph blocks, in order. *)
Definition text_segments (data : list block) : list segment :=
  flat_map (fun b => match type b with image => [] | _ => content b end) data.

(** The request the patcher sends for one segment. *)
Definition patch_request (book_title : str) (item : segment) : request :=
  TranslateReq [en item] book_title (py "Patching").

(** The writes so far are whole documents, one for each patch counted,
    and the last of them is the document as it stands. *)
Definition inv (data0 cur : list block) (st : patch_log) : Prop :=
  List.length (p_writes st) = modified_count st /\
  Forall (fun w => skeleton w = skeleton data0) (p_writes st) /\
  skeleton cur = skeleton data0 /\
  last (p_writes st) data0 = cur.

(** A target as Stage 1 stores it: a string, or a value that counts as
    empty. *)
Definition target_sized (item : segment) : Prop :=
  truthy (mn item) = false \/ exists s, mn item = PStr s.

End Patcher.

(** ** The contract of the patcher

    The pass as the contract words it, by position: the segments to ask
    about are numbered in document order, the request with number [k] is
    the one for the segment with number [k], and the document after [j]
    requests is the document with the answers to the first [j] of them
    written in. *)

Module Contract.
Import Main Patcher.

(** "target_text is empty or shorter than 3 characters"; a target that is
    no text counts as empty. *)
Definition wanting (item : segment) : bool :=
  match mn item with
  | PStr s => (List.length s <? 3)%nat
  | _ => true
  end.

(** The segments to ask about, in document order. *)
Definition wanted (data : list block) : list segment :=
  filter wanting (text_segments data).

(** The translation a reply offers: what its first entry has under "mn",
    when that is a text and not empty. *)
Definition offer (reply : pyval) : option str :=
  match reply with
  | PList (PDict d :: _) =>
      match dict_get d (py "mn") with
      | Some (PStr (c :: s)) => Some (c :: s)
      | _ => None
      end
  | _ => None
  end.

(** A reply the pass can read: no translations, or a list whose first
    entry is an object with a text, or with what counts as empty, under
    "mn". *)
Definition legible (reply : pyval) : Prop :=
  truthy reply = false \/
  exists d rest, reply = PList (PDict d :: rest) /\
    match dict_get d (py "mn") with
    | Some v => truthy v = false \/ exists s, v = PStr s
    | None => True
    end.

(** A text with its terminal punctuation: a full stop is appended to a
    text that does not end with a full stop, an exclamation mark or a
    question mark. *)
Definition punctuated (t : str) : str :=
  match rev t with
  | c :: _ => if (c =? 46) || (c =? 33) || (c =? 63) then t else t ++ [46]
  | [] => t ++ [46]
  end.

Section Pass.
Variable svc : service.
Variable book_title : str.

(** The translation offered for the segment with number [k]. *)
Definition answer (k : nat) (item : segment) : option str :=
  offer (response_translations (svc k (patch_request book_title item))).

(** The segment with number [k] after its request. *)
Definition patched (k : nat) (item : segment) : segment :=
  match answer k item with
  | Some t => {| en := en item; mn := PStr (punctuated t) |}
  | None => item
  end.

(** The segments [items], the first of them to ask about having number
    [k], after [j] requests. *)
Fixpoint items_after (j k : nat) (items : list segment) : list segment :=
  match items with
  | [] => []
  | item :: rest =>
      if wanting item
      then (if (k <? j)%nat then patched k item else item) ::
           items_after j (S k) rest
      else item :: items_after j k rest
  end.

(** The same for blocks: pictures are passed over. *)
Fixpoint blocks_after (j k : nat) (data : list block) : list block :=
  match data with
  | [] => []
  | b :: rest =>
      match type b with
      | image => b :: blocks_after j k rest
      | _ =>
          set_content b (items_after j k (content b)) ::
          blocks_after j (k + List.length (filter wanting (content b))) rest
      end
  end.

(** The document after [j] requests. *)
Definition state_after (j : nat) (data : list block) : list block :=
  blocks_after j 0 data.

(** The numbers, from [k] on, of the requests that are answered with a
    translation. *)
Fixpoint successes (k : nat) (ws : list segment) : list nat :=
  match ws with
  | [] => []
  | item :: rest =>
      match answer k item with
      | Some _ => k :: successes (S k) rest
      | None => successes (S k) rest
      end
  end.

(** One request for each segment to ask about. *)
Definition requests (data : list block) : list request :=
  map (patch_request book_title) (wanted data).

(** One write for each request answered with a translation: the document
    as it is right after that request. *)
Definition writes (data : list block) : list (list block) :=
  map (fun k => state_after (S k) data) (successes 0 (wanted data)).

(** The document after the pass. *)
Definition document (data : list block) : list block :=
  state_after (List.length (wanted data)) data.

(** What the pass has logged after [k] requests. *)
Definition log_after (data : list block) (k : nat) : patch_log :=
  {| p_requests := map (patch_request book_title) (firstn k (wanted data));
     p_writes :=
       map (fun i => state_after (S i) data)
         (successes 0 (firstn k (wanted data)));
     modified_count :=
       List.length (successes 0 (firstn k (wanted data))) |}.

End Pass.

(** Every reply of the service can be read. *)
Definition readable (svc : service) : Prop :=
  forall n req, legible (response_translations (svc n req)).

(** The document and every translation the service offers can be written
    to the file. *)
Definition writable (svc : service) (data : list block) : Prop :=
  forallb block_dumpable data = true /\
  forall n req t,
    offer (response_translations (svc n req)) = Some t -> utf8_ok t = true.

End Contract.

(** ** Positional replacement in the refiner *)

Module Refiner.
Import Main Assemble Doc.

(** The entries of the returned list that the mapping back can reach by
    position. *)
Definition entries_of (refined_list : pyval) : option (list pyval) :=
  match refined_list with
  | PList l => Some l
  | PStr s => Some (map (fun c => PStr [c]) s)
  | _ => None
  end.

(** Positional replacement: the entries while they last, the old values
    after them. *)
Fixpoint overlay (entries old : list pyval) {struct old} : list pyval :=
  match old with
  | [] => []
  | o :: old' =>
      match entries with
      | [] => old
      | v :: entries' => v :: overlay entries' old'
      end
  end.

(** The same on the segments of a block, and on the blocks of a chunk. *)
Fixpoint overlay_items (entries : list pyval) (items : list segment)
  {struct items} : list segment :=
  match items with
  | [] => []
  | item :: rest =>
      match entries with
      | [] => items
      | v :: entries' =>
          {| en := en item; mn := v |} :: overlay_items entries' rest
      end
  end.

Fixpoint overlay_blocks (entries : list pyval) (blocks : list block)
  : list block :=
  match blocks with
  | [] => []
  | b :: rest =>
      set_content b (overlay_items entries (content b)) ::
      overlay_blocks (skipn (List.length (content b)) entries) rest
  end.

(** What [refine_chunk] does with one chunk. *)
Definition chunk_outcome (svc : service) (log : list request)
    (chunk : list block) (book_title : str) : Prop :=
  let chunk' := fst (refine_chunk svc log chunk book_title) in
  let log' := snd (refine_chunk svc log chunk book_title) in
  let req := RefineReq (chunk_targets chunk) book_title in
  skeleton chunk' = skeleton chunk /\
  if forallb format_blank (chunk_targets chunk)
  then chunk' = chunk /\ log' = log
  else
    log' = log ++ [req] /\
    match refined_list_of (svc (List.length log) req) with
    | Ok refined_list =>
        match entries_of refined_list with
        | Some entries =>
            chunk_targets chunk' = overlay entries (chunk_targets chunk)
        | None => chunk' = chunk
        end
    | Raise _ => chunk' = chunk
    end.

(** [translatable], read off the skeleton of a block. *)
Definition entry_translatable (e : nat * block_type * option str * list str)
  : bool :=
  match e with
  | (_, image, _, _) => false
  | (_, _, _, []) => false
  | _ => true
  end.

End Refiner.

(** ** The contract of the refiner

    The refinement as the contract words it: the narrative blocks in
    groups of fifteen, and for each group the returned list written over
    the targets by position. *)

Module Narrative.
Import Main Refiner.

(** "headings/paragraphs with non-empty content" *)
Definition narrative (b : block) : bool :=
  match type b with
  | image => false
  | _ => (0 <? List.length (content b))%nat
  end.

(** "fixed-size groups (15 blocks)": the group with number [i] starts at
    block [15 * i]. *)
Definition groups (blocks : list block) : list (list block) :=
  map (fun i => firstn 15 (skipn (15 * i) blocks))
    (seq 0 ((List.length blocks + 14) / 15)).

(** The target texts of a group, in order. *)
Definition targets (g : list block) : list pyval :=
  flat_map (fun b => map mn (content b)) g.

(** A group with nothing to rewrite: every target is a text of white
    space only.  No request is made for it. *)
Definition silent (g : list block) : bool :=
  forallb (fun v => match v with
                    | PStr s => forallb isspace s
                    | _ => false
                    end) (targets g).

(** The returned list: the reply is a JSON object; the text under
    "response" ("{}" when there is none) holds a JSON object; what that
    has under "refined_mn" is a list, or a text, which is then taken
    character by character; with no "refined_mn" the list is empty.
    Anything else is a failure. *)
Definition returned (reply : http_reply) : option (list pyval) :=
  match reply with
  | HttpError => None
  | HttpBody body =>
      match Json.loads body with
      | Some (PDict envelope) =>
          let text :=
            match dict_get envelope (py "response") with
            | Some t => t
            | None => PStr (py "{}")
            end in
          match Assemble.extract_json text with
          | PDict payload =>
              match dict_get payload (py "refined_mn") with
              | Some (PList l) => Some l
              | Some (PStr s) => Some (map (fun c => PStr [c]) s)
              | Some _ => None
              | None => Some []
              end
          | _ => None
          end
      | _ => None
      end
  end.

(** A group after its request: the returned list written over its targets
    by position, or the group as it was when the request failed. *)
Definition rewritten_group (entries : option (list pyval))
    (g : list block) : list block :=
  match entries with
  | Some l => overlay_blocks l g
  | None => g
  end.

(** The groups after the pass; [n] requests were made before it. *)
Fixpoint rewritten (svc : service) (book_title : str) (n : nat)
    (gs : list (list block)) : list (list block) :=
  match gs with
  | [] => []
  | g :: gs' =>
      if silent g then g :: rewritten svc book_title n gs'
      else
        rewritten_group
          (returned (svc n (RefineReq (targets g) book_title))) g ::
        rewritten svc book_title (S n) gs'
  end.

(** The document with its narrative blocks replaced, in order, by
    [news]. *)
Fixpoint put_back (blocks news : list block) : list block :=
  match blocks with
  | [] => []
  | b :: rest =>
      if narrative b then
        match news with
        | n :: ns => n :: put_back rest ns
        | [] => b :: put_back rest []
        end
      else b :: put_back rest news
  end.

(** The document after the refinement. *)
Definition refined (svc : service) (book_title : str) (n : nat)
    (blocks : list block) : list block :=
  put_back blocks
    (List.concat
       (rewritten svc book_title n (groups (filter narrative blocks)))).

End Narrative.

(** ** Words *)

Module Words.

(** A word: not empty, no whitespace in it. *)
Definition word (w : str) : Prop :=
  w <> [] /\ forallb (fun c => negb (isspace c)) w = true.

(** Nothing, or one blank. *)
Definition blank_or_none (b : str) : Prop := b = [] \/ b = [32].

End Words.

(** ** What [extract_json] can return *)

Module Shape.

(** A character the repair of trailing commas leaves alone. *)
Definition solid (c : char) : bool := negb (c =? 44) && negb (isspace c).

(** The container a frame of the parser is building, and the container a
    value is: [true] for a dict, [false] for a list. *)
Definition frame_kind (f : Json.frame) : bool :=
  match f with
  | Json.FDict _ _ => true
  | Json.FList _ => false
  end.

Definition value_kind (v : pyval) : option bool :=
  match v with
  | PDict _ => Some true
  | PList _ => Some false
  | _ => None
  end.

(** The outermost open container. *)
Fixpoint bottom_kind (stack : list Json.frame) : option bool :=
  match stack with
  | [] => None
  | f :: st =>
      match st with
      | [] => Some (frame_kind f)
      | _ :: _ => bottom_kind st
      end
  end.

(** A step of the parser keeps the outermost container, or closes it
    with a value of its kind. *)
Definition step_keeps (k : bool) (r : option (list Json.frame * Json.mode))
  : Prop :=
  match r with
  | None => True
  | Some (stack', m') =>
      bottom_kind stack' = Some k \/
      (stack' = [] /\ exists v, m' = Json.MDone v /\ value_kind v = Some k)
  end.

(** [None], a dict or a list. *)
Definition none_or_container (v : pyval) : Prop :=
  match v with
  | PNone | PDict _ | PList _ => True
  | _ => False
  end.

End Shape.

(** ** What Stage 1 reads and what it stores *)

Module Stage1.
Import Main.

(** The sentences of a source block, of a document, and of the stored
    blocks. *)
Definition block_sentences (b : page_block) : list str :=
  match b with
  | text_block _ text => split_sentences text
  | image_block _ => []
  end.

Definition doc_sentences (doc : list (list page_block)) : list str :=
  flat_map (flat_map block_sentences) doc.

Definition stored_sentences (data : list block) : list str :=
  flat_map (fun b => map en (content b)) data.

(** The pictures of the source, each with the number of its page, and the
    pictures of the stored blocks. *)
Definition page_images (page_num : nat) (page_blocks : list page_block)
  : list (nat * str) :=
  flat_map (fun b => match b with
                     | image_block p => [((page_num + 1)%nat, p)]
                     | text_block _ _ => []
                     end) page_blocks.

Fixpoint doc_images (page_num : nat) (doc : list (list page_block))
  : list (nat * str) :=
  match doc with
  | [] => []
  | page_blocks :: rest =>
      page_images page_num page_blocks ++ doc_images (S page_num) rest
  end.

Definition stored_images (data : list block) : list (nat * str) :=
  flat_map (fun b => match type b, path b with
                     | image, Some p => [(page b, p)]
                     | _, _ => []
                     end) data.

(** The sentences a request asks to translate. *)
Definition request_sentences (r : request) : list str :=
  match r with
  | TranslateReq all_sentences _ _ => all_sentences
  | RefineReq _ _ => []
  end.

(** What holds between two blocks of the page loop, after the blocks
    whose sentences are [seen] and whose pictures are [imgs]. *)
Definition inv (seen : list str) (imgs : list (nat * str)) (st : stage1)
  : Prop :=
  stored_sentences (full_structure st) ++ pending_sentences st = seen /\
  pending_sentences st = flat_map sentences (pending_blocks st) /\
  flat_map request_sentences (requests st) =
    stored_sentences (full_structure st) /\
  stored_images (full_structure st) = imgs /\
  Forall (fun r => (30 <= List.length (request_sentences r))%nat)
    (requests st) /\
  (List.length (pending_sentences st) < 30)%nat.

(** A service that never delivers: the request fails, or the body is not
    JSON. *)
Definition quiet (svc : service) : Prop :=
  forall n req,
    match svc n req with
    | HttpError => True
    | HttpBody body => Json.loads body = None
    end.

(** A target that the flush can close: a string, or a value that counts
    as empty. *)
Definition closable (v : pyval) : Prop :=
  truthy v = false \/ exists s, v = PStr s.

(** An entry of the translations that the flush can read: an object whose
    "en", when present, can be a key, and whose "mn", when present, can be
    closed. *)
Definition entry_ok (t : pyval) : Prop :=
  exists d, t = PDict d /\
    (forall k, dict_get d (py "en") = Some k -> hashable k = true) /\
    (forall m, dict_get d (py "mn") = Some m -> closable m).

(** A service all of whose replies come out as lists of such entries. *)
Definition readable (svc : service) : Prop :=
  forall n req, exists ts,
    response_translations (svc n req) = PList ts /\ Forall entry_ok ts.


End Stage1.

(** ** What the patcher leaves alone *)

Module Kept.
Import Main Patcher.

(** A target the patcher takes as translated: a string of three or more
    characters. *)
Definition filled (item : segment) : Prop :=
  exists s, mn item = PStr s /\ (3 <= List.length s)%nat.

(** A segment after the pass: the segment as it was, or, for one the
    patcher asks about, the same source with a non-empty string for
    target. *)
Definition item_kept (item item' : segment) : Prop :=
  item' = item \/
  (unfilled item = true /\ en item' = en item /\
   exists s, mn item' = PStr s /\ s <> []).

(** A block after the pass: its segments apart, the block as it was, and
    a picture wholly so. *)
Definition block_kept (b b' : block) : Prop :=
  b' = set_content b (content b') /\
  (type b = image -> b' = b) /\
  Forall2 item_kept (content b) (content b').

End Kept.

(** ** The files the driver probes *)

Module Driver.
Import Main.

(** The file is there and its size does not exceed [limit]. *)
Definition undersized (f : option N) (limit : N) : Prop :=
  exists size, f = Some size /\ size <= limit.

End Driver.

(** ** The requests of the refiner *)

Module Chunks.
Import Main Assemble.

(** The requests for the chunks [cs]: one for each chunk with a target
    that is not blank, carrying the targets of the chunk. *)
Definition asked (book_title : str) (cs : list (list block)) : list request :=
  map (fun c => RefineReq (chunk_targets c) book_title)
    (filter (fun c => negb (forallb format_blank (chunk_targets c))) cs).

End Chunks.

(** ** The chapters of the reflowable book *)

Module Book.
Import Main Assemble.

(** The block at index [i] opens a chapter. *)
Definition opens (i : nat) (b : block) : bool :=
  match type b with
  | image => false
  | heading => true
  | paragraph => (i =? 0)%nat
  end.

Fixpoint openings (i : nat) (book_data : list block) : nat :=
  match book_data with
  | [] => 0
  | b :: rest => ((if opens i b then 1 else 0) + openings (S i) rest)%nat
  end.

(** The chapter at position [k]: its file is numbered [k], its title is
    not empty, and its content starts with the title as a heading. *)
Definition chapter_ok (k : nat) (ch : chapter) : Prop :=
  file_name ch = py "chap_" ++ str_of_nat k ++ py ".xhtml" /\
  title ch <> [] /\
  exists rest,
    chapter_content ch = py "<h1>" ++ title ch ++ py "</h1>" ++ rest.

(** What holds between two blocks of the loop. *)
Definition inv (st : epub) : Prop :=
  (forall k ch, nth_error (chapters st) k = Some ch -> chapter_ok k ch) /\
  match Assemble.current_chapter st with
  | Some (t, f) =>
      chapter_ok (List.length (chapters st))
        {| title := t; file_name := f;
           chapter_content := current_content st |}
  | None => True
  end.

End Book.

(** ** Text as [heal_text] leaves it *)

Module Spacing.

(** The only whitespace of [s] is the blank, and no blank is followed by
    whitespace. *)
Fixpoint spaced (s : str) : bool :=
  match s with
  | [] => true
  | c :: s' =>
      (negb (isspace c) || ((c =? 32) && negb (head_is_space s'))) &&
      spaced s'
  end.

(** The text the segmenter holds is empty, or spaced and closed by a
    terminal mark. *)
Definition cur_spaced (cur : str) : Prop :=
  cur = [] \/
  (spaced cur = true /\
   exists h q, cur = h ++ [q] /\ Re.is_terminal q = true).

End Spacing.

(** * Properties *)

(** ** Segmenter: re-segmentation of the segmenter's own output *)

Module SegmenterFacts.
Import Re Main Segmenter.

Lemma terminal_cases c :
  is_terminal c = true -> c = 46 \/ c = 33 \/ c = 63.
Proof.
  unfold is_terminal. intros H.
  apply orb_true_iff in H. destruct H as [H | H].
  - apply orb_true_iff in H. destruct H as [H | H]; apply N.eqb_eq in H; auto.
  - apply N.eqb_eq in H; auto.
Qed.

Lemma terminal_not_space c : is_terminal c = true -> isspace c = false.
Proof.
  intros H. destruct (terminal_cases c H) as [-> | [-> | ->]]; reflexivity.
Qed.

Lemma head_is_space_app (b : str) x r :
  head_is_space (b ++ x :: r) = head_is_space (b ++ [x]).
Proof. destruct b; reflexivity. Qed.

Lemma head_is_space_app_l (a b : str) :
  a <> [] -> head_is_space (a ++ b) = head_is_space a.
Proof. destruct a; [congruence | reflexivity]. Qed.

Lemma lstrip_id s : head_is_space s = false -> lstrip s = s.
Proof. destruct s as [| c s]; simpl; [reflexivity | intros ->; reflexivity]. Qed.

Lemma strip_id s :
  head_is_space s = false -> head_is_space (rev s) = false -> strip s = s.
Proof.
  intros Hl Hr. unfold strip, rstrip.
  rewrite (lstrip_id (rev s) Hr), rev_involutive. apply lstrip_id, Hl.
Qed.

Lemma lstrip_head s : head_is_space (lstrip s) = false.
Proof.
  induction s as [| c s IH]; simpl; [reflexivity |].
  destruct (isspace c) eqn:E; [exact IH | simpl; exact E].
Qed.

Lemma lstrip_snoc s p :
  isspace p = false -> lstrip (s ++ [p]) = lstrip s ++ [p].
Proof.
  intros Hp. induction s as [| c s IH]; simpl.
  - rewrite Hp. reflexivity.
  - destruct (isspace c); [exact IH | reflexivity].
Qed.

Lemma rstrip_snoc s p : isspace p = false -> rstrip (s ++ [p]) = s ++ [p].
Proof.
  intros Hp. unfold rstrip. rewrite rev_app_distr. simpl. rewrite Hp.
  simpl. rewrite rev_involutive. reflexivity.
Qed.

Lemma strip_snoc s p : isspace p = false -> strip (s ++ [p]) = lstrip s ++ [p].
Proof.
  intros Hp. unfold strip. rewrite rstrip_snoc by exact Hp.
  apply lstrip_snoc, Hp.
Qed.

(** *** The pattern on text that has no place to split, and at a place
    that has one *)

Lemma split_terminal_nosplit s :
  nosplit s = true -> split_terminal_go false s = [s].
Proof.
  induction s as [| c s IH]; simpl; [reflexivity |].
  intros H. apply andb_true_iff in H. destruct H as [H1 H2].
  apply negb_true_iff in H1. rewrite H1, (IH H2). reflexivity.
Qed.

Lemma go_skip_nospace t :
  head_is_space t = false -> split_terminal_go true t = split_terminal_go false t.
Proof. destruct t as [| c t]; simpl; [reflexivity | intros ->; reflexivity]. Qed.

Lemma go_skip_spaces ws t :
  forallb isspace ws = true ->
  split_terminal_go true (ws ++ t) = split_terminal_go true t.
Proof.
  induction ws as [| w ws IH]; simpl; [reflexivity |].
  intros H. apply andb_true_iff in H. destruct H as [H1 H2].
  rewrite H1. apply IH, H2.
Qed.

Lemma split_terminal_boundary b p rest :
  nosplit (b ++ [p]) = true -> is_terminal p = true ->
  head_is_space rest = true ->
  split_terminal_go false (b ++ p :: rest) =
  b :: [p] :: split_terminal_go true rest.
Proof.
  intros Hn Hp Hr. induction b as [| c b IH]; simpl.
  - rewrite Hp, Hr. reflexivity.
  - simpl in Hn. apply andb_true_iff in Hn. destruct Hn as [H1 H2].
    apply negb_true_iff in H1.
    rewrite head_is_space_app, H1, (IH H2). reflexivity.
Qed.

(** *** Segmenting a joined list of good sentences gives the list back *)

Lemma loop_good_final s : loop_good s -> final_good s.
Proof.
  intros (b & p & -> & Hp & Hn & Hh & _). repeat split; auto.
  rewrite rev_app_distr. simpl. apply terminal_not_space, Hp.
Qed.

Lemma long_nonempty s : long s -> s <> [].
Proof. unfold long. destruct s; simpl; [lia | congruence]. Qed.

Lemma good_list_head s L :
  good_list (s :: L) -> final_good s /\ long s.
Proof.
  simpl. destruct L; [tauto |].
  intros (H1 & H2 & _). split; [apply loop_good_final, H1 | exact H2].
Qed.

Lemma good_list_last L :
  L <> [] -> good_list L -> final_good (last L []).
Proof.
  induction L as [| s L IH]; [congruence |]. intros _ HG.
  destruct L as [| s' L]; [apply HG |].
  change (last (s :: s' :: L) []) with (last (s' :: L) []).
  apply IH; [congruence | apply HG].
Qed.

Section Rejoin.

Variable sep : str.
Hypothesis sep_nonempty : sep <> [].
Hypothesis sep_spaces : forallb isspace sep = true.

Lemma sep_head rest : head_is_space (sep ++ rest) = true.
Proof.
  destruct sep as [| w ws]; [congruence |]. simpl in *.
  apply andb_true_iff in sep_spaces. tauto.
Qed.

Lemma join_head s L :
  good_list (s :: L) -> head_is_space (join sep (s :: L)) = false.
Proof.
  intros H. destruct (good_list_head _ _ H) as [(_ & Hh & _) Hl].
  apply long_nonempty in Hl.
  destruct L; simpl; [exact Hh |].
  rewrite head_is_space_app_l by exact Hl. exact Hh.
Qed.

Lemma odd_length_nonempty (A : Type) (l : list A) :
  Nat.odd (List.length l) = true -> l <> [].
Proof. destruct l; simpl; [discriminate | congruence]. Qed.

Lemma loop_join L :
  L <> [] -> good_list L -> forall acc,
  split_loop (split_terminal (join sep L)) [] acc = ([], acc ++ removelast L) /\
  last (split_terminal (join sep L)) [] = last L [] /\
  Nat.odd (List.length (split_terminal (join sep L))) = true.
Proof.
  unfold split_terminal.
  induction L as [| s L IH]; [congruence |]. intros _ HG acc.
  destruct L as [| s' L].
  - destruct HG as [(Hn & _) _]. simpl join.
    rewrite (split_terminal_nosplit s Hn). simpl.
    rewrite app_nil_r. auto.
  - destruct HG as (HL & Hlong & HG).
    assert (Hs : strip s = s).
    { destruct (loop_good_final s HL) as (_ & H1 & H2). apply strip_id; auto. }
    destruct HL as (b & p & Hbp & Hp & Hn & Hh & Hab).
    specialize (IH ltac:(congruence) HG (acc ++ [s])).
    destruct IH as (IH1 & IH2 & IH3).
    change (join sep (s :: s' :: L)) with (s ++ sep ++ join sep (s' :: L)).
    remember (join sep (s' :: L)) as J eqn:EJ.
    assert (HJ : head_is_space J = false) by (subst J; apply join_head, HG).
    assert (E : split_terminal_go false (s ++ sep ++ J) =
                b :: [p] :: split_terminal_go false J).
    { rewrite Hbp, <- app_assoc. simpl.
      rewrite split_terminal_boundary; auto.
      - rewrite go_skip_spaces by exact sep_spaces.
        rewrite go_skip_nospace by exact HJ. reflexivity.
      - rewrite <- Hbp. exact Hn.
      - apply sep_head. }
    rewrite E. repeat split.
    + simpl split_loop. rewrite Hab. simpl negb. cbv iota.
      rewrite <- Hbp, Hs, IH1.
      simpl removelast. rewrite <- app_assoc. reflexivity.
    + pose proof (odd_length_nonempty _ _ IH3) as Hne.
      destruct (split_terminal_go false J) as [| r rs]; [congruence |].
      simpl in *. exact IH2.
    + simpl. exact IH3.
Qed.

Lemma filter_long_good L :
  good_list L -> filter (fun s => (2 <? List.length s)%nat) L = L.
Proof.
  induction L as [| s L IH]; [reflexivity |]. intros HG.
  destruct (good_list_head _ _ HG) as [_ Hl].
  simpl. unfold long in Hl. apply Nat.ltb_lt in Hl. rewrite Hl. f_equal.
  apply IH. destruct L; [exact I |]. simpl in HG. tauto.
Qed.

Lemma resegment_good L :
  good_list L -> split_sentences (join sep L) = L.
Proof.
  intros HG. destruct L as [| s L]; [reflexivity |].
  destruct (loop_join (s :: L) ltac:(congruence) HG []) as (H1 & H2 & H3).
  unfold split_sentences.
  destruct (join sep (s :: L)) as [| c t] eqn:EJ.
  - exfalso. destruct (good_list_head _ _ HG) as [_ Hl].
    apply long_nonempty in Hl. destruct L; simpl in EJ; [congruence |].
    destruct s; [congruence | discriminate].
  - change ([] ++ removelast (s :: L)) with (removelast (s :: L)) in H1.
    rewrite H1, H2, H3. cbv beta iota zeta.
    destruct (good_list_last (s :: L) ltac:(congruence) HG) as (_ & Hf1 & Hf2).
    rewrite (strip_id _ Hf1 Hf2).
    rewrite <- app_removelast_last by congruence.
    apply filter_long_good, HG.
Qed.

End Rejoin.

(** *** What the segmenter returns is a list of good sentences *)

Lemma nosplit_app x y :
  nosplit x = true -> nosplit y = true -> head_is_space y = false ->
  nosplit (x ++ y) = true.
Proof.
  intros Hx Hy Hh. induction x as [| c x IH]; simpl; [exact Hy |].
  simpl in Hx. apply andb_true_iff in Hx. destruct Hx as [H1 H2].
  rewrite (IH H2), andb_true_r.
  destruct x as [| d x]; simpl in *.
  - rewrite Hh, andb_false_r. reflexivity.
  - exact H1.
Qed.

Lemma nosplit_snoc x p :
  nosplit x = true -> isspace p = false -> nosplit (x ++ [p]) = true.
Proof.
  intros Hx Hp. apply nosplit_app; simpl; auto.
  rewrite andb_false_r. reflexivity.
Qed.

Lemma nosplit_prefix x y : nosplit (x ++ y) = true -> nosplit x = true.
Proof.
  induction x as [| c x IH]; simpl; [reflexivity |].
  intros H. apply andb_true_iff in H. destruct H as [H1 H2].
  rewrite (IH H2), andb_true_r.
  destruct x as [| d x]; simpl in *; [| exact H1].
  rewrite andb_false_r. reflexivity.
Qed.

Lemma nosplit_suffix x y : nosplit (x ++ y) = true -> nosplit y = true.
Proof.
  induction x as [| c x IH]; simpl; [auto |].
  intros H. apply andb_true_iff in H. apply IH, H.
Qed.

Lemma lstrip_suffix t : exists ws, t = ws ++ lstrip t.
Proof.
  induction t as [| c t (ws & IH)]; simpl.
  - exists []. reflexivity.
  - destruct (isspace c).
    + exists (c :: ws). simpl. f_equal. exact IH.
    + exists []. reflexivity.
Qed.

Lemma rstrip_prefix t : exists ws, t = rstrip t ++ ws.
Proof.
  unfold rstrip. destruct (lstrip_suffix (rev t)) as (ws & E).
  exists (rev ws). rewrite <- rev_app_distr, <- E, rev_involutive. reflexivity.
Qed.

Lemma nosplit_strip t : nosplit t = true -> nosplit (strip t) = true.
Proof.
  intros H. unfold strip.
  destruct (rstrip_prefix t) as (ws & E). rewrite E in H.
  apply nosplit_prefix in H.
  destruct (lstrip_suffix (rstrip t)) as (ws' & E'). rewrite E' in H.
  apply nosplit_suffix in H. exact H.
Qed.

Lemma strip_rev_head t : head_is_space (rev (strip t)) = false.
Proof.
  unfold strip.
  assert (H : head_is_space (rev (rstrip t)) = false).
  { unfold rstrip. rewrite rev_involutive. apply lstrip_head. }
  destruct (lstrip_suffix (rstrip t)) as (ws & E).
  destruct (lstrip (rstrip t)) as [| c l] eqn:El; [reflexivity |].
  rewrite E, rev_app_distr in H.
  rewrite head_is_space_app_l in H; [exact H |].
  simpl. destruct (rev l); discriminate.
Qed.

Lemma strip_final_good t : nosplit t = true -> final_good (strip t).
Proof.
  intros H. repeat split.
  - apply nosplit_strip, H.
  - unfold strip. apply lstrip_head.
  - apply strip_rev_head.
Qed.

Lemma go_first_head t :
  head_is_space (hd [] (split_terminal_go false t)) = true ->
  head_is_space t = true.
Proof.
  destruct t as [| c t]; simpl; [auto |].
  destruct (is_terminal c && head_is_space t); simpl; [discriminate |].
  destruct (split_terminal_go false t); simpl; auto.
Qed.

Lemma split_terminal_go_ok t :
  forall skip, raw_ok (negb skip) (split_terminal_go skip t).
Proof.
  induction t as [| c t IH]; intros skip; simpl.
  - repeat split; auto.
  - destruct (skip && isspace c) eqn:E1.
    { apply andb_true_iff in E1. destruct E1 as [-> _]. apply (IH true). }
    destruct (is_terminal c && head_is_space t) eqn:E2.
    { apply andb_true_iff in E2. destruct E2 as [E2 _].
      simpl. repeat split; auto.
      - exists c. auto.
      - apply (IH true). }
    pose proof (IH false) as H. pose proof (go_first_head t) as Hh.
    destruct (split_terminal_go false t) as [| r rs]; [destruct H |].
    simpl in *. destruct H as (Hn & _ & Hrest).
    repeat split; auto.
    + rewrite Hn, andb_true_r. apply negb_true_iff.
      destruct (head_is_space r) eqn:Er; [| apply andb_false_r].
      rewrite Hh in E2 by reflexivity. exact E2.
    + destruct skip; [right | left; reflexivity].
      simpl in E1. exact E1.
Qed.

Lemma raw_ok_odd first raw : raw_ok first raw -> Nat.odd (List.length raw) = true.
Proof.
  revert first.
  assert (H : forall n raw first, (List.length raw <= n)%nat ->
               raw_ok first raw -> Nat.odd (List.length raw) = true).
  { induction n as [| n IH]; intros [| a [| b rest]] first Hl Hok;
      simpl in *; try tauto; try lia.
    destruct Hok as (_ & _ & _ & Hok).
    apply (IH rest false); [lia | exact Hok]. }
  intros first. apply (H (List.length raw)). lia.
Qed.

(** *** The last word of a chunk glued to a held sentence *)

Lemma str_eqb_eq a b : str_eqb a b = true <-> a = b.
Proof.
  revert b. induction a as [| x a IH]; intros [| y b]; simpl;
    try (split; [discriminate | congruence]); [tauto |].
  rewrite andb_true_iff, N.eqb_eq, IH. split; [intros []; congruence |].
  intros E. inversion E. auto.
Qed.

Lemma abbreviation_no_terminal w q :
  is_abbreviation w = true -> is_terminal q = true -> ~ In q w.
Proof.
  unfold is_abbreviation. intros Hw Hq Hin.
  apply existsb_exists in Hw. destruct Hw as (a & Ha & E).
  apply str_eqb_eq in E. subst a.
  destruct (terminal_cases q Hq) as [-> | [-> | ->]];
    vm_compute in Ha;
    repeat (destruct Ha as [<- | Ha];
            [vm_compute in Hin; repeat (destruct Hin as [Hin | Hin];
                                        [discriminate |]); exact Hin |]);
    exact Ha.
Qed.

Lemma split_has_word q z : In q z -> isspace q = false -> split z <> [].
Proof.
  intros Hin Hq. induction z as [| c z IH]; simpl in *; [tauto |].
  destruct (isspace c) eqn:Ec.
  - destruct Hin as [-> | Hin]; [congruence | auto].
  - destruct (head_is_space z); [discriminate |].
    destruct (split z); discriminate.
Qed.

Lemma split_lstrip t : split (lstrip t) = split t.
Proof.
  induction t as [| c t IH]; simpl; [reflexivity |].
  destruct (isspace c) eqn:E; [exact IH |].
  simpl. rewrite E. reflexivity.
Qed.

Lemma last_word_glue h q y :
  isspace q = false -> head_is_space y = false ->
  In q (last (split (h ++ q :: y)) []) \/
  (last (split (h ++ q :: y)) [] = last (split y) [] /\
   (2 <= List.length (split (h ++ q :: y)))%nat).
Proof.
  intros Hq Hy. induction h as [| c h IH].
  - simpl. rewrite Hq, Hy.
    destruct (split y) as [| w [| w2 ws]]; simpl; auto.
    right. split; [reflexivity | lia].
  - assert (Hne : split (h ++ q :: y) <> []).
    { apply (split_has_word q); [| exact Hq].
      apply in_or_app. right. left. reflexivity. }
    change ((c :: h) ++ q :: y) with (c :: (h ++ q :: y)).
    remember (h ++ q :: y) as z. simpl.
    destruct (isspace c); [exact IH |].
    destruct (split z) as [| w ws] eqn:Ez; [congruence |].
    destruct (head_is_space z).
    + destruct IH as [IH | [IH1 IH2]]; [left; exact IH |].
      right. split; [exact IH1 | simpl in *; lia].
    + destruct ws as [| w2 ws].
      * destruct IH as [IH | [_ IH2]]; [| simpl in IH2; lia].
        left. right. exact IH.
      * exact IH.
Qed.

(** *** The loop keeps its invariant *)

Lemma glue_nosplit cur chunk :
  cur_ok cur -> nosplit chunk = true ->
  cur = [] \/ head_is_space chunk = false ->
  nosplit (cur ++ chunk) = true.
Proof.
  intros [-> | (Hn & _)] Hc Hh; [exact Hc |].
  destruct Hh as [-> | Hh]; [exact Hc |].
  apply nosplit_app; auto.
Qed.

Lemma loop_sentence_good cur chunk p :
  cur_ok cur -> nosplit chunk = true ->
  cur = [] \/ head_is_space chunk = false ->
  is_terminal p = true ->
  is_abbreviation (last (split chunk) []) = false ->
  loop_good (strip ((cur ++ chunk) ++ [p])).
Proof.
  intros Hcur Hc Hh Hp Hab.
  pose proof (terminal_not_space p Hp) as Hps.
  pose proof (glue_nosplit cur chunk Hcur Hc Hh) as HX.
  rewrite strip_snoc by exact Hps.
  exists (lstrip (cur ++ chunk)), p. repeat split; auto.
  - rewrite <- lstrip_snoc by exact Hps.
    destruct (lstrip_suffix ((cur ++ chunk) ++ [p])) as (ws & E).
    apply (nosplit_suffix ws). rewrite <- E. apply nosplit_snoc; auto.
  - rewrite <- lstrip_snoc by exact Hps. apply lstrip_head.
  - rewrite split_lstrip.
    destruct Hcur as [-> | (_ & h & q & -> & Hq)]; [exact Hab |].
    destruct Hh as [Hh | Hh]; [destruct h; discriminate |].
    rewrite <- app_assoc. simpl.
    destruct (last_word_glue h q chunk (terminal_not_space q Hq) Hh)
      as [Hin | [E _]].
    + destruct (is_abbreviation (last (split (h ++ q :: chunk)) [])) eqn:Ea;
        [| reflexivity].
      exfalso. exact (abbreviation_no_terminal _ q Ea Hq Hin).
    + rewrite E. exact Hab.
Qed.

Lemma last_cons2 (A : Type) (a b : A) l d :
  l <> [] -> last (a :: b :: l) d = last l d.
Proof. destruct l; [congruence | reflexivity]. Qed.

Lemma split_loop_ok n :
  forall raw first cur acc,
    (List.length raw <= n)%nat -> raw_ok first raw ->
    cur = [] \/ first = false -> cur_ok cur -> Forall loop_good acc ->
    cur_ok (fst (split_loop raw cur acc)) /\
    Forall loop_good (snd (split_loop raw cur acc)) /\
    nosplit (fst (split_loop raw cur acc) ++ last raw []) = true.
Proof.
  induction n as [| n IH]; intros [| chunk [| punc rest]] first cur acc
    Hlen Hraw Hfirst Hcur Hacc; simpl in Hlen; try lia;
    try (destruct Hraw; fail).
  - destruct Hraw as (Hc & Hh & _). simpl. repeat split; auto.
    apply glue_nosplit; auto. destruct Hfirst, Hh; auto; congruence.
  - destruct Hraw as (Hc & Hh & (p & -> & Hp) & Hrest).
    assert (Hh' : cur = [] \/ head_is_space chunk = false)
      by (destruct Hfirst, Hh; auto; congruence).
    rewrite last_cons2 by (destruct rest; [destruct Hrest | discriminate]).
    simpl split_loop. rewrite app_assoc.
    destruct (is_abbreviation (last (split chunk) [])) eqn:Hab; simpl negb;
      cbv iota.
    + apply (IH rest false); auto; try lia.
      right. split.
      * apply nosplit_snoc; [apply glue_nosplit; auto |].
        apply terminal_not_space, Hp.
      * exists (cur ++ chunk), p. auto.
    + apply (IH rest false); auto; try lia.
      * left. reflexivity.
      * apply Forall_app. split; [exact Hacc |].
        constructor; [| constructor].
        apply loop_sentence_good; auto.
Qed.

Lemma filter_good sents f :
  Forall loop_good sents -> final_good f ->
  good_list (filter (fun s => (2 <? List.length s)%nat) (sents ++ [f])).
Proof.
  intros Hs Hf. induction Hs as [| s sents Hs _ IH]; simpl.
  - destruct (2 <? List.length f)%nat eqn:E; simpl; [| exact I].
    apply Nat.ltb_lt in E. split; assumption.
  - destruct (2 <? List.length s)%nat eqn:E; [| exact IH].
    apply Nat.ltb_lt in E.
    match goal with
    | |- good_list (s :: ?L) => destruct L as [| s' L'] eqn:EL
    end.
    + simpl. split; [apply loop_good_final, Hs | exact E].
    + change (loop_good s /\ long s /\ good_list (s' :: L')). auto.
Qed.

Lemma split_sentences_good t : good_list (split_sentences t).
Proof.
  unfold split_sentences. destruct t as [| c t]; [exact I |].
  pose proof (split_terminal_go_ok (c :: t) false) as Hraw.
  change (split_terminal_go false (c :: t)) with (split_terminal (c :: t))
    in Hraw.
  simpl negb in Hraw.
  destruct (split_loop_ok _ (split_terminal (c :: t)) true [] []
              (Nat.le_refl _) Hraw) as (H1 & H2 & H3);
    [left; reflexivity | left; reflexivity | constructor |].
  rewrite (raw_ok_odd _ _ Hraw).
  destruct (split_loop (split_terminal (c :: t)) [] []) as [cur sents].
  simpl in H1, H2, H3.
  destruct cur as [| d cur]; apply filter_good; auto;
    apply strip_final_good; exact H3.
Qed.

End SegmenterFacts.

(** C8: segmenting the segmenter's own output, joined by whitespace,
    gives the same sentences again, for every input text and every
    separator made of whitespace. *)
Theorem split_sentences_idempotent (text sep : str) :
  sep <> [] -> forallb isspace sep = true ->
  Main.split_sentences (join sep (Main.split_sentences text)) =
  Main.split_sentences text.
Proof.
  intros Hne Hws. apply SegmenterFacts.resegment_good; auto.
  apply SegmenterFacts.split_sentences_good.
Qed.

Lemma split_sentences_idempotent_witness :
  py " " <> [] /\ forallb isspace (py " ") = true /\
  Main.split_sentences
    (join (py " ") (Main.split_sentences (py "Mr. Fox ran.  He hid! Why"))) =
  Main.split_sentences (py "Mr. Fox ran.  He hid! Why").
Proof.
  split; [discriminate |]. split; [reflexivity |].
  apply split_sentences_idempotent; [discriminate | reflexivity].
Defined.

(** C7: on the example of the specification the segmenter returns two
    sentences, but the held abbreviation is glued to the next chunk without
    the blank that the pattern swallowed: the first sentence is
    "Dr.Smith arrived." and does not contain "Dr. Smith arrived.". *)
Theorem split_sentences_abbreviation_glued :
  Main.split_sentences (py "Dr. Smith arrived. He left.") =
    [py "Dr.Smith arrived."; py "He left."] /\
  contains (py "Dr. Smith arrived.") (py "Dr.Smith arrived.") = false.
Proof. split; vm_compute; reflexivity. Qed.

(** ** Sample inputs *)


(** ** Stage 1 *)

(** C1: a picture that follows a paragraph on its page is stored before
    it.  The paragraph waits in the pending batch until the flush, the
    picture is appended at once. *)
Theorem stage1_image_before_earlier_text :
  exists st,
    Main.process_book_stage1 Samples.svc_down false
      Samples.page_text_then_image (py "Book") = Ok st /\
    Main.writes st =
      [[Samples.picture; Samples.hello_paragraph []]] /\
    Main.full_structure st = [Samples.picture; Samples.hello_paragraph []].
Proof. eexists. repeat split; vm_compute; reflexivity. Qed.

(** C3: a reply that is valid JSON, with numbers in the place of the
    translation objects, comes out of [translate_sentence_batch] as it is,
    and the flush raises on it: Stage 1 ends in a [TypeError]. *)
Theorem stage1_raises_on_malformed_entries :
  fst (Main.translate_sentence_batch Samples.svc_numbers []
         [py "Hello world."] (py "Book") (py "Unknown")) = PList [PInt 1] /\
  Main.process_book_stage1 Samples.svc_numbers false
    Samples.page_text_then_image (py "Book") = Raise TypeError.
Proof. split; vm_compute; reflexivity. Qed.

(** ** Driver *)

(** C2: with an undersized structural file and nothing else, the driver
    calls Stage 1, which finds the file present and returns without a
    request and without a write; the patcher is next. *)
Theorem driver_keeps_undersized_structural :
  Main.process_single_book
    {| Main.pdf_final := None; Main.refined := None; Main.cache := Some 10 |} =
    [Main.Stage1 true; Main.Patch; Main.RefineAssemble] /\
  forall svc doc book_name,
    Main.process_book_stage1 svc true doc book_name = Ok Main.stage1_start.
Proof. split; reflexivity. Qed.

(** ** Reflowable renderer *)

(** C9: when the first block is a picture, the paragraph after it starts
    no chapter, and the first heading overwrites what was collected: the
    paragraph is in no chapter of the book. *)
Theorem epub_drops_text_after_leading_image :
  Assemble.assemble_epub (fun _ => true)
    [Samples.picture; Samples.hello_paragraph (py "Sain uu.");
     Samples.title_block] =
  Ok [{| Assemble.title := py "Neg.";
         Assemble.file_name := py "chap_0.xhtml";
         Assemble.chapter_content := py "<h1>Neg.</h1>" |}].
Proof. vm_compute. reflexivity. Qed.

(** ** The two [extract_json] *)

Module ExtractJsonFacts.
Import Main ExtractJson.

Lemma sub_trailing_id close t :
  has_trailing_comma close t = false -> Re.sub_trailing_comma close t = t.
Proof.
  unfold Re.sub_trailing_comma.
  induction t as [| c t IH]; simpl; [reflexivity |].
  intros H. apply orb_false_iff in H. destruct H as [H1 H2].
  rewrite H1, (IH H2). reflexivity.
Qed.

End ExtractJsonFacts.

(** C10, as the code has it: the two routines return the same on every
    reply whose span has no comma before a closing brace or bracket. *)
Theorem extract_json_agree (text : pyval) :
  ExtractJson.repairable text = false ->
  Main.extract_json text = Assemble.extract_json text.
Proof.
  unfold ExtractJson.repairable, ExtractJson.span_of, Main.extract_json,
    Assemble.extract_json.
  destruct (Main.chars_of text) as [t |]; [| reflexivity].
  destruct (Re.search_span (filter Main.keep_char t)) as [span |];
    [| reflexivity].
  intros H. apply orb_false_iff in H. destruct H as [H1 H2].
  rewrite (ExtractJsonFacts.sub_trailing_id _ _ H1).
  rewrite (ExtractJsonFacts.sub_trailing_id _ _ H2). reflexivity.
Qed.

Lemma extract_json_agree_witness :
  ExtractJson.repairable (PStr (Samples.pyq "{'refined_mn': ['Sain uu.']}")) =
    false /\
  Main.extract_json (PStr (Samples.pyq "{'refined_mn': ['Sain uu.']}")) =
  Assemble.extract_json (PStr (Samples.pyq "{'refined_mn': ['Sain uu.']}")).
Proof.
  split; [reflexivity | apply extract_json_agree; reflexivity].
Defined.

(** C10, as stated, fails: with a comma before the closing brace the
    routine of main.py returns the object and the one of assemble.py
    returns [None]. *)
Lemma extract_json_differ :
  Main.extract_json (PStr (Samples.pyq "{'a': 1,}")) = PDict [(py "a", PInt 1)] /\
  Assemble.extract_json (PStr (Samples.pyq "{'a': 1,}")) = PNone /\
  ~ (forall text, Main.extract_json text = Assemble.extract_json text).
Proof.
  assert (H1 : Main.extract_json (PStr (Samples.pyq "{'a': 1,}")) =
               PDict [(py "a", PInt 1)]) by (vm_compute; reflexivity).
  assert (H2 : Assemble.extract_json (PStr (Samples.pyq "{'a': 1,}")) = PNone)
    by (vm_compute; reflexivity).
  repeat split; auto.
  intros H. specialize (H (PStr (Samples.pyq "{'a': 1,}"))).
  rewrite H1, H2 in H. discriminate.
Qed.

(** ** Terminal punctuation of target texts *)

Module TargetsFacts.
Import Main Targets.

Lemma endswith_terminal_last s :
  endswith_terminal s = true ->
  exists s' c, s = s' ++ [c] /\ (c = 46 \/ c = 33 \/ c = 63).
Proof.
  unfold endswith_terminal. destruct (rev s) as [| c r] eqn:E; [discriminate |].
  intros H. exists (rev r), c. split.
  - rewrite <- (rev_involutive s), E. reflexivity.
  - apply SegmenterFacts.terminal_cases, H.
Qed.

Lemma closed_target_ok s :
  target_ok (PStr (if endswith_terminal s then s else s ++ py ".")).
Proof.
  intros t E _. inversion E; subst; clear E.
  destruct (endswith_terminal s) eqn:Es.
  - apply endswith_terminal_last, Es.
  - exists s, 46. auto.
Qed.

Lemma falsy_target_ok v : truthy v = false -> target_ok v.
Proof. intros H s -> Hs. destruct s; [congruence | discriminate]. Qed.

Lemma fill_sentence_ok m x item :
  fill_sentence m x = Ok item -> target_ok (mn item).
Proof.
  unfold fill_sentence. destruct (truthy (mapping_get m x)) eqn:Ht.
  - destruct (mapping_get m x); try discriminate.
    intros H. inversion H; subst; clear H. apply closed_target_ok.
  - intros H. inversion H; subst; clear H. apply falsy_target_ok, Ht.
Qed.

Lemma map_res_In (A B : Type) (f : A -> res B) l l' b :
  map_res f l = Ok l' -> In b l' -> exists a, In a l /\ f a = Ok b.
Proof.
  revert l'. induction l as [| a l IH]; simpl; intros l' H Hin.
  - inversion H; subst. destruct Hin.
  - destruct (f a) as [b0 |] eqn:Ef; simpl in H; [| discriminate].
    destruct (map_res f l) as [bs |] eqn:El; simpl in H; [| discriminate].
    inversion H; subst; clear H. destruct Hin as [-> | Hin].
    + exists a. auto.
    + destruct (IH bs eq_refl Hin) as (a' & Ha & Hf). exists a'. auto.
Qed.

Lemma skipn_length_app (A : Type) (l1 l2 : list A) :
  skipn (List.length l1) (l1 ++ l2) = l2.
Proof. induction l1; simpl; auto. Qed.

Lemma patched_target_ok reply v :
  patched_target reply = Ok (Some v) -> target_ok v.
Proof.
  unfold patched_target. destruct (truthy reply); [| discriminate].
  destruct (py_index reply 0) as [first |]; simpl; [| discriminate].
  destruct (py_get first (py "mn") PNone) as [w |]; simpl; [| discriminate].
  destruct (truthy w); [| discriminate].
  destruct w; try discriminate.
  intros H. inversion H; subst; clear H. apply closed_target_ok.
Qed.

Lemma flush_batch_appends svc book_name st st' :
  flush_batch svc book_name st = Ok st' ->
  st' = st \/
  exists m blocks,
    map_res (fill_block m) (pending_blocks st) = Ok blocks /\
    full_structure st' = full_structure st ++ blocks.
Proof.
  unfold flush_batch. destruct (pending_sentences st) as [| p ps].
  - intros H. inversion H. auto.
  - destruct (translate_sentence_batch svc (requests st) (p :: ps) book_name
                (current_chapter st)) as [translations log].
    destruct (py_iter translations) as [ts |]; simpl; [| discriminate].
    destruct (build_mapping ts) as [m |]; simpl; [| discriminate].
    destruct (map_res (fill_block m) (pending_blocks st)) as [blocks |] eqn:E;
      simpl; [| discriminate].
    intros H. inversion H; subst; clear H. simpl.
    right. exists m, blocks. auto.
Qed.

End TargetsFacts.

(** C4: every non-empty target text that a flush of Stage 1 or a patch of
    the patcher produces ends with one of the three terminal marks. *)
Theorem target_text_ends_with_terminal (v : pyval) :
  Targets.produced v -> Targets.target_ok v.
Proof.
  intros [svc book_name st st' b item Hf Hb Hi | reply w Hp].
  - destruct (TargetsFacts.flush_batch_appends _ _ _ _ Hf)
      as [-> | (m & blocks & Hm & E)].
    + rewrite skipn_all in Hb. destruct Hb.
    + rewrite E, TargetsFacts.skipn_length_app in Hb.
      destruct (TargetsFacts.map_res_In _ _ _ _ _ _ Hm Hb) as (pb & _ & Hpb).
      unfold Main.fill_block in Hpb.
      destruct (map_res (Main.fill_sentence m) (Main.sentences pb))
        as [segs |] eqn:Es; simpl in Hpb; [| discriminate].
      inversion Hpb; subst; clear Hpb. simpl in Hi.
      destruct (TargetsFacts.map_res_In _ _ _ _ _ _ Es Hi) as (x & _ & Hx).
      exact (TargetsFacts.fill_sentence_ok _ _ _ Hx).
  - exact (TargetsFacts.patched_target_ok _ _ Hp).
Qed.

Lemma target_text_ends_with_terminal_witness :
  Targets.produced (PStr (py "Sain uu.")) /\
  exists s' c, py "Sain uu." = s' ++ [c] /\ (c = 46 \/ c = 33 \/ c = 63).
Proof.
  assert (H : Targets.produced (PStr (py "Sain uu."))).
  { eapply (Targets.by_flush Samples.svc_same (py "Book")
              Samples.pending_hello _
              (Samples.hello_paragraph (py "Sain uu."))
              (Samples.hello_segment (py "Sain uu."))).
    - vm_compute. reflexivity.
    - vm_compute. left. reflexivity.
    - left. reflexivity. }
  split; [exact H |].
  apply (target_text_ends_with_terminal _ H (py "Sain uu.") eq_refl).
  discriminate.
Defined.

(** ** Document State under the passes that rewrite targets *)

Module DocFacts.
Import Main Doc.

Lemma set_content_same b : set_content b (content b) = b.
Proof. destruct b. reflexivity. Qed.

Lemma skeleton_app d1 d2 : skeleton (d1 ++ d2) = skeleton d1 ++ skeleton d2.
Proof. apply map_app. Qed.

End DocFacts.

(** ** Patcher *)

Module PatcherFacts.
Import Main Doc DocFacts Patcher.

Lemma skeleton_patched before b after done item v rest :
  skeleton (before ++
            [set_content b (done ++ {| en := en item; mn := v |} :: rest)] ++
            after) =
  skeleton (before ++ [set_content b (done ++ item :: rest)] ++ after).
Proof.
  rewrite !skeleton_app. simpl. rewrite !map_app. reflexivity.
Qed.

Lemma patch_items_spec svc book_title data0 before b after todo :
  forall done st items st',
    patch_items svc book_title before b after done todo st = Ok (items, st') ->
    inv data0 (before ++ [set_content b (done ++ todo)] ++ after) st ->
    inv data0 (before ++ [set_content b items] ++ after) st' /\
    p_requests st' =
      p_requests st ++ map (patch_request book_title) (filter unfilled todo).
Proof.
  induction todo as [| item rest IH]; intros done st items st' H Hinv.
  - simpl in H. inversion H; subst; clear H.
    rewrite app_nil_r in Hinv. simpl. rewrite app_nil_r. auto.
  - simpl in H.
    destruct (needs_patch item) as [need |] eqn:En; simpl in H;
      [| discriminate].
    assert (Hu : unfilled item = need) by (unfold unfilled; rewrite En; auto).
    simpl filter. rewrite Hu.
    destruct need.
    + match type of H with
      | context [patched_target ?r] =>
          destruct (patched_target r) as [[v |] |]; simpl in H;
            [| | discriminate]
      end.
      * match type of H with
        | context [json_dump ?d] =>
            destruct (json_dump d) as [[] |]; simpl in H; [| discriminate]
        end.
        apply IH in H.
        -- destruct H as [H1 H2]. split; [exact H1 |].
           rewrite H2. simpl. rewrite <- app_assoc. reflexivity.
        -- destruct Hinv as (I1 & I2 & I3 & I4).
           rewrite <- app_assoc. simpl.
           assert (Hs : skeleton
                          (before ++
                           [set_content b
                              (done ++ {| en := en item; mn := v |} :: rest)] ++
                           after) = skeleton data0)
             by (rewrite skeleton_patched; exact I3).
           unfold inv. simpl. repeat split.
           ++ rewrite length_app. simpl. lia.
           ++ apply Forall_app. split; [exact I2 |]. constructor; auto.
           ++ exact Hs.
           ++ apply last_last.
      * apply IH in H.
        -- destruct H as [H1 H2]. split; [exact H1 |].
           rewrite H2. simpl. rewrite <- app_assoc. reflexivity.
        -- rewrite <- app_assoc. simpl. exact Hinv.
    + apply IH in H; [exact H |].
      rewrite <- app_assoc. simpl. exact Hinv.
Qed.

Lemma patch_blocks_spec svc book_title data0 todo :
  forall before st data' st',
    patch_blocks svc book_title before todo st = Ok (data', st') ->
    inv data0 (before ++ todo) st ->
    inv data0 data' st' /\
    p_requests st' =
      p_requests st ++
      map (patch_request book_title) (filter unfilled (text_segments todo)).
Proof.
  induction todo as [| b after IH]; intros before st data' st' H Hinv.
  - simpl in H. inversion H; subst; clear H.
    rewrite app_nil_r in Hinv. simpl. rewrite app_nil_r. auto.
  - assert (Himg : type b = image ->
              patch_blocks svc book_title (before ++ [b]) after st =
                Ok (data', st') ->
              inv data0 data' st' /\
              p_requests st' =
                p_requests st ++
                map (patch_request book_title)
                  (filter unfilled (text_segments (b :: after)))).
    { intros Ht H'. apply IH in H'.
      - simpl. rewrite Ht. exact H'.
      - rewrite <- app_assoc. exact Hinv. }
    assert (Htxt : type b <> image ->
              (do r <- patch_items svc book_title before b after []
                         (content b) st;
               patch_blocks svc book_title (before ++ [set_content b (fst r)])
                 after (snd r)) = Ok (data', st') ->
              inv data0 data' st' /\
              p_requests st' =
                p_requests st ++
                map (patch_request book_title)
                  (filter unfilled (text_segments (b :: after)))).
    { intros Ht H'.
      destruct (patch_items svc book_title before b after [] (content b) st)
        as [[items st1] |] eqn:Ei; simpl in H'; [| discriminate].
      apply (patch_items_spec _ _ data0) in Ei.
      - destruct Ei as [I1 R1]. apply IH in H'.
        + destruct H' as [I2 R2]. split; [exact I2 |].
          rewrite R2, R1, <- app_assoc, <- map_app, <- filter_app.
          simpl text_segments. destruct (type b); congruence.
        + rewrite <- app_assoc. exact I1.
      - simpl. rewrite set_content_same. exact Hinv. }
    simpl in H. destruct (type b) eqn:Et.
    + apply Htxt; [discriminate | exact H].
    + apply Htxt; [discriminate | exact H].
    + apply Himg; [reflexivity | exact H].
Qed.

End PatcherFacts.

(** *** The pass and its contract *)

Module ContractFacts.
Import Main Doc DocFacts Patcher Contract.

Lemma needs_patch_wanting item :
  target_sized item -> needs_patch item = Ok (wanting item).
Proof.
  unfold needs_patch, wanting. intros [H | (s & H)]; rewrite H.
  - simpl. destruct (mn item) as [| | | | | | s | |]; try reflexivity.
    destruct s; [reflexivity | discriminate].
  - destruct s as [| c s]; reflexivity.
Qed.

Lemma punctuated_close s :
  (if endswith_terminal s then s else s ++ py ".") = punctuated s.
Proof.
  unfold endswith_terminal, punctuated, Re.is_terminal.
  destruct (rev s) as [| c r]; reflexivity.
Qed.

Lemma patched_target_offer reply :
  legible reply ->
  patched_target reply =
    Ok (option_map (fun t => PStr (punctuated t)) (offer reply)).
Proof.
  unfold patched_target. intros [H | (d & rest & -> & H)].
  - rewrite H. destruct reply as [| | | | | | | [| [] l] |]; try reflexivity;
      discriminate.
  - cbn [truthy py_index nth_error bind py_get offer].
    destruct (dict_get d (py "mn")) as [v |]; [| reflexivity].
    destruct H as [H | (s & ->)].
    + rewrite H. destruct v as [| | | | | | [| c s] | |]; try reflexivity.
      discriminate.
    + destruct s as [| c s]; [reflexivity |].
      cbn [truthy option_map]. rewrite punctuated_close. reflexivity.
Qed.

Lemma firstn_snoc (A : Type) (l : list A) k x :
  nth_error l k = Some x -> firstn (S k) l = firstn k l ++ [x].
Proof.
  revert k. induction l as [| a l IH]; intros [| k] H; simpl in *;
    try discriminate.
  - injection H as ->. reflexivity.
  - rewrite (IH _ H). reflexivity.
Qed.

Lemma wanted_app d1 d2 : wanted (d1 ++ d2) = wanted d1 ++ wanted d2.
Proof. unfold wanted, text_segments. rewrite flat_map_app. apply filter_app. Qed.

Lemma wanted_cons b d :
  wanted (b :: d) =
  match type b with
  | image => wanted d
  | _ => filter wanting (content b) ++ wanted d
  end.
Proof.
  unfold wanted, text_segments. simpl. rewrite filter_app.
  destruct (type b); reflexivity.
Qed.

Section Pass.
Variable svc : service.
Variable book_title : str.

Lemma items_after_app j l1 :
  forall k l2,
    items_after svc book_title j k (l1 ++ l2) =
    items_after svc book_title j k l1 ++
    items_after svc book_title j (k + List.length (filter wanting l1)) l2.
Proof.
  induction l1 as [| item l1 IH]; intros k l2; simpl.
  - rewrite Nat.add_0_r. reflexivity.
  - destruct (wanting item); simpl; rewrite IH; f_equal; f_equal; f_equal;
      lia.
Qed.

Lemma items_after_none j items :
  forall k, (j <= k)%nat -> items_after svc book_title j k items = items.
Proof.
  induction items as [| item rest IH]; intros k H; simpl; [reflexivity |].
  destruct (wanting item).
  - destruct (Nat.ltb_spec k j); [lia |]. rewrite IH by lia. reflexivity.
  - rewrite IH by lia. reflexivity.
Qed.

Lemma items_after_stable j j' items :
  forall k,
    (k + List.length (filter wanting items) <= j)%nat ->
    (k + List.length (filter wanting items) <= j')%nat ->
    items_after svc book_title j k items =
    items_after svc book_title j' k items.
Proof.
  induction items as [| item rest IH]; intros k H H'; simpl in *;
    [reflexivity |].
  destruct (wanting item); simpl in *.
  - destruct (Nat.ltb_spec k j); [| lia].
    destruct (Nat.ltb_spec k j'); [| lia].
    rewrite (IH (S k)) by lia. reflexivity.
  - rewrite (IH k) by lia. reflexivity.
Qed.

Lemma blocks_after_app j d1 :
  forall k d2,
    blocks_after svc book_title j k (d1 ++ d2) =
    blocks_after svc book_title j k d1 ++
    blocks_after svc book_title j (k + List.length (wanted d1)) d2.
Proof.
  induction d1 as [| b d1 IH]; intros k d2.
  - simpl. rewrite Nat.add_0_r. reflexivity.
  - rewrite wanted_cons. simpl.
    destruct (type b); simpl; rewrite IH, ?length_app; f_equal; f_equal;
      f_equal; lia.
Qed.

Lemma blocks_after_none j data :
  forall k, (j <= k)%nat -> blocks_after svc book_title j k data = data.
Proof.
  induction data as [| b rest IH]; intros k H; simpl; [reflexivity |].
  destruct (type b); rewrite ?items_after_none by lia;
    rewrite ?set_content_same, IH by lia; reflexivity.
Qed.

Lemma blocks_after_stable j j' data :
  forall k,
    (k + List.length (wanted data) <= j)%nat ->
    (k + List.length (wanted data) <= j')%nat ->
    blocks_after svc book_title j k data =
    blocks_after svc book_title j' k data.
Proof.
  induction data as [| b rest IH]; intros k H H'; [reflexivity |].
  rewrite wanted_cons in H, H'. simpl.
  destruct (type b); rewrite ?length_app in H, H'.
  - rewrite (items_after_stable j j') by lia. rewrite IH by lia. reflexivity.
  - rewrite (items_after_stable j j') by lia. rewrite IH by lia. reflexivity.
  - rewrite IH by lia. reflexivity.
Qed.

Lemma successes_app l1 :
  forall k l2,
    successes svc book_title k (l1 ++ l2) =
    successes svc book_title k l1 ++
    successes svc book_title (k + List.length l1) l2.
Proof.
  induction l1 as [| item l1 IH]; intros k l2; simpl.
  - rewrite Nat.add_0_r. reflexivity.
  - destruct (answer svc book_title k item); simpl; rewrite IH;
      replace (S k + List.length l1)%nat with (k + S (List.length l1))%nat
        by lia; reflexivity.
Qed.

(** *** What can be written stays so *)

Hypothesis offers_ok : forall n req t,
  offer (response_translations (svc n req)) = Some t -> utf8_ok t = true.

Lemma punctuated_ok t : utf8_ok t = true -> utf8_ok (punctuated t) = true.
Proof.
  intros H. unfold punctuated.
  assert (H' : utf8_ok (t ++ [46]) = true).
  { unfold utf8_ok. rewrite forallb_app. fold (utf8_ok t). rewrite H.
    reflexivity. }
  destruct (rev t) as [| c r]; [exact H' |].
  destruct ((c =? 46) || (c =? 33) || (c =? 63)); assumption.
Qed.

Lemma items_after_ok j items :
  forall k,
    forallb (fun item => utf8_ok (en item) && dumpable (mn item)) items =
      true ->
    forallb (fun item => utf8_ok (en item) && dumpable (mn item))
      (items_after svc book_title j k items) = true.
Proof.
  induction items as [| item rest IH]; intros k H; [reflexivity |].
  simpl in H. apply andb_true_iff in H. destruct H as [Hi Hr]. simpl.
  destruct (wanting item).
  - cbn [forallb]. rewrite (IH _ Hr), andb_true_r.
    destruct (k <? j)%nat; [| exact Hi].
    unfold patched, answer.
    destruct (offer (response_translations
                       (svc k (patch_request book_title item)))) as [t |] eqn:E;
      [| exact Hi].
    apply andb_true_iff in Hi. destruct Hi as [He _]. cbn [en mn dumpable].
    rewrite He. apply punctuated_ok, (offers_ok _ _ _ E).
  - cbn [forallb]. rewrite Hi, (IH _ Hr). reflexivity.
Qed.

Lemma blocks_after_ok j data :
  forall k,
    forallb block_dumpable data = true ->
    forallb block_dumpable (blocks_after svc book_title j k data) = true.
Proof.
  induction data as [| b rest IH]; intros k H; [reflexivity |].
  simpl in H. apply andb_true_iff in H. destruct H as [Hb Hr]. simpl.
  assert (Hs : block_dumpable
                 (set_content b (items_after svc book_title j k (content b))) =
               true).
  { unfold block_dumpable in *. cbn [content path set_content].
    apply andb_true_iff in Hb. destruct Hb as [Hc Hp].
    rewrite (items_after_ok _ _ _ Hc), Hp. reflexivity. }
  destruct (type b); cbn [forallb]; rewrite ?Hs, ?Hb, IH by exact Hr;
    reflexivity.
Qed.

(** *** The loops against the contract *)

Hypothesis replies_ok : readable svc.

Variable data0 : list block.
Hypothesis data0_ok : forallb block_dumpable data0 = true.

Lemma log_after_request k item :
  nth_error (wanted data0) k = Some item ->
  log_after svc book_title data0 (S k) =
  {| p_requests :=
       p_requests (log_after svc book_title data0 k) ++
       [patch_request book_title item];
     p_writes :=
       p_writes (log_after svc book_title data0 k) ++
       match answer svc book_title k item with
       | Some _ => [state_after svc book_title (S k) data0]
       | None => []
       end;
     modified_count :=
       (modified_count (log_after svc book_title data0 k) +
        match answer svc book_title k item with
        | Some _ => 1
        | None => 0
        end)%nat |}.
Proof.
  intros H. unfold log_after. cbn [p_requests p_writes modified_count].
  assert (Hk : List.length (firstn k (wanted data0)) = k).
  { rewrite length_firstn. apply Nat.min_l.
    apply Nat.lt_le_incl, nth_error_Some. congruence. }
  rewrite (firstn_snoc _ _ _ _ H), map_app, successes_app, Hk. simpl.
  destruct (answer svc book_title k item); simpl;
    rewrite ?map_app, ?length_app, ?app_nil_r; simpl; f_equal; lia.
Qed.

Lemma log_after_length k :
  (k <= List.length (wanted data0))%nat ->
  List.length (p_requests (log_after svc book_title data0 k)) = k.
Proof.
  intros H. unfold log_after. cbn [p_requests].
  rewrite length_map, length_firstn. apply Nat.min_l, H.
Qed.

Section Block.
Variables (B0 A0 : list block) (b0 : block).
Hypothesis split0 : data0 = B0 ++ b0 :: A0.
Hypothesis text0 : type b0 <> image.

Let K0 := List.length (wanted B0).

Lemma wanted_split :
  wanted data0 = wanted B0 ++ filter wanting (content b0) ++ wanted A0.
Proof.
  rewrite split0, wanted_app, wanted_cons.
  destruct (type b0); congruence.
Qed.

Lemma wanted_here D0 item rest :
  content b0 = D0 ++ item :: rest -> wanting item = true ->
  nth_error (wanted data0) (K0 + List.length (filter wanting D0)) = Some item.
Proof.
  intros Hc Hw. rewrite wanted_split, Hc, filter_app. simpl. rewrite Hw.
  rewrite nth_error_app2 by (unfold K0; lia).
  replace (K0 + List.length (filter wanting D0) - List.length (wanted B0))%nat
    with (List.length (filter wanting D0)) by (unfold K0; lia).
  rewrite <- app_assoc, nth_error_app2 by lia.
  rewrite Nat.sub_diag. reflexivity.
Qed.

Lemma snapshot D0 item rest :
  content b0 = D0 ++ item :: rest -> wanting item = true ->
  let k := (K0 + List.length (filter wanting D0))%nat in
  state_after svc book_title (S k) data0 =
  blocks_after svc book_title K0 0 B0 ++
  [set_content b0
     (items_after svc book_title k K0 D0 ++
      patched svc book_title k item :: rest)] ++ A0.
Proof.
  intros Hc Hw k. unfold state_after.
  rewrite split0, blocks_after_app. fold K0. change (0 + K0)%nat with K0.
  rewrite (blocks_after_stable (S k) K0) by (fold K0; lia).
  f_equal. cbn [app].
  assert (Hb : blocks_after svc book_title (S k) K0 (b0 :: A0) =
               set_content b0 (items_after svc book_title (S k) K0 (content b0))
               :: blocks_after svc book_title (S k)
                    (K0 + List.length (filter wanting (content b0))) A0)
    by (simpl; destruct (type b0); congruence).
  rewrite Hb. clear Hb.
  rewrite blocks_after_none
    by (rewrite Hc, filter_app, length_app; simpl; rewrite Hw; simpl; lia).
  f_equal. f_equal.
  rewrite Hc, items_after_app. fold k.
  rewrite (items_after_stable (S k) k) by lia.
  f_equal. simpl. rewrite Hw.
  destruct (Nat.ltb_spec k (S k)); [| lia].
  rewrite items_after_none by lia. reflexivity.
Qed.

Lemma patch_items_contract todo :
  forall D0,
    content b0 = D0 ++ todo -> Forall target_sized todo ->
    let k := (K0 + List.length (filter wanting D0))%nat in
    patch_items svc book_title (blocks_after svc book_title K0 0 B0) b0 A0
      (items_after svc book_title k K0 D0) todo
      (log_after svc book_title data0 k) =
    Ok (items_after svc book_title
          (k + List.length (filter wanting todo)) K0 (content b0),
        log_after svc book_title data0
          (k + List.length (filter wanting todo))).
Proof.
  induction todo as [| item rest IH]; intros D0 Hc Ht k.
  - simpl. rewrite Nat.add_0_r, Hc, app_nil_r. reflexivity.
  - apply Forall_cons_iff in Ht. destruct Ht as [Hi Hrest].
    assert (Hc' : content b0 = (D0 ++ [item]) ++ rest)
      by (rewrite <- app_assoc; exact Hc).
    specialize (IH (D0 ++ [item]) Hc' Hrest). cbv zeta in IH.
    rewrite filter_app, length_app in IH.
    cbn [patch_items]. rewrite (needs_patch_wanting _ Hi). cbn [bind].
    destruct (wanting item) eqn:Hw.
    + pose proof (wanted_here D0 item rest Hc Hw) as Hn. fold k in Hn.
      assert (Hlen : List.length
                       (p_requests (log_after svc book_title data0 k)) = k).
      { apply log_after_length, Nat.lt_le_incl, nth_error_Some. congruence. }
      assert (Hd : items_after svc book_title (S k) K0 (D0 ++ [item]) =
                   items_after svc book_title k K0 D0 ++
                   [patched svc book_title k item]).
      { rewrite items_after_app. fold k.
        rewrite (items_after_stable (S k) k) by (unfold k; lia).
        simpl. rewrite Hw. destruct (Nat.ltb_spec k (S k)); [| lia].
        reflexivity. }
      simpl filter in IH. rewrite ?Hw in IH. simpl List.length in IH.
      replace (K0 + (List.length (filter wanting D0) + 1))%nat with (S k) in IH
        by (unfold k; lia).
      rewrite Hd in IH. simpl filter. rewrite Hw. simpl List.length.
      replace (k + S (List.length (filter wanting rest)))%nat
        with (S k + List.length (filter wanting rest))%nat by lia.
      unfold translate_sentence_batch. rewrite Hlen.
      change (TranslateReq [en item] book_title (py "Patching"))
        with (patch_request book_title item).
      rewrite (patched_target_offer _ (replies_ok _ _)).
      rewrite (log_after_request _ _ Hn) in IH.
      pose proof (snapshot D0 item rest Hc Hw) as Hs. fold k in Hs.
      cbv zeta in Hs.
      unfold patched in IH, Hs. unfold answer in IH, Hs.
      destruct (offer (response_translations
                         (svc k (patch_request book_title item))))
        as [t |] eqn:Eo; cbn [option_map bind].
      * rewrite <- Hs.
        unfold json_dump.
        rewrite (blocks_after_ok (S k) data0 0 data0_ok
                 : forallb block_dumpable
                     (state_after svc book_title (S k) data0) = true).
        cbn [bind].
        rewrite Nat.add_1_r in IH. exact IH.
      * rewrite app_nil_r, Nat.add_0_r in IH. exact IH.
    + simpl filter in IH. rewrite Hw in IH. simpl List.length in IH.
      rewrite Nat.add_0_r in IH. fold k in IH.
      rewrite items_after_app in IH. fold k in IH.
      simpl items_after in IH. rewrite Hw in IH.
      simpl filter. rewrite Hw. exact IH.
Qed.

End Block.

Lemma patch_blocks_contract todo :
  forall B0,
    data0 = B0 ++ todo -> Forall target_sized (text_segments todo) ->
    let K0 := List.length (wanted B0) in
    patch_blocks svc book_title (blocks_after svc book_title K0 0 B0) todo
      (log_after svc book_title data0 K0) =
    Ok (state_after svc book_title (K0 + List.length (wanted todo)) data0,
        log_after svc book_title data0 (K0 + List.length (wanted todo))).
Proof.
  induction todo as [| b after IH]; intros B0 Hd Ht K0.
  - simpl. rewrite Nat.add_0_r. unfold state_after.
    rewrite Hd, app_nil_r. reflexivity.
  - assert (Hd' : data0 = (B0 ++ [b]) ++ after)
      by (rewrite <- app_assoc; exact Hd).
    simpl in Ht. apply Forall_app in Ht. destruct Ht as [Hb Ha].
    specialize (IH (B0 ++ [b]) Hd' Ha). cbv zeta in IH.
    assert (F1 : wanted [b] =
                 match type b with
                 | image => []
                 | _ => filter wanting (content b)
                 end).
    { rewrite wanted_cons. change (wanted []) with (@nil segment).
      destruct (type b); rewrite ?app_nil_r; reflexivity. }
    assert (F3 : wanted (b :: after) = wanted [b] ++ wanted after)
      by apply (wanted_app [b] after).
    rewrite (wanted_app B0 [b]), length_app in IH. fold K0 in IH.
    rewrite F3, length_app, Nat.add_assoc.
    assert (F2 : blocks_after svc book_title
                   (K0 + List.length (wanted [b])) 0 (B0 ++ [b]) =
                 blocks_after svc book_title K0 0 B0 ++
                 blocks_after svc book_title
                   (K0 + List.length (wanted [b])) K0 [b]).
    { rewrite blocks_after_app. fold K0. change (0 + K0)%nat with K0.
      f_equal. apply blocks_after_stable; fold K0; lia. }
    rewrite F2 in IH. clear F2 F3.
    assert (Htxt : type b <> image ->
              patch_blocks svc book_title
                (blocks_after svc book_title K0 0 B0) (b :: after)
                (log_after svc book_title data0 K0) =
              (do r <- patch_items svc book_title
                         (blocks_after svc book_title K0 0 B0) b after []
                         (content b) (log_after svc book_title data0 K0);
               patch_blocks svc book_title
                 (blocks_after svc book_title K0 0 B0 ++
                  [set_content b (fst r)]) after (snd r)))
      by (intros Hty; cbn [patch_blocks]; destruct (type b); congruence).
    destruct (type b) eqn:Ety.
    + rewrite Htxt by discriminate.
      pose proof (patch_items_contract B0 after b Hd
                    ltac:(rewrite Ety; discriminate) (content b) []
                    eq_refl Hb) as Hi.
      cbv zeta in Hi. cbn [filter List.length items_after] in Hi.
      rewrite Nat.add_0_r in Hi. fold K0 in Hi.
      rewrite Hi. cbn [bind fst snd].
      rewrite F1 in *. cbn [blocks_after] in IH. rewrite Ety in IH.
      exact IH.
    + rewrite Htxt by discriminate.
      pose proof (patch_items_contract B0 after b Hd
                    ltac:(rewrite Ety; discriminate) (content b) []
                    eq_refl Hb) as Hi.
      cbv zeta in Hi. cbn [filter List.length items_after] in Hi.
      rewrite Nat.add_0_r in Hi. fold K0 in Hi.
      rewrite Hi. cbn [bind fst snd].
      rewrite F1 in *. cbn [blocks_after] in IH. rewrite Ety in IH.
      exact IH.
    + rewrite F1 in *. cbn [List.length] in *. rewrite Nat.add_0_r in *.
      cbn [blocks_after] in IH. rewrite Ety in IH.
      cbn [patch_blocks]. rewrite Ety. exact IH.
Qed.

End Pass.

Lemma patcher_refines svc data book_title :
  Forall target_sized (text_segments data) ->
  readable svc -> writable svc data ->
  patch_missing_translations svc data book_title =
    Ok (document svc book_title data,
        {| p_requests := requests book_title data;
           p_writes := writes svc book_title data;
           modified_count := List.length (writes svc book_title data) |}).
Proof.
  intros Ht Hr [Hd Ho].
  pose proof (patch_blocks_contract svc book_title Ho Hr data Hd data []
                eq_refl Ht) as H.
  cbv zeta in H. simpl in H.
  unfold patch_missing_translations. unfold log_after in H at 1.
  simpl in H. rewrite H. unfold document, requests, writes, log_after.
  rewrite firstn_all, length_map. reflexivity.
Qed.

End ContractFacts.

(** C5, as the code has it.  On a document whose text targets are
    strings or count as empty, with a service whose replies can be read
    and written, the patcher returns; it has asked for one single-sentence
    translation per segment of a heading or paragraph whose target is
    empty or shorter than three characters, in document order; the
    document it returns has, for each of these segments whose request was
    answered with a translation, that translation with its terminal
    punctuation, and is otherwise the document it was given; it has
    written the whole document once after every such answer, as it was
    right then.  The count of patches is not part of what it returns. *)
Theorem patcher_contract svc data book_title :
  Forall Patcher.target_sized (Patcher.text_segments data) ->
  Contract.readable svc ->
  Contract.writable svc data ->
  Main.patch_missing_translations svc data book_title =
    Ok (Contract.document svc book_title data,
        {| Main.p_requests := Contract.requests book_title data;
           Main.p_writes := Contract.writes svc book_title data;
           Main.modified_count :=
             List.length (Contract.writes svc book_title data) |}).
Proof. apply ContractFacts.patcher_refines. Qed.

Lemma patcher_contract_witness :
  Main.patch_missing_translations Samples.svc_same
    [Samples.picture; Samples.hello_paragraph []] (py "Book") =
    Ok ([Samples.picture; Samples.hello_paragraph (py "Sain uu.")],
        {| Main.p_requests :=
             [Main.TranslateReq [py "Hello world."] (py "Book")
                (py "Patching")];
           Main.p_writes :=
             [[Samples.picture; Samples.hello_paragraph (py "Sain uu.")]];
           Main.modified_count := 1 |}).
Proof.
  refine (patcher_contract Samples.svc_same
            [Samples.picture; Samples.hello_paragraph []] (py "Book") _ _ _).
  - simpl. constructor; [left; reflexivity | constructor].
  - intros n req. right. vm_compute. eexists. eexists.
    split; [reflexivity |]. right. eexists. reflexivity.
  - split; [reflexivity |].
    intros n req t H. vm_compute in H. injection H as <-. reflexivity.
Defined.

(** C5, as stated, fails: two runs return the same document, one after
    one patch and one after none, so the count is no part of the value the
    patcher returns. *)
Lemma patcher_returns_no_count :
  Main.patch_missing_translations Samples.svc_same
    [Samples.hello_paragraph []] (py "Book") =
    Ok ([Samples.hello_paragraph (py "Sain uu.")],
        {| Main.p_requests :=
             [Main.TranslateReq [py "Hello world."] (py "Book")
                (py "Patching")];
           Main.p_writes := [[Samples.hello_paragraph (py "Sain uu.")]];
           Main.modified_count := 1 |}) /\
  Main.patch_missing_translations Samples.svc_same
    [Samples.hello_paragraph (py "Sain uu.")] (py "Book") =
    Ok ([Samples.hello_paragraph (py "Sain uu.")],
        {| Main.p_requests := []; Main.p_writes := [];
           Main.modified_count := 0 |}) /\
  ~ (exists count_of : list Main.block -> nat,
       forall svc data book_title data' log,
         Main.patch_missing_translations svc data book_title =
           Ok (data', log) ->
         count_of data' = Main.modified_count log).
Proof.
  assert (H1 : Main.patch_missing_translations Samples.svc_same
                 [Samples.hello_paragraph []] (py "Book") =
               Ok ([Samples.hello_paragraph (py "Sain uu.")],
                   {| Main.p_requests :=
                        [Main.TranslateReq [py "Hello world."] (py "Book")
                           (py "Patching")];
                      Main.p_writes :=
                        [[Samples.hello_paragraph (py "Sain uu.")]];
                      Main.modified_count := 1 |}))
    by (vm_compute; reflexivity).
  assert (H2 : Main.patch_missing_translations Samples.svc_same
                 [Samples.hello_paragraph (py "Sain uu.")] (py "Book") =
               Ok ([Samples.hello_paragraph (py "Sain uu.")],
                   {| Main.p_requests := []; Main.p_writes := [];
                      Main.modified_count := 0 |}))
    by (vm_compute; reflexivity).
  repeat split; auto.
  intros (count_of & Hc).
  pose proof (Hc _ _ _ _ _ H1) as E1. pose proof (Hc _ _ _ _ _ H2) as E2.
  simpl in E1, E2. congruence.
Qed.

(** ** Refiner *)

Module RefinerFacts.
Import Main Assemble Doc DocFacts Refiner.

Lemma overlay_nil old : overlay [] old = old.
Proof. destruct old; reflexivity. Qed.

Lemma overlay_items_nil items : overlay_items [] items = items.
Proof. destruct items; reflexivity. Qed.

Lemma overlay_app entries a b :
  overlay entries (a ++ b) =
  overlay entries a ++ overlay (skipn (List.length a) entries) b.
Proof.
  revert entries. induction a as [| o a IH]; intros entries; simpl.
  - reflexivity.
  - destruct entries as [| v entries']; simpl.
    + rewrite overlay_nil. reflexivity.
    + rewrite IH. reflexivity.
Qed.

Lemma overlay_items_targets entries items :
  map mn (overlay_items entries items) = overlay entries (map mn items).
Proof.
  revert entries. induction items as [| item rest IH]; intros [| v entries'];
    simpl; try reflexivity.
  rewrite IH. reflexivity.
Qed.

Lemma overlay_items_sources entries items :
  map en (overlay_items entries items) = map en items.
Proof.
  revert entries. induction items as [| item rest IH]; intros [| v entries'];
    simpl; try reflexivity.
  rewrite IH. reflexivity.
Qed.

Lemma overlay_blocks_targets blocks :
  forall entries,
    chunk_targets (overlay_blocks entries blocks) =
    overlay entries (chunk_targets blocks).
Proof.
  unfold chunk_targets.
  induction blocks as [| b rest IH]; intros entries; simpl; [reflexivity |].
  rewrite overlay_app, IH, overlay_items_targets, length_map. reflexivity.
Qed.

Lemma overlay_blocks_skeleton blocks :
  forall entries, skeleton (overlay_blocks entries blocks) = skeleton blocks.
Proof.
  induction blocks as [| b rest IH]; intros entries; simpl; [reflexivity |].
  rewrite IH, overlay_items_sources. reflexivity.
Qed.

(** *** The mapping back over a list that can be indexed *)

Lemma entries_len rl L : entries_of rl = Some L -> py_len rl = Ok (List.length L).
Proof.
  destruct rl; simpl; try discriminate; intros H; inversion H; subst;
    [rewrite length_map |]; reflexivity.
Qed.

Lemma entries_index rl L i v :
  entries_of rl = Some L -> nth_error L i = Some v -> py_index rl i = Ok v.
Proof.
  destruct rl; simpl; try discriminate; intros H; inversion H; subst; clear H.
  - rewrite nth_error_map. destruct (nth_error s i); simpl; [| discriminate].
    intros E. inversion E. reflexivity.
  - intros ->. reflexivity.
Qed.

Lemma skipn_nth (A : Type) (l : list A) i v :
  nth_error l i = Some v -> skipn i l = v :: skipn (S i) l.
Proof.
  revert i. induction l as [| a l IH]; intros [| i]; simpl; try discriminate.
  - intros H. inversion H. reflexivity.
  - intros H. rewrite (IH i H). reflexivity.
Qed.

Lemma refine_items_entries rl L :
  entries_of rl = Some L ->
  forall items idx, exists idx',
    refine_items rl idx items =
      (overlay_items (skipn idx L) items, idx', None) /\
    skipn idx' L = skipn (List.length items) (skipn idx L).
Proof.
  intros HL. induction items as [| item rest IH]; intros idx.
  - exists idx. simpl. auto.
  - simpl refine_items. rewrite (entries_len _ _ HL).
    destruct (idx <? List.length L)%nat eqn:Ei.
    + apply Nat.ltb_lt in Ei.
      destruct (nth_error L idx) as [v |] eqn:En;
        [| apply nth_error_None in En; lia].
      rewrite (entries_index _ _ _ _ HL En), (skipn_nth _ _ _ _ En).
      destruct (IH (S idx)) as (idx' & E1 & E2). rewrite E1.
      exists idx'. simpl. auto.
    + apply Nat.ltb_ge in Ei.
      rewrite (skipn_all2 L Ei).
      destruct (IH idx) as (idx' & E1 & E2).
      rewrite (skipn_all2 L Ei) in E1, E2.
      rewrite overlay_items_nil in E1. rewrite skipn_nil in E2.
      rewrite E1. exists idx'. simpl. auto.
Qed.

Lemma refine_blocks_entries rl L :
  entries_of rl = Some L ->
  forall blocks idx, exists idx',
    refine_blocks rl idx blocks =
      (overlay_blocks (skipn idx L) blocks, idx', None).
Proof.
  intros HL. induction blocks as [| b rest IH]; intros idx.
  - exists idx. reflexivity.
  - simpl.
    destruct (refine_items_entries rl L HL (content b) idx)
      as (idx1 & E1 & E2).
    rewrite E1. destruct (IH idx1) as (idx2 & E3). rewrite E3, E2.
    exists idx2. reflexivity.
Qed.

(** *** The mapping back over anything else *)

Lemma refine_items_fail rl :
  entries_of rl = None ->
  forall items idx, exists err, refine_items rl idx items = (items, idx, err).
Proof.
  intros HL. induction items as [| item rest IH]; intros idx.
  - exists None. reflexivity.
  - destruct rl; simpl in HL; try discriminate;
      try (eexists; reflexivity).
    simpl. destruct (idx <? List.length d)%nat; [eexists; reflexivity |].
    destruct (IH idx) as (err & E). simpl in E. rewrite E.
    exists err. reflexivity.
Qed.

Lemma refine_blocks_fail rl :
  entries_of rl = None ->
  forall blocks idx, exists err,
    refine_blocks rl idx blocks = (blocks, idx, err).
Proof.
  intros HL. induction blocks as [| b rest IH]; intros idx.
  - exists None. reflexivity.
  - simpl. destruct (refine_items_fail rl HL (content b) idx) as (err & E).
    rewrite E, set_content_same. destruct err as [e |].
    + eexists. reflexivity.
    + destruct (IH idx) as (err & E'). rewrite E'. exists err. reflexivity.
Qed.

Lemma refine_chunk_outcome svc log chunk book_title :
  chunk_outcome svc log chunk book_title.
Proof.
  unfold chunk_outcome, refine_chunk.
  destruct chunk as [| b rest]; [simpl; auto |].
  remember (b :: rest) as chunk eqn:Ec.
  destruct (forallb format_blank (chunk_targets chunk)); [simpl; auto |].
  destruct (refined_list_of
              (svc (List.length log) (RefineReq (chunk_targets chunk) book_title)))
    as [rl | e]; [| simpl; auto].
  simpl fst. simpl snd.
  destruct (entries_of rl) as [L |] eqn:EL.
  - destruct (refine_blocks_entries rl L EL chunk 0) as (idx' & E).
    rewrite E. simpl.
    split; [apply overlay_blocks_skeleton |].
    split; [reflexivity | apply overlay_blocks_targets].
  - destruct (refine_blocks_fail rl EL chunk 0) as (err & E).
    rewrite E. simpl. auto.
Qed.

(** *** Chunks and the way back into the document *)

Lemma chunks_go_slices (A : Type) (size : nat) (l : list A) :
  forall room, (1 <= room)%nat ->
  chunks_go size room l =
  match l with
  | [] => []
  | _ :: _ => firstn room l :: chunks_go size size (skipn room l)
  end.
Proof.
  induction l as [| a l IH]; intros room Hr; [reflexivity |].
  destruct room as [| [| r]]; [lia | reflexivity |].
  simpl chunks_go. rewrite (IH (S r)) by lia.
  destruct l as [| b l]; reflexivity.
Qed.

Lemma chunks_slices (A : Type) (l : list A) :
  chunks chunk_size l =
  match l with
  | [] => []
  | _ :: _ => firstn chunk_size l :: chunks chunk_size (skipn chunk_size l)
  end.
Proof. unfold chunks. apply chunks_go_slices. unfold chunk_size. lia. Qed.

Lemma chunks_go_concat (A : Type) (size : nat) (l : list A) :
  forall room, List.concat (chunks_go size room l) = l.
Proof.
  induction l as [| a l IH]; intros room; [reflexivity |].
  destruct room as [| [| r]]; simpl; try (rewrite IH; reflexivity).
  specialize (IH (S r)).
  destruct (chunks_go size (S r) l) as [| g gs]; simpl in *; congruence.
Qed.

Lemma refine_chunks_skeleton svc book_title cs :
  forall log,
    skeleton (List.concat (fst (refine_chunks svc log cs book_title))) =
    skeleton (List.concat cs).
Proof.
  induction cs as [| chunk rest IH]; intros log; [reflexivity |].
  simpl. pose proof (refine_chunk_outcome svc log chunk book_title) as [Hs _].
  destruct (refine_chunk svc log chunk book_title) as [chunk' log'].
  specialize (IH log').
  destruct (refine_chunks svc log' rest book_title) as [rest' log''].
  simpl in *. rewrite !skeleton_app, Hs, IH. reflexivity.
Qed.

Lemma translatable_entry b :
  translatable b =
  entry_translatable (page b, type b, path b, map en (content b)).
Proof.
  unfold translatable. simpl.
  destruct (type b); destruct (content b); reflexivity.
Qed.

Lemma merge_back_spec blocks :
  forall refined,
    skeleton refined = skeleton (filter translatable blocks) ->
    skeleton (merge_back blocks refined) = skeleton blocks /\
    filter translatable (merge_back blocks refined) = refined /\
    filter (fun b => negb (translatable b)) (merge_back blocks refined) =
    filter (fun b => negb (translatable b)) blocks.
Proof.
  induction blocks as [| b rest IH]; intros refined H.
  - simpl in *. destruct refined; [auto | discriminate].
  - simpl in *. destruct (translatable b) eqn:Eb.
    + destruct refined as [| r rs]; [discriminate |].
      simpl in H. inversion H as [[H1 H2 H3 H4 H5]].
      destruct (IH rs H5) as (I1 & I2 & I3).
      assert (Er : translatable r = true).
      { rewrite translatable_entry, H1, H2, H3, H4, <- translatable_entry.
        exact Eb. }
      simpl. rewrite Er, H1, H2, H3, H4, I1, I2, I3. auto.
    + destruct (IH refined H) as (I1 & I2 & I3).
      simpl. rewrite Eb, I1, I2, I3. auto.
Qed.

End RefinerFacts.

(** *** The refiner and its contract *)

Module NarrativeFacts.
Import Main Assemble Doc DocFacts Refiner RefinerFacts Narrative.











Lemma refine_narrative_unfold svc log blocks book_title :
  refine_narrative_chunked svc log blocks book_title =
  match filter translatable blocks with
  | [] => (blocks, log)
  | _ :: _ =>
      (merge_back blocks
         (List.concat
            (fst (refine_chunks svc log
                    (chunks chunk_size (filter translatable blocks))
                    book_title))),
       snd (refine_chunks svc log
              (chunks chunk_size (filter translatable blocks)) book_title))
  end.
Proof.
  unfold refine_narrative_chunked.
  destruct blocks as [| b0 rest0]; [reflexivity |].
  remember (b0 :: rest0) as blocks eqn:Eb.
  destruct (filter translatable blocks) as [| t0 trest]; [reflexivity |].
  destruct (refine_chunks svc log (chunks chunk_size (t0 :: trest)) book_title).
  reflexivity.
Qed.




End NarrativeFacts.


(** * Further properties of the code *)

(** ** Segmenter *)

Module SegmenterMore.
Import Re Main Segmenter SegmenterFacts.

Lemma good_list_all L :
  good_list L -> Forall (fun s => final_good s /\ long s) L.
Proof.
  induction L as [| s L IH]; intros H; constructor.
  - apply (good_list_head s L H).
  - apply IH. destruct L; [exact I | apply H].
Qed.

Lemma good_list_closed L :
  good_list L -> Forall loop_good (removelast L).
Proof.
  induction L as [| s L IH]; intros H; [constructor |].
  destruct L as [| s' L]; [constructor |].
  change (removelast (s :: s' :: L)) with (s :: removelast (s' :: L)).
  destruct H as (H1 & _ & H2). constructor; auto.
Qed.

End SegmenterMore.

(** X1: every sentence the segmenter returns has more than two
    characters, has no whitespace at either end, and has no terminal mark
    followed by whitespace inside. *)
Theorem split_sentences_trimmed (text : str) :
  Forall (fun s => (2 < List.length s)%nat /\ strip s = s /\
                   Segmenter.nosplit s = true)
    (Main.split_sentences text).
Proof.
  pose proof (SegmenterMore.good_list_all _
                (SegmenterFacts.split_sentences_good text)) as H.
  eapply Forall_impl; [| exact H].
  intros s [(Hn & Hl & Hr) Hlong]. repeat split; auto.
  apply SegmenterFacts.strip_id; assumption.
Qed.

(** X2: every sentence but the last ends with a terminal mark, and the
    word before that mark is not one of the abbreviations. *)
Theorem split_sentences_closed (text : str) :
  Forall (fun s => exists b p,
            s = b ++ [p] /\ Re.is_terminal p = true /\
            Main.is_abbreviation (last (split b) []) = false)
    (removelast (Main.split_sentences text)).
Proof.
  pose proof (SegmenterMore.good_list_closed _
                (SegmenterFacts.split_sentences_good text)) as H.
  eapply Forall_impl; [| exact H].
  intros s (b & p & E & Hp & _ & _ & Hab). exists b, p. auto.
Qed.

(** X3: a text in which no terminal mark is followed by whitespace is one
    sentence, the trimmed text, or none when that has at most two
    characters. *)
Theorem split_sentences_single (text : str) :
  Segmenter.nosplit text = true ->
  Main.split_sentences text =
  filter (fun s => (2 <? List.length s)%nat) [strip text].
Proof.
  intros H. destruct text as [| c t]; [reflexivity |].
  unfold Main.split_sentences, Re.split_terminal.
  rewrite (SegmenterFacts.split_terminal_nosplit _ H). reflexivity.
Qed.

Lemma split_sentences_single_witness :
  Segmenter.nosplit (py "  Hello world ") = true /\
  Main.split_sentences (py "  Hello world ") = [py "Hello world"].
Proof.
  split; [reflexivity |].
  rewrite split_sentences_single by reflexivity. reflexivity.
Defined.

(** ** heal_text *)

Module HealFacts.
Import Re Main Words SegmenterFacts.

Lemma split_words t : Forall word (split t).
Proof.
  induction t as [| c t IH]; simpl; [constructor |].
  destruct (isspace c) eqn:Ec; [exact IH |].
  assert (Hc : word [c]).
  { split; [discriminate | simpl; rewrite Ec; reflexivity]. }
  destruct (head_is_space t); [constructor; assumption |].
  destruct (split t) as [| w ws]; [constructor; [exact Hc | constructor] |].
  inversion IH as [| ? ? [Hw1 Hw2] Hws]; subst.
  constructor; [| exact Hws].
  split; [discriminate | simpl; rewrite Ec, Hw2; reflexivity].
Qed.

Lemma join_cons_head sep c w ws :
  join sep ((c :: w) :: ws) = c :: join sep (w :: ws).
Proof. destruct ws; reflexivity. Qed.

Lemma sub_spaces_space t :
  head_is_space t = true -> sub_spaces_go false t = 32 :: sub_spaces_go true t.
Proof. destruct t as [| d t]; simpl; [discriminate | intros ->; reflexivity]. Qed.

Lemma sub_spaces_nospace t :
  head_is_space t = false -> sub_spaces_go false t = sub_spaces_go true t.
Proof. destruct t as [| d t]; simpl; [reflexivity | intros ->; reflexivity]. Qed.

Lemma sub_spaces_words t :
  exists b, blank_or_none b /\ (split t = [] -> b = []) /\
    sub_spaces_go true t = join [32] (split t) ++ b.
Proof.
  induction t as [| c t (b & Hb & Hnil & IH)].
  - exists []. repeat split; auto. left. reflexivity.
  - simpl. destruct (isspace c) eqn:Ec; [exists b; auto |].
    destruct (head_is_space t) eqn:Eh.
    + rewrite (sub_spaces_space t Eh), IH.
      destruct (split t) as [| w ws] eqn:Es.
      * rewrite (Hnil eq_refl). exists [32]. repeat split;
          [right; reflexivity | discriminate].
      * exists b. repeat split; [exact Hb | discriminate].
    + rewrite (sub_spaces_nospace t Eh), IH.
      destruct (split t) as [| w ws] eqn:Es.
      * rewrite (Hnil eq_refl). exists []. repeat split;
          [left; reflexivity].
      * exists b. rewrite join_cons_head.
        repeat split; [exact Hb | discriminate].
Qed.

Lemma nospace_head (l : str) :
  forallb (fun c => negb (isspace c)) l = true -> head_is_space l = false.
Proof.
  destruct l as [| c l]; simpl; [reflexivity |].
  intros H. apply andb_true_iff in H. destruct H as [H _].
  apply negb_true_iff in H. exact H.
Qed.

Lemma word_rev_head w : word w -> head_is_space (rev w) = false.
Proof.
  intros [_ H]. apply nospace_head. apply forallb_forall.
  intros x Hx. apply in_rev in Hx.
  exact (proj1 (forallb_forall _ _) H x Hx).
Qed.

Lemma join_words_nonempty w ws : word w -> join [32] (w :: ws) <> [].
Proof.
  intros [Hne _]. destruct ws; simpl; [exact Hne |].
  destruct w; [congruence | discriminate].
Qed.

Lemma join_words_head ws :
  Forall word ws -> head_is_space (join [32] ws) = false.
Proof.
  intros H. destruct H as [| w ws [Hne Hw] _]; [reflexivity |].
  destruct ws; simpl; [apply nospace_head, Hw |].
  rewrite head_is_space_app_l by exact Hne. apply nospace_head, Hw.
Qed.

Lemma join_words_rev_head ws :
  Forall word ws -> head_is_space (rev (join [32] ws)) = false.
Proof.
  induction 1 as [| w ws Hw Hws IH]; [reflexivity |].
  destruct ws as [| w' ws]; [apply word_rev_head, Hw |].
  change (join [32] (w :: w' :: ws)) with (w ++ [32] ++ join [32] (w' :: ws)).
  rewrite !rev_app_distr.
  rewrite <- app_assoc, head_is_space_app_l; [exact IH |].
  inversion Hws; subst.
  intros E. apply (join_words_nonempty w' ws); [assumption |].
  apply (f_equal (@rev char)) in E. rewrite rev_involutive in E. exact E.
Qed.

Lemma rstrip_space y c : isspace c = true -> rstrip (y ++ [c]) = rstrip y.
Proof.
  intros H. unfold rstrip. rewrite rev_app_distr. simpl. rewrite H.
  reflexivity.
Qed.

Lemma strip_padded a x b :
  blank_or_none a -> blank_or_none b ->
  head_is_space x = false -> head_is_space (rev x) = false ->
  strip (a ++ x ++ b) = x.
Proof.
  intros Ha Hb Hx Hr. unfold strip.
  assert (E1 : rstrip (a ++ x ++ b) = rstrip (a ++ x)).
  { destruct Hb as [-> | ->]; [rewrite app_nil_r; reflexivity |].
    rewrite app_assoc. apply rstrip_space. reflexivity. }
  rewrite E1. destruct x as [| c x].
  - rewrite app_nil_r. destruct Ha as [-> | ->]; reflexivity.
  - assert (E2 : rstrip (a ++ c :: x) = a ++ c :: x).
    { unfold rstrip. rewrite rev_app_distr.
      rewrite lstrip_id, <- rev_app_distr, rev_involutive; [reflexivity |].
      rewrite head_is_space_app_l; [exact Hr |].
      simpl. destruct (rev x); discriminate. }
    rewrite E2. destruct Ha as [-> | ->]; simpl.
    + simpl in Hx. rewrite Hx. reflexivity.
    + simpl in Hx. rewrite Hx. reflexivity.
Qed.

Lemma split_cons_nospace c t :
  isspace c = false ->
  split (c :: t) =
  if head_is_space t then [c] :: split t
  else match split t with
       | w :: ws => (c :: w) :: ws
       | [] => [[c]]
       end.
Proof. intros H. simpl. rewrite H. reflexivity. Qed.

Lemma word_cons c w :
  word (c :: w) ->
  isspace c = false /\ (w = [] \/ (word w /\ head_is_space w = false)).
Proof.
  intros [_ H]. simpl in H. apply andb_true_iff in H. destruct H as [Hc Hw].
  apply negb_true_iff in Hc. split; [exact Hc |].
  destruct w as [| d w]; [left; reflexivity | right].
  split; [split; [discriminate | exact Hw] | apply nospace_head, Hw].
Qed.

Lemma split_word_app w rest :
  word w -> split (w ++ 32 :: rest) = w :: split rest.
Proof.
  induction w as [| c w IH]; intros H; [destruct H; congruence |].
  destruct (word_cons c w H) as [Hc [-> | [Hw Hh]]];
    rewrite <- app_comm_cons, (split_cons_nospace _ _ Hc).
  - reflexivity.
  - rewrite (IH Hw).
    replace (head_is_space (w ++ 32 :: rest)) with false; [reflexivity |].
    destruct w; [destruct Hw; congruence | symmetry; exact Hh].
Qed.

Lemma split_word w : word w -> split w = [w].
Proof.
  induction w as [| c w IH]; intros H; [destruct H; congruence |].
  destruct (word_cons c w H) as [Hc [-> | [Hw Hh]]];
    rewrite (split_cons_nospace _ _ Hc).
  - reflexivity.
  - rewrite (IH Hw), Hh. reflexivity.
Qed.

Lemma split_join_words ws : Forall word ws -> split (join [32] ws) = ws.
Proof.
  induction 1 as [| w ws Hw Hws IH]; [reflexivity |].
  destruct ws as [| w' ws]; [apply split_word, Hw |].
  change (join [32] (w :: w' :: ws)) with (w ++ 32 :: join [32] (w' :: ws)).
  rewrite split_word_app by exact Hw. rewrite IH. reflexivity.
Qed.

Lemma heal_text_words text : heal_text text = join [32] (split text).
Proof.
  unfold heal_text, sub_spaces.
  destruct (sub_spaces_words text) as (b & Hb & _ & E).
  pose proof (split_words text) as Hw.
  destruct (head_is_space text) eqn:Eh.
  - rewrite (sub_spaces_space _ Eh), E.
    change (32 :: join [32] (split text) ++ b)
      with ([32] ++ join [32] (split text) ++ b).
    apply strip_padded; auto.
    + right. reflexivity.
    + apply join_words_head, Hw.
    + apply join_words_rev_head, Hw.
  - rewrite (sub_spaces_nospace _ Eh), E.
    change (join [32] (split text) ++ b)
      with ([] ++ join [32] (split text) ++ b).
    apply strip_padded; auto.
    + left. reflexivity.
    + apply join_words_head, Hw.
    + apply join_words_rev_head, Hw.
Qed.

End HealFacts.

(** X4: [heal_text] returns the words of the text joined by single
    blanks, that is, [" ".join(text.split())]. *)
Theorem heal_text_joins_words (text : str) :
  Main.heal_text text = join (py " ") (split text).
Proof. change (py " ") with [32]. apply HealFacts.heal_text_words. Qed.

(** X5: [heal_text] changes nothing in a text it has already cleaned, and
    cleaning keeps the words of the text. *)
Theorem heal_text_idempotent (text : str) :
  Main.heal_text (Main.heal_text text) = Main.heal_text text /\
  split (Main.heal_text text) = split text.
Proof.
  assert (H : split (Main.heal_text text) = split text).
  { rewrite HealFacts.heal_text_words.
    apply HealFacts.split_join_words, HealFacts.split_words. }
  split; [| exact H].
  rewrite (HealFacts.heal_text_words (Main.heal_text text)), H.
  symmetry. apply HealFacts.heal_text_words.
Qed.

(** ** extract_json *)

Module ShapeFacts.
Import Re Main Shape.

Lemma upto_last_none c t : upto_last c t = None -> ~ In c t.
Proof.
  induction t as [| d t IH]; simpl; [tauto |].
  destruct (upto_last c t); [discriminate |].
  destruct (d =? c) eqn:E; [discriminate |].
  apply N.eqb_neq in E. intros _ [H | H]; [congruence | exact (IH eq_refl H)].
Qed.

Lemma upto_last_some c t p :
  upto_last c t = Some p ->
  exists body post, p = body ++ [c] /\ t = p ++ post /\ ~ In c post.
Proof.
  revert p. induction t as [| d t IH]; simpl; intros p H; [discriminate |].
  destruct (upto_last c t) as [p' |] eqn:E.
  - inversion H; subst; clear H.
    destruct (IH p' eq_refl) as (body & post & -> & Et & Hn).
    exists (d :: body), post. repeat split; auto.
    simpl. f_equal. exact Et.
  - destruct (d =? c) eqn:Ed; [| discriminate].
    apply N.eqb_eq in Ed. inversion H; subst; clear H.
    exists [], t. repeat split; auto. apply upto_last_none, E.
Qed.

Lemma search_span_some t span :
  search_span t = Some span ->
  exists pre body post,
    t = pre ++ span ++ post /\
    ((span = 123 :: body ++ [125] /\ ~ In 125 post) \/
     (span = 91 :: body ++ [93] /\ ~ In 93 post)).
Proof.
  induction t as [| c t IH]; simpl; intros H; [discriminate |].
  assert (Hrec : search_span t = Some span ->
            exists pre body post,
              c :: t = pre ++ span ++ post /\
              ((span = 123 :: body ++ [125] /\ ~ In 125 post) \/
               (span = 91 :: body ++ [93] /\ ~ In 93 post))).
  { intros H'. destruct (IH H') as (pre & body & post & E & Hs).
    exists (c :: pre), body, post. split; [simpl; f_equal; exact E | exact Hs]. }
  destruct (c =? 123) eqn:E1.
  - apply N.eqb_eq in E1. subst c.
    destruct (upto_last 125 t) as [p |] eqn:Eu; [| auto].
    inversion H; subst; clear H.
    destruct (upto_last_some _ _ _ Eu) as (body & post & -> & Et & Hn).
    exists [], body, post. split; [simpl; f_equal; exact Et | left; auto].
  - destruct (c =? 91) eqn:E2; [| auto].
    apply N.eqb_eq in E2. subst c.
    destruct (upto_last 93 t) as [p |] eqn:Eu; [| auto].
    inversion H; subst; clear H.
    destruct (upto_last_some _ _ _ Eu) as (body & post & -> & Et & Hn).
    exists [], body, post. split; [simpl; f_equal; exact Et | right; auto].
Qed.

Lemma search_span_none t :
  ~ In 123 t -> ~ In 91 t -> search_span t = None.
Proof.
  induction t as [| c t IH]; simpl; intros H1 H2; [reflexivity |].
  destruct (c =? 123) eqn:E1; [apply N.eqb_eq in E1; tauto |].
  destruct (c =? 91) eqn:E2; [apply N.eqb_eq in E2; tauto |].
  apply IH; tauto.
Qed.

(** *** The repair deletes commas and whitespace only *)

Lemma closes_cons close c t :
  isspace close = false -> closes close (c :: t) = true ->
  c = close \/ (isspace c = true /\ closes close t = true).
Proof.
  unfold closes. simpl. intros Hc. destruct (isspace c) eqn:Ec.
  - intros H. right. auto.
  - intros H. left. apply N.eqb_eq in H. exact H.
Qed.

Lemma sub_trailing_go_solid close t :
  solid close = true ->
  filter solid (sub_trailing_go close false t) = filter solid t /\
  (closes close t = true ->
   close :: filter solid (sub_trailing_go close true t) = filter solid t).
Proof.
  intros Hs.
  assert (Hsp : isspace close = false).
  { unfold solid in Hs. apply andb_true_iff in Hs. destruct Hs as [_ H].
    apply negb_true_iff in H. exact H. }
  induction t as [| c t [IHa IHb]]; simpl.
  - split; [reflexivity | discriminate].
  - split.
    + destruct ((c =? 44) && closes close t) eqn:E.
      * apply andb_true_iff in E. destruct E as [Ec Ecl].
        simpl. rewrite Hs, (IHb Ecl).
        unfold solid at 2. rewrite Ec. reflexivity.
      * simpl. rewrite IHa. reflexivity.
    + intros Hcl. destruct (closes_cons _ _ _ Hsp Hcl) as [-> | [Hc Hcl']].
      * rewrite N.eqb_refl, Hs, IHa. reflexivity.
      * destruct (c =? close) eqn:Ecc.
        -- apply N.eqb_eq in Ecc. subst c. congruence.
        -- rewrite (IHb Hcl'). unfold solid at 2. rewrite Hc.
           rewrite andb_false_r. reflexivity.
Qed.

Lemma sub_trailing_head close c t :
  (c =? 44) = false ->
  sub_trailing_comma close (c :: t) =
  c :: sub_trailing_go close false t.
Proof. unfold sub_trailing_comma. simpl. intros ->. reflexivity. Qed.

(** *** The outermost container decides what the parser returns *)

Lemma bottom_kind_cons f st k :
  bottom_kind st = Some k -> bottom_kind (f :: st) = Some k.
Proof. destruct st; [discriminate | auto]. Qed.

Lemma bottom_kind_top f g st k :
  bottom_kind (f :: st) = Some k -> frame_kind g = frame_kind f ->
  bottom_kind (g :: st) = Some k.
Proof. destruct st; simpl; [intros H E; rewrite E; exact H | auto]. Qed.

Lemma push_value_keeps k v stack :
  bottom_kind stack = Some k -> step_keeps k (Json.push_value v stack).
Proof.
  destruct stack as [| [acc | acc [key |]] st]; simpl; try discriminate; auto.
Qed.

Lemma close_keeps k f v st :
  bottom_kind (f :: st) = Some k -> value_kind v = Some (frame_kind f) ->
  step_keeps k (Json.push_value v st).
Proof.
  intros H Hv. destruct st as [| g st].
  - simpl in *. right. split; [reflexivity |]. exists v. split; congruence.
  - apply push_value_keeps. exact H.
Qed.

Lemma open_value_keeps k tok stack :
  bottom_kind stack = Some k -> step_keeps k (Json.open_value tok stack).
Proof.
  intros H. destruct tok; try exact I.
  - hnf. left. apply bottom_kind_cons, H.
  - hnf. left. apply bottom_kind_cons, H.
  - apply push_value_keeps, H.
Qed.

Lemma set_key_keeps k tok stack :
  bottom_kind stack = Some k -> step_keeps k (Json.set_key tok stack).
Proof.
  intros H. destruct tok as [| | | | | | [| | | | | | key | |]]; try exact I.
  destruct stack as [| [acc | acc [key' |]] st]; try exact I.
  hnf. left. exact (bottom_kind_top _ (Json.FDict acc (Some key)) _ _ H eq_refl).
Qed.

Lemma parse_step_keeps k stack m tok :
  bottom_kind stack = Some k -> step_keeps k (Json.parse_step stack m tok).
Proof.
  intros H. destruct m; simpl.
  - apply open_value_keeps, H.
  - destruct tok; try (apply (open_value_keeps k _ stack H)).
    destruct stack as [| [[| a acc] | acc key] st];
      try (apply (open_value_keeps k Json.TRBrack _ H)).
    apply (close_keeps k (Json.FList []) (PList []) st H). reflexivity.
  - destruct tok; try (apply (set_key_keeps k _ stack H)).
    destruct stack as [| [acc | [| a acc] [key |]] st];
      try (apply (set_key_keeps k Json.TRBrace _ H)).
    apply (close_keeps k (Json.FDict [] None) (PDict []) st H). reflexivity.
  - apply set_key_keeps, H.
  - destruct tok; simpl; auto.
  - destruct tok; simpl; auto;
      destruct stack as [| [acc | acc [key |]] st]; simpl; auto.
    + apply (close_keeps k (Json.FDict acc None) (PDict acc) st H). reflexivity.
    + apply (close_keeps k (Json.FList acc) (PList (rev acc)) st H). reflexivity.
  - exact I.
Qed.

Lemma parse_kind k toks :
  forall stack m v,
    bottom_kind stack = Some k ->
    Json.parse stack m toks = Some v -> value_kind v = Some k.
Proof.
  induction toks as [| tok toks IH]; intros stack m v H Hp; simpl in Hp.
  - destruct stack; [discriminate | discriminate].
  - pose proof (parse_step_keeps k stack m tok H) as Hk.
    destruct (Json.parse_step stack m tok) as [[stack' m'] |]; [| discriminate].
    destruct Hk as [Hk | (-> & w & -> & Hw)].
    + exact (IH _ _ _ Hk Hp).
    + destruct toks as [| tok' toks']; simpl in Hp.
      * inversion Hp; subst. exact Hw.
      * discriminate.
Qed.

Lemma loads_container c t v :
  c = 123 \/ c = 91 -> Json.loads (c :: t) = Some v ->
  none_or_container v.
Proof.
  unfold Json.loads. intros [-> | ->] H.
  - change (Json.lex Json.LIdle (123 :: t))
      with (option_map (app [Json.TLBrace]) (Json.lex Json.LIdle t)) in H.
    destruct (Json.lex Json.LIdle t) as [toks |]; [| discriminate].
    change (Json.parse [Json.FDict [] None] Json.MKeyFirst toks = Some v) in H.
    apply (parse_kind true) in H; [| reflexivity].
    destruct v; simpl in *; try discriminate; exact I.
  - change (Json.lex Json.LIdle (91 :: t))
      with (option_map (app [Json.TLBrack]) (Json.lex Json.LIdle t)) in H.
    destruct (Json.lex Json.LIdle t) as [toks |]; [| discriminate].
    change (Json.parse [Json.FList []] Json.MFirst toks = Some v) in H.
    apply (parse_kind false) in H; [| reflexivity].
    destruct v; simpl in *; try discriminate; exact I.
Qed.

End ShapeFacts.

(** X6: the span that [extract_json] parses is a piece of the text that
    opens with a brace and ends with the last closing brace of the text,
    or the same with square brackets. *)
Theorem search_span_shape (t span : str) :
  Re.search_span t = Some span ->
  exists pre body post,
    t = pre ++ span ++ post /\
    ((span = 123 :: body ++ [125] /\ ~ In 125 post) \/
     (span = 91 :: body ++ [93] /\ ~ In 93 post)).
Proof. apply ShapeFacts.search_span_some. Qed.

Lemma search_span_shape_witness :
  Re.search_span (Samples.pyq "ok {'a': [1]} done") =
    Some (Samples.pyq "{'a': [1]}") /\
  exists pre body post,
    Samples.pyq "ok {'a': [1]} done" =
      pre ++ Samples.pyq "{'a': [1]}" ++ post /\
    ((Samples.pyq "{'a': [1]}" = 123 :: body ++ [125] /\ ~ In 125 post) \/
     (Samples.pyq "{'a': [1]}" = 91 :: body ++ [93] /\ ~ In 93 post)).
Proof.
  split; [reflexivity |].
  apply (search_span_shape (Samples.pyq "ok {'a': [1]} done")). reflexivity.
Defined.

(** X7: a reply without an opening brace and without an opening square
    bracket gives [None] in both routines. *)
Theorem extract_json_plain_text (s : str) :
  ~ In 123 s -> ~ In 91 s ->
  Main.extract_json (PStr s) = PNone /\ Assemble.extract_json (PStr s) = PNone.
Proof.
  intros H1 H2. unfold Main.extract_json, Assemble.extract_json. simpl.
  rewrite ShapeFacts.search_span_none; [auto | |];
    intros H; apply filter_In in H; tauto.
Qed.

Lemma extract_json_plain_text_witness :
  ~ In 123 (py "Sorry, I cannot translate this.") /\
  ~ In 91 (py "Sorry, I cannot translate this.") /\
  Main.extract_json (PStr (py "Sorry, I cannot translate this.")) = PNone /\
  Assemble.extract_json (PStr (py "Sorry, I cannot translate this.")) = PNone.
Proof.
  assert (H1 : ~ In 123 (py "Sorry, I cannot translate this.")).
  { vm_compute. intros H.
    repeat (destruct H as [H | H]; [discriminate |]). exact H. }
  assert (H2 : ~ In 91 (py "Sorry, I cannot translate this.")).
  { vm_compute. intros H.
    repeat (destruct H as [H | H]; [discriminate |]). exact H. }
  split; [exact H1 |]. split; [exact H2 |].
  exact (extract_json_plain_text _ H1 H2).
Defined.

(** X8: the repair of trailing commas in main.py deletes commas and
    whitespace and nothing else: every other character of the span stays,
    in order. *)
Theorem sub_trailing_comma_deletes_only (t : str) :
  filter Shape.solid (Re.sub_trailing_comma 93 (Re.sub_trailing_comma 125 t)) =
  filter Shape.solid t.
Proof.
  unfold Re.sub_trailing_comma.
  rewrite (proj1 (ShapeFacts.sub_trailing_go_solid 93 _ eq_refl)).
  apply (proj1 (ShapeFacts.sub_trailing_go_solid 125 _ eq_refl)).
Qed.

(** X9: both [extract_json] return [None], a dict or a list, whatever the
    reply is. *)
Theorem extract_json_container (text : pyval) :
  Shape.none_or_container (Main.extract_json text) /\
  Shape.none_or_container (Assemble.extract_json text).
Proof.
  unfold Main.extract_json, Assemble.extract_json.
  destruct (Main.chars_of text) as [t |]; [| split; exact I].
  destruct (Re.search_span (filter Main.keep_char t)) as [span |] eqn:Es;
    [| split; exact I].
  destruct (ShapeFacts.search_span_some _ _ Es)
    as (pre & body & post & _ & [[-> _] | [-> _]]).
  - split.
    + rewrite (ShapeFacts.sub_trailing_head 125 123) by reflexivity.
      rewrite (ShapeFacts.sub_trailing_head 93 123) by reflexivity.
      match goal with
      | |- context [Json.loads ?x] => destruct (Json.loads x) eqn:El
      end; [| exact I].
      eapply ShapeFacts.loads_container; [| exact El]. auto.
    + match goal with
      | |- context [Json.loads ?x] => destruct (Json.loads x) eqn:El
      end; [| exact I].
      eapply ShapeFacts.loads_container; [| exact El]. auto.
  - split.
    + rewrite (ShapeFacts.sub_trailing_head 125 91) by reflexivity.
      rewrite (ShapeFacts.sub_trailing_head 93 91) by reflexivity.
      match goal with
      | |- context [Json.loads ?x] => destruct (Json.loads x) eqn:El
      end; [| exact I].
      eapply ShapeFacts.loads_container; [| exact El]. auto.
    + match goal with
      | |- context [Json.loads ?x] => destruct (Json.loads x) eqn:El
      end; [| exact I].
      eapply ShapeFacts.loads_container; [| exact El]. auto.
Qed.

(** ** Stage 1: what is sent and what is stored *)

Module Stage1Facts.
Import Main Stage1.

Lemma fill_sentences_sources m ss segs :
  map_res (fill_sentence m) ss = Ok segs -> map en segs = ss.
Proof.
  revert segs. induction ss as [| x ss IH]; simpl; intros segs H.
  - inversion H. reflexivity.
  - destruct (fill_sentence m x) as [seg |] eqn:Es; simpl in H;
      [| discriminate].
    destruct (map_res (fill_sentence m) ss) as [rest |]; simpl in H;
      [| discriminate].
    inversion H; subst; clear H. simpl. rewrite (IH rest eq_refl).
    f_equal. unfold fill_sentence in Es.
    destruct (truthy (mapping_get m x)).
    + destruct (mapping_get m x); try discriminate.
      inversion Es. reflexivity.
    + inversion Es. reflexivity.
Qed.

Lemma fill_blocks_stored m pbs blocks :
  map_res (fill_block m) pbs = Ok blocks ->
  stored_sentences blocks = flat_map sentences pbs /\
  stored_images blocks = [].
Proof.
  revert blocks. induction pbs as [| pb pbs IH]; simpl; intros blocks H.
  - inversion H. auto.
  - unfold fill_block at 1 in H.
    destruct (map_res (fill_sentence m) (sentences pb)) as [segs |] eqn:Es;
      simpl in H; [| discriminate].
    destruct (map_res (fill_block m) pbs) as [rest |]; simpl in H;
      [| discriminate].
    inversion H; subst; clear H.
    destruct (IH rest eq_refl) as [I1 I2].
    unfold stored_sentences, stored_images in *. simpl.
    rewrite I1, I2, (fill_sentences_sources _ _ _ Es).
    split; [reflexivity |]. destruct (pb_type pb); reflexivity.
Qed.

(** What a flush does when it returns. *)
Lemma flush_batch_effect svc book_name st st' :
  flush_batch svc book_name st = Ok st' ->
  (pending_sentences st = [] /\ st' = st) \/
  (pending_sentences st <> [] /\
   exists blocks,
     full_structure st' = full_structure st ++ blocks /\
     stored_sentences blocks = flat_map sentences (pending_blocks st) /\
     stored_images blocks = [] /\
     pending_sentences st' = [] /\ pending_blocks st' = [] /\
     requests st' =
       requests st ++
       [TranslateReq (pending_sentences st) book_name (current_chapter st)] /\
     writes st' = writes st).
Proof.
  unfold flush_batch. destruct (pending_sentences st) as [| x xs] eqn:Ep.
  - intros H. inversion H. auto.
  - unfold translate_sentence_batch.
    destruct (py_iter _) as [ts |]; simpl; [| discriminate].
    destruct (build_mapping ts) as [m |]; simpl; [| discriminate].
    destruct (map_res (fill_block m) (pending_blocks st)) as [blocks |] eqn:E;
      simpl; [| discriminate].
    intros H. inversion H; subst; clear H. simpl.
    destruct (fill_blocks_stored _ _ _ E) as [I1 I2].
    right. split; [discriminate |]. exists blocks. repeat split; auto.
Qed.

Lemma stored_sentences_app d1 d2 :
  stored_sentences (d1 ++ d2) = stored_sentences d1 ++ stored_sentences d2.
Proof. apply flat_map_app. Qed.

Lemma stored_images_app d1 d2 :
  stored_images (d1 ++ d2) = stored_images d1 ++ stored_images d2.
Proof. apply flat_map_app. Qed.

Lemma stage1_block_inv svc book_name page_num seen imgs st b st' :
  inv seen imgs st ->
  stage1_block svc book_name page_num st b = Ok st' ->
  inv (seen ++ block_sentences b) (imgs ++ page_images page_num [b]) st'.
Proof.
  intros (I1 & I2 & I3 & I4 & I5 & I6) H. destruct b as [is_heading text | p].
  - unfold stage1_block in H. simpl block_sentences.
    unfold page_images. simpl flat_map. rewrite app_nil_r.
    match type of H with
    | context [flush_batch svc book_name ?s] => set (st1 := s) in *
    end.
    assert (P1 : full_structure st1 = full_structure st) by reflexivity.
    assert (P2 : pending_sentences st1 =
                 pending_sentences st ++ split_sentences text) by reflexivity.
    assert (P3 : flat_map sentences (pending_blocks st1) =
                 flat_map sentences (pending_blocks st) ++
                 split_sentences text).
    { subst st1. simpl. rewrite flat_map_app. simpl.
      rewrite app_nil_r. reflexivity. }
    assert (P4 : requests st1 = requests st) by reflexivity.
    clearbody st1.
    assert (Hi1 : stored_sentences (full_structure st1) ++
                  pending_sentences st1 = seen ++ split_sentences text).
    { rewrite P1, P2, app_assoc, I1. reflexivity. }
    assert (Hi2 : pending_sentences st1 =
                  flat_map sentences (pending_blocks st1)).
    { rewrite P2, P3, I2. reflexivity. }
    destruct (30 <=? List.length (pending_sentences st1))%nat eqn:E.
    + apply Nat.leb_le in E.
      destruct (flush_batch svc book_name st1) as [st2 |] eqn:Ef;
        simpl in H; [| discriminate].
      injection H as <-.
      apply flush_batch_effect in Ef.
      destruct Ef as [[Ee _] | (_ & blocks & F1 & F2 & F3 & F4 & F5 & F6 & F7)].
      * rewrite Ee in E. simpl in E. lia.
      * unfold inv. simpl. rewrite F1, F4, F5, F6.
        rewrite stored_sentences_app, stored_images_app, F2, F3.
        rewrite flat_map_app, P4, I3, P1, <- Hi2. simpl.
        rewrite !app_nil_r.
        split; [| split; [| split; [| split; [| split]]]].
        -- rewrite <- Hi1, P1. reflexivity.
        -- reflexivity.
        -- reflexivity.
        -- exact I4.
        -- apply Forall_app. split; [exact I5 |]. constructor; auto.
        -- lia.
    + apply Nat.leb_gt in E. injection H as <-.
      unfold inv. rewrite P4, P1.
      split; [| split; [| split; [| split; [| split]]]]; auto.
      rewrite <- P1. exact Hi1.
  - simpl in H. injection H as <-.
    unfold inv, page_images. simpl.
    rewrite stored_sentences_app, stored_images_app.
    simpl. rewrite !app_nil_r.
    split; [| split; [| split; [| split; [| split]]]]; auto.
    rewrite I4. reflexivity.
Qed.

Lemma stage1_blocks_inv svc book_name page_num page_blocks :
  forall seen imgs st st',
    inv seen imgs st ->
    stage1_blocks svc book_name page_num st page_blocks = Ok st' ->
    inv (seen ++ flat_map block_sentences page_blocks)
      (imgs ++ page_images page_num page_blocks) st'.
Proof.
  induction page_blocks as [| b rest IH]; intros seen imgs st st' Hi H.
  - simpl in *. inversion H; subst. rewrite !app_nil_r. exact Hi.
  - simpl in H.
    destruct (stage1_block svc book_name page_num st b) as [st1 |] eqn:Eb;
      simpl in H; [| discriminate].
    pose proof (stage1_block_inv _ _ _ _ _ _ _ _ Hi Eb) as Hi1.
    apply (IH _ _ _ _ Hi1) in H.
    unfold page_images in *. simpl in *.
    rewrite app_nil_r in H. rewrite <- !app_assoc in H. exact H.
Qed.

Lemma stage1_pages_inv svc book_name doc :
  forall page_num seen imgs st st',
    inv seen imgs st ->
    stage1_pages svc book_name page_num st doc = Ok st' ->
    inv (seen ++ doc_sentences doc) (imgs ++ doc_images page_num doc) st'.
Proof.
  induction doc as [| page_blocks rest IH]; intros page_num seen imgs st st' Hi H.
  - simpl in *. inversion H; subst. rewrite !app_nil_r. exact Hi.
  - simpl in H.
    destruct (stage1_blocks svc book_name page_num st page_blocks)
      as [st1 |] eqn:Eb; simpl in H; [| discriminate].
    pose proof (stage1_blocks_inv _ _ _ _ _ _ _ _ Hi Eb) as Hi1.
    apply (IH _ _ _ _ _ Hi1) in H.
    unfold doc_sentences in *. simpl.
    rewrite <- !app_assoc in H. exact H.
Qed.

Lemma inv_start : inv [] [] stage1_start.
Proof. unfold inv. simpl. repeat split; auto. lia. Qed.

(** The state at the end of a run that returns. *)
Lemma stage1_run svc doc book_name st :
  process_book_stage1 svc false doc book_name = Ok st ->
  exists st1 st2,
    inv (doc_sentences doc) (doc_images 0 doc) st1 /\
    flush_batch svc book_name st1 = Ok st2 /\
    st = write_cache st2.
Proof.
  unfold process_book_stage1.
  destruct (stage1_pages svc book_name 0 stage1_start doc) as [st1 |] eqn:E1;
    simpl; [| discriminate].
  destruct (flush_batch svc book_name st1) as [st2 |] eqn:E2; simpl;
    [| discriminate].
  intros H. inversion H; subst; clear H.
  exists st1, st2. split; [| split; [exact E2 | reflexivity]].
  exact (stage1_pages_inv _ _ _ _ _ _ _ _ inv_start E1).
Qed.

End Stage1Facts.

(** X10: on every run of Stage 1 that returns, the stored blocks carry the
    sentences of the source, all of them, once each and in source order,
    the pictures of the source in source order with their page numbers,
    and the last state written to the structural file is the final one.
    No sentence is left pending, and a text block that is left pending
    has no sentence. *)
Theorem stage1_stores_every_sentence svc doc book_name st :
  Main.process_book_stage1 svc false doc book_name = Ok st ->
  Stage1.stored_sentences (Main.full_structure st) = Stage1.doc_sentences doc /\
  Stage1.stored_images (Main.full_structure st) = Stage1.doc_images 0 doc /\
  Main.pending_sentences st = [] /\
  Forall (fun pb => Main.sentences pb = []) (Main.pending_blocks st) /\
  last (Main.writes st) [] = Main.full_structure st.
Proof.
  intros H.
  destruct (Stage1Facts.stage1_run _ _ _ _ H)
    as (st1 & st2 & (I1 & I2 & I3 & I4 & I5 & I6) & Ef & ->).
  simpl. rewrite last_last.
  apply Stage1Facts.flush_batch_effect in Ef.
  destruct Ef as [[Ee ->] | (_ & blocks & F1 & F2 & F3 & F4 & F5 & F6 & F7)].
  - rewrite Ee, app_nil_r in I1.
    split; [exact I1 |]. split; [exact I4 |]. split; [exact Ee |].
    split; [| reflexivity].
    rewrite Ee in I2. clear - I2.
    induction (Main.pending_blocks st1) as [| pb pbs IH]; [constructor |].
    simpl in I2. symmetry in I2. apply app_eq_nil in I2.
    destruct I2 as [I2 I3]. constructor; [exact I2 |].
    apply IH. symmetry. exact I3.
  - rewrite F1, F4, F5, Stage1Facts.stored_sentences_app,
      Stage1Facts.stored_images_app, F2, F3, <- I2, I1, I4, app_nil_r.
    auto.
Qed.

Lemma stage1_stores_every_sentence_witness :
  exists st,
    Main.process_book_stage1 Samples.svc_same false
      Samples.page_text_then_image (py "Book") = Ok st /\
    Stage1.stored_sentences (Main.full_structure st) = [py "Hello world."] /\
    Stage1.stored_images (Main.full_structure st) = [(1%nat, py "img_0_1.png")].
Proof.
  eexists. split; [vm_compute; reflexivity |].
  split.
  - refine (proj1 (stage1_stores_every_sentence Samples.svc_same
                     Samples.page_text_then_image (py "Book") _ _)).
    vm_compute. reflexivity.
  - refine (proj1 (proj2 (stage1_stores_every_sentence Samples.svc_same
                     Samples.page_text_then_image (py "Book") _ _))).
    vm_compute. reflexivity.
Defined.

(** X11: on every run of Stage 1 that returns, the requests together carry
    every sentence of the source once and in order, and every request but
    the last carries at least thirty sentences. *)
Theorem stage1_sends_every_sentence svc doc book_name st :
  Main.process_book_stage1 svc false doc book_name = Ok st ->
  flat_map Stage1.request_sentences (Main.requests st) =
    Stage1.doc_sentences doc /\
  Forall (fun r => (30 <= List.length (Stage1.request_sentences r))%nat)
    (removelast (Main.requests st)).
Proof.
  intros H.
  destruct (Stage1Facts.stage1_run _ _ _ _ H)
    as (st1 & st2 & (I1 & I2 & I3 & I4 & I5 & I6) & Ef & ->).
  simpl.
  apply Stage1Facts.flush_batch_effect in Ef.
  destruct Ef as [[Ee ->] | (_ & blocks & F1 & F2 & F3 & F4 & F5 & F6 & F7)].
  - rewrite Ee, app_nil_r in I1. split; [congruence |].
    clear - I5. induction I5 as [| r rs Hr Hrs IH]; [constructor |].
    destruct rs; [constructor |]. simpl. constructor; auto.
  - rewrite F6, flat_map_app, I3, removelast_last. simpl.
    rewrite app_nil_r. split; [exact I1 | exact I5].
Qed.

Lemma stage1_sends_every_sentence_witness :
  exists st,
    Main.process_book_stage1 Samples.svc_same false
      Samples.page_text_then_image (py "Book") = Ok st /\
    flat_map Stage1.request_sentences (Main.requests st) =
      [py "Hello world."].
Proof.
  eexists. split; [vm_compute; reflexivity |].
  refine (proj1 (stage1_sends_every_sentence Samples.svc_same
                   Samples.page_text_then_image (py "Book") _ _)).
  vm_compute. reflexivity.
Defined.

(** ** Stage 1: when it returns *)

Module Stage1Returns.
Import Main Stage1.



Lemma mapping_entry_ok t :
  entry_ok t ->
  mapping_entry t = Ok None \/
  exists k v, mapping_entry t = Ok (Some (k, v)) /\ closable v.
Proof.
  intros (d & -> & Hk & Hm). unfold mapping_entry. simpl.
  destruct (dict_get d (py "en")) as [k |] eqn:Ek; simpl; [| auto].
  destruct (dict_get d (py "mn")) as [v |] eqn:Ev; simpl; [| auto].
  rewrite (Hk k eq_refl). right. exists k, v. auto.
Qed.

Lemma build_mapping_ok ts :
  Forall entry_ok ts ->
  exists m, build_mapping ts = Ok m /\
            Forall (fun kv => closable (snd kv)) m.
Proof.
  induction 1 as [| t ts Ht _ (m & Em & Hm)]; simpl.
  - exists []. auto.
  - rewrite Em.
    destruct (mapping_entry_ok t Ht) as [-> | (k & v & -> & Hv)]; simpl.
    + exists m. auto.
    + exists ((k, v) :: m). auto.
Qed.

Lemma mapping_get_closable m x :
  Forall (fun kv => closable (snd kv)) m -> closable (mapping_get m x).
Proof.
  intros H. unfold mapping_get.
  destruct (find (fun kv => is_str x (fst kv)) (rev m)) as [[k v] |] eqn:E.
  - apply find_some in E. destruct E as [E _]. apply in_rev in E.
    exact (proj1 (Forall_forall _ _) H _ E).
  - right. exists []. reflexivity.
Qed.

Lemma fill_sentence_returns m x :
  closable (mapping_get m x) -> exists seg, fill_sentence m x = Ok seg.
Proof.
  unfold fill_sentence. cbv zeta. intros [H | (s & H)]; rewrite H.
  - eauto.
  - destruct (truthy (PStr s)); eauto.
Qed.

Lemma fill_block_returns m :
  Forall (fun kv => closable (snd kv)) m ->
  forall pbs, exists blocks, map_res (fill_block m) pbs = Ok blocks.
Proof.
  intros Hm.
  assert (Hs : forall ss, exists segs, map_res (fill_sentence m) ss = Ok segs).
  { induction ss as [| x ss (segs & IH)]; simpl; [eauto |].
    destruct (fill_sentence_returns m x (mapping_get_closable m x Hm))
      as (seg & ->).
    rewrite IH. simpl. eauto. }
  induction pbs as [| pb pbs (blocks & IH)]; simpl; [eauto |].
  unfold fill_block at 1. destruct (Hs (sentences pb)) as (segs & ->).
  simpl. rewrite IH. simpl. eauto.
Qed.

Lemma flush_batch_returns svc book_name st :
  readable svc -> exists st', flush_batch svc book_name st = Ok st'.
Proof.
  intros Hr. unfold flush_batch.
  destruct (pending_sentences st) as [| x xs]; [eauto |].
  unfold translate_sentence_batch.
  destruct (Hr (List.length (requests st))
              (TranslateReq (x :: xs) book_name (current_chapter st)))
    as (ts & -> & Hts).
  simpl. destruct (build_mapping_ok ts Hts) as (m & -> & Hm). simpl.
  destruct (fill_block_returns m Hm (pending_blocks st)) as (blocks & ->).
  simpl. eauto.
Qed.




(** *** With a quiet service every target stays empty *)






Lemma svc_same_readable : readable Samples.svc_same.
Proof.
  intros n req. eexists. split; [vm_compute; reflexivity |].
  constructor; [| constructor].
  eexists. split; [reflexivity |]. split.
  - intros k E. vm_compute in E. injection E as <-. reflexivity.
  - intros m E. vm_compute in E. injection E as <-. right. eexists.
    reflexivity.
Qed.

Lemma svc_down_quiet : quiet Samples.svc_down.
Proof. intros n req. exact I. Qed.

End Stage1Returns.

(** X12: when every reply of the service is a list of objects whose "en"
    can be a dict key and whose "mn" is a string or counts as empty, a
    flush does not raise, whatever is pending, and leaves no sentence
    pending. *)
Theorem flush_batch_returns_on_readable_replies svc book_name st :
  Stage1.readable svc ->
  exists st',
    Main.flush_batch svc book_name st = Ok st' /\
    Main.pending_sentences st' = [].
Proof.
  intros Hr.
  destruct (Stage1Returns.flush_batch_returns svc book_name st Hr)
    as (st' & E).
  exists st'. split; [exact E |].
  apply Stage1Facts.flush_batch_effect in E.
  destruct E as [[Ee ->] | (_ & blocks & _ & _ & _ & F4 & _)]; assumption.
Qed.

Lemma flush_batch_returns_on_readable_replies_witness :
  Stage1.readable Samples.svc_same /\
  exists st',
    Main.flush_batch Samples.svc_same (py "Book") Samples.pending_hello =
      Ok st' /\
    Main.pending_sentences st' = [].
Proof.
  split; [exact Stage1Returns.svc_same_readable |].
  apply flush_batch_returns_on_readable_replies.
  exact Stage1Returns.svc_same_readable.
Defined.



(** ** Stage 1 and the patcher *)

Module Stage1Blocks.
Import Main Patcher.

Section Stored.
Variable P : block -> Prop.
Hypothesis P_fill : forall m pb b, fill_block m pb = Ok b -> P b.
Hypothesis P_image : forall page_num p,
  P {| page := page_num; type := image; content := []; path := Some p |}.

Lemma flush_stored svc book_name st st' :
  flush_batch svc book_name st = Ok st' ->
  Forall P (full_structure st) -> Forall P (full_structure st').
Proof.
  intros H Hs.
  destruct (TargetsFacts.flush_batch_appends _ _ _ _ H)
    as [-> | (m & blocks & Hm & ->)]; [exact Hs |].
  apply Forall_app. split; [exact Hs |].
  apply Forall_forall. intros b Hb.
  destruct (TargetsFacts.map_res_In _ _ _ _ _ _ Hm Hb) as (pb & _ & Hpb).
  exact (P_fill _ _ _ Hpb).
Qed.

Lemma block_stored svc book_name page_num st b st' :
  stage1_block svc book_name page_num st b = Ok st' ->
  Forall P (full_structure st) -> Forall P (full_structure st').
Proof.
  intros H Hs. destruct b as [is_heading text | p].
  - unfold stage1_block in H. cbv zeta in H.
    match type of H with
    | context [flush_batch svc book_name ?s] => set (st1 := s) in *
    end.
    assert (P1 : full_structure st1 = full_structure st) by reflexivity.
    clearbody st1.
    destruct (30 <=? List.length (pending_sentences st1))%nat.
    + destruct (flush_batch svc book_name st1) as [st2 |] eqn:Ef;
        simpl in H; [| discriminate].
      injection H as <-. simpl.
      apply (flush_stored _ _ _ _ Ef). rewrite P1. exact Hs.
    + injection H as <-. rewrite P1. exact Hs.
  - simpl in H. injection H as <-. simpl.
    apply Forall_app. split; [exact Hs |]. constructor; [apply P_image | constructor].
Qed.

Lemma blocks_stored svc book_name page_num page_blocks :
  forall st st',
    stage1_blocks svc book_name page_num st page_blocks = Ok st' ->
    Forall P (full_structure st) -> Forall P (full_structure st').
Proof.
  induction page_blocks as [| b rest IH]; intros st st' H Hs; simpl in H.
  - injection H as <-. exact Hs.
  - destruct (stage1_block svc book_name page_num st b) as [st1 |] eqn:Eb;
      simpl in H; [| discriminate].
    exact (IH _ _ H (block_stored _ _ _ _ _ _ Eb Hs)).
Qed.

Lemma pages_stored svc book_name doc :
  forall page_num st st',
    stage1_pages svc book_name page_num st doc = Ok st' ->
    Forall P (full_structure st) -> Forall P (full_structure st').
Proof.
  induction doc as [| pg rest IH]; intros page_num st st' H Hs; simpl in H.
  - injection H as <-. exact Hs.
  - destruct (stage1_blocks svc book_name page_num st pg) as [st1 |] eqn:Eb;
      simpl in H; [| discriminate].
    exact (IH _ _ _ H (blocks_stored _ _ _ _ _ _ Eb Hs)).
Qed.

Lemma run_stored svc resume doc book_name st :
  process_book_stage1 svc resume doc book_name = Ok st ->
  Forall P (full_structure st).
Proof.
  destruct resume.
  - intros H. injection H as <-. constructor.
  - unfold process_book_stage1.
    destruct (stage1_pages svc book_name 0 stage1_start doc) as [st1 |] eqn:E1;
      simpl; [| discriminate].
    destruct (flush_batch svc book_name st1) as [st2 |] eqn:E2; simpl;
      [| discriminate].
    intros H. injection H as <-. simpl.
    apply (flush_stored _ _ _ _ E2).
    apply (pages_stored _ _ _ _ _ _ E1). constructor.
Qed.

End Stored.

Lemma fill_sentence_sized m x item :
  fill_sentence m x = Ok item -> target_sized item.
Proof.
  unfold fill_sentence, target_sized. cbv zeta.
  destruct (truthy (mapping_get m x)) eqn:Ht.
  - destruct (mapping_get m x); try discriminate.
    intros H. injection H as <-. right. simpl. eauto.
  - intros H. injection H as <-. left. exact Ht.
Qed.

Lemma fill_block_sized m pb b :
  fill_block m pb = Ok b -> Forall target_sized (content b).
Proof.
  unfold fill_block.
  destruct (map_res (fill_sentence m) (sentences pb)) as [segs |] eqn:E;
    simpl; [| discriminate].
  intros H. injection H as <-. simpl.
  apply Forall_forall. intros item Hi.
  destruct (TargetsFacts.map_res_In _ _ _ _ _ _ E Hi) as (x & _ & Hx).
  exact (fill_sentence_sized _ _ _ Hx).
Qed.

Lemma text_segments_sized data :
  Forall (fun b => Forall target_sized (content b)) data ->
  Forall target_sized (text_segments data).
Proof.
  induction 1 as [| b data Hb _ IH]; simpl; [constructor |].
  apply Forall_app. split; [| exact IH].
  destruct (type b); [exact Hb | exact Hb | constructor].
Qed.

End Stage1Blocks.

(** X14: every target that Stage 1 stores is a string or counts as
    empty.  So the patcher, on the document a run of Stage 1 has built,
    with a service whose replies it can read and with texts that the
    file can take, does not raise. *)
Theorem patcher_returns_on_stage1_output
    svc doc book_name st svc' book_title :
  Main.process_book_stage1 svc false doc book_name = Ok st ->
  Contract.readable svc' ->
  Contract.writable svc' (Main.full_structure st) ->
  Forall Patcher.target_sized
    (Patcher.text_segments (Main.full_structure st)) /\
  exists data' log,
    Main.patch_missing_translations svc' (Main.full_structure st) book_title =
      Ok (data', log).
Proof.
  intros H Hr Hw.
  assert (Hs : Forall Patcher.target_sized
                 (Patcher.text_segments (Main.full_structure st))).
  { apply Stage1Blocks.text_segments_sized.
    apply (Stage1Blocks.run_stored _
             (fun m pb b => Stage1Blocks.fill_block_sized m pb b)
             (fun _ _ => Forall_nil _) _ _ _ _ _ H). }
  split; [exact Hs |].
  rewrite (ContractFacts.patcher_refines _ _ book_title Hs Hr Hw). eauto.
Qed.

Lemma patcher_returns_on_stage1_output_witness :
  exists st,
    Main.process_book_stage1 Samples.svc_same false
      Samples.page_text_then_image (py "Book") = Ok st /\
    exists data' log,
      Main.patch_missing_translations Samples.svc_same
        (Main.full_structure st) (py "Book") = Ok (data', log).
Proof.
  eexists. split; [vm_compute; reflexivity |].
  refine (proj2 (patcher_returns_on_stage1_output Samples.svc_same
                   Samples.page_text_then_image (py "Book") _
                   Samples.svc_same (py "Book") _ _ _)).
  - vm_compute. reflexivity.
  - intros n req. right. vm_compute. eexists. eexists.
    split; [reflexivity |]. right. eexists. reflexivity.
  - split; [reflexivity |].
    intros n req t H. vm_compute in H. injection H as <-. reflexivity.
Defined.

(** ** Patcher: what it leaves alone *)

Module KeptFacts.
Import Main Doc DocFacts Patcher Kept.

Lemma filled_needs item : filled item -> needs_patch item = Ok false.
Proof.
  intros (s & E & Hl). unfold needs_patch. rewrite E.
  destruct s as [| c s]; [simpl in Hl; lia |]. simpl.
  destruct (Nat.ltb_spec (S (List.length s)) 3); [simpl in Hl; lia | reflexivity].
Qed.

Lemma patch_items_filled svc book_title before b after todo :
  Forall filled todo ->
  forall done st,
    patch_items svc book_title before b after done todo st =
      Ok (done ++ todo, st).
Proof.
  induction 1 as [| item rest Hi _ IH]; intros done st; simpl.
  - rewrite app_nil_r. reflexivity.
  - rewrite (filled_needs item Hi). simpl. rewrite IH, <- app_assoc.
    reflexivity.
Qed.

Lemma patch_blocks_filled svc book_title todo :
  Forall filled (text_segments todo) ->
  forall before st,
    patch_blocks svc book_title before todo st = Ok (before ++ todo, st).
Proof.
  induction todo as [| b after IH]; intros Hf before st.
  - simpl. rewrite app_nil_r. reflexivity.
  - simpl in Hf. apply Forall_app in Hf. destruct Hf as [Hb Ha].
    assert (Htxt : type b <> image ->
              (do r <- patch_items svc book_title before b after []
                         (content b) st;
               patch_blocks svc book_title (before ++ [set_content b (fst r)])
                 after (snd r)) = Ok (before ++ b :: after, st)).
    { intros Ht.
      assert (Hc : Forall filled (content b))
        by (destruct (type b); congruence).
      rewrite (patch_items_filled _ _ _ _ _ _ Hc). simpl.
      rewrite set_content_same, (IH Ha), <- app_assoc. reflexivity. }
    simpl. destruct (type b) eqn:Et.
    + apply Htxt. discriminate.
    + apply Htxt. discriminate.
    + rewrite (IH Ha), <- app_assoc. reflexivity.
Qed.

Lemma patched_target_string reply v :
  patched_target reply = Ok (Some v) -> exists s, v = PStr s /\ s <> [].
Proof.
  unfold patched_target. destruct (truthy reply); [| discriminate].
  destruct (py_index reply 0) as [first |]; simpl; [| discriminate].
  destruct (py_get first (py "mn") PNone) as [w |]; simpl; [| discriminate].
  destruct (truthy w) eqn:Ht; [| discriminate].
  destruct w as [| | | | | | s | |]; try discriminate.
  intros H. injection H as <-. eexists. split; [reflexivity |].
  destruct s as [| c s]; [discriminate |].
  destruct (endswith_terminal (c :: s)); discriminate.
Qed.

Lemma items_kept_refl items : Forall2 item_kept items items.
Proof. induction items; constructor; [left; reflexivity | assumption]. Qed.

Lemma patch_items_kept svc book_title before b after todo :
  forall done st items st',
    patch_items svc book_title before b after done todo st = Ok (items, st') ->
    exists todo', items = done ++ todo' /\ Forall2 item_kept todo todo'.
Proof.
  induction todo as [| item rest IH]; intros done st items st' H.
  - simpl in H. injection H as <- <-. exists []. rewrite app_nil_r.
    split; [reflexivity | constructor].
  - simpl in H.
    destruct (needs_patch item) as [need |] eqn:En; simpl in H;
      [| discriminate].
    destruct need.
    + match type of H with
      | context [patched_target ?r] =>
          destruct (patched_target r) as [[v |] |] eqn:Ep; simpl in H;
            [| | discriminate]
      end.
      * match type of H with
        | context [json_dump ?d] =>
            destruct (json_dump d) as [[] |]; simpl in H; [| discriminate]
        end.
        apply IH in H. destruct H as (todo' & -> & F).
        exists ({| en := en item; mn := v |} :: todo').
        rewrite <- app_assoc. split; [reflexivity |].
        constructor; [| exact F]. right.
        split; [unfold unfilled; rewrite En; reflexivity |].
        split; [reflexivity |]. exact (patched_target_string _ _ Ep).
      * apply IH in H. destruct H as (todo' & -> & F).
        exists (item :: todo'). rewrite <- app_assoc.
        split; [reflexivity |]. constructor; [left; reflexivity | exact F].
    + apply IH in H. destruct H as (todo' & -> & F).
      exists (item :: todo'). rewrite <- app_assoc.
      split; [reflexivity |]. constructor; [left; reflexivity | exact F].
Qed.

Lemma patch_blocks_kept svc book_title todo :
  forall before st data' st',
    patch_blocks svc book_title before todo st = Ok (data', st') ->
    exists todo', data' = before ++ todo' /\ Forall2 block_kept todo todo'.
Proof.
  induction todo as [| b after IH]; intros before st data' st' H.
  - simpl in H. injection H as <- <-. exists []. rewrite app_nil_r.
    split; [reflexivity | constructor].
  - assert (Htxt : type b <> image ->
              (do r <- patch_items svc book_title before b after []
                         (content b) st;
               patch_blocks svc book_title (before ++ [set_content b (fst r)])
                 after (snd r)) = Ok (data', st') ->
              exists todo', data' = before ++ todo' /\
                            Forall2 block_kept (b :: after) todo').
    { intros Ht H'.
      destruct (patch_items svc book_title before b after [] (content b) st)
        as [[items st1] |] eqn:Ei; simpl in H'; [| discriminate].
      apply patch_items_kept in Ei. destruct Ei as (items' & -> & Fi).
      apply IH in H'. destruct H' as (todo' & -> & F).
      exists (set_content b items' :: todo'). rewrite <- app_assoc.
      split; [reflexivity |]. constructor; [| exact F].
      split; [reflexivity |]. split; [intros E; contradiction | exact Fi]. }
    simpl in H. destruct (type b) eqn:Et.
    + apply Htxt; [discriminate | exact H].
    + apply Htxt; [discriminate | exact H].
    + apply IH in H. destruct H as (todo' & -> & F).
      exists (b :: todo'). rewrite <- app_assoc.
      split; [reflexivity |]. constructor; [| exact F].
      split; [symmetry; apply set_content_same |].
      split; [reflexivity | apply items_kept_refl].
Qed.

Lemma patch_items_count svc book_title before b after todo :
  forall done st items st',
    patch_items svc book_title before b after done todo st = Ok (items, st') ->
    (List.length (p_requests st') - modified_count st' >=
     List.length (p_requests st) - modified_count st)%nat /\
    (modified_count st <= List.length (p_requests st) ->
     modified_count st' <= List.length (p_requests st'))%nat.
Proof.
  induction todo as [| item rest IH]; intros done st items st' H.
  - simpl in H. injection H as <- <-. split; auto.
  - simpl in H.
    destruct (needs_patch item) as [need |] eqn:En; simpl in H;
      [| discriminate].
    destruct need; [| exact (IH _ _ _ _ H)].
    match type of H with
    | context [patched_target ?r] =>
        destruct (patched_target r) as [[v |] |] eqn:Ep; simpl in H;
          [| | discriminate]
    end;
      try match type of H with
          | context [json_dump ?d] =>
              destruct (json_dump d) as [[] |]; simpl in H; [| discriminate]
          end;
      apply IH in H; simpl in H; rewrite length_app in H; simpl in H; lia.
Qed.

Lemma patch_blocks_count svc book_title todo :
  forall before st data' st',
    patch_blocks svc book_title before todo st = Ok (data', st') ->
    (modified_count st <= List.length (p_requests st))%nat ->
    (modified_count st' <= List.length (p_requests st'))%nat.
Proof.
  induction todo as [| b after IH]; intros before st data' st' H Hc.
  - simpl in H. injection H as <- <-. exact Hc.
  - assert (Htxt :
              (do r <- patch_items svc book_title before b after []
                         (content b) st;
               patch_blocks svc book_title (before ++ [set_content b (fst r)])
                 after (snd r)) = Ok (data', st') ->
              (modified_count st' <= List.length (p_requests st'))%nat).
    { intros H'.
      destruct (patch_items svc book_title before b after [] (content b) st)
        as [[items st1] |] eqn:Ei; simpl in H'; [| discriminate].
      apply patch_items_count in Ei. apply IH in H'; [exact H' |].
      destruct Ei as [_ Ei]. exact (Ei Hc). }
    simpl in H. destruct (type b) eqn:Et.
    + exact (Htxt H).
    + exact (Htxt H).
    + exact (IH _ _ _ _ H Hc).
Qed.

End KeptFacts.

(** X15: on a document all of whose text targets are strings of three or
    more characters the patcher sends no request, writes nothing, counts
    nothing and returns the document as it is, whatever the service. *)
Theorem patcher_skips_filled_document svc data book_title :
  Forall Kept.filled (Patcher.text_segments data) ->
  Main.patch_missing_translations svc data book_title =
    Ok (data, {| Main.p_requests := []; Main.p_writes := [];
                 Main.modified_count := 0 |}).
Proof.
  intros H. unfold Main.patch_missing_translations.
  rewrite (KeptFacts.patch_blocks_filled _ _ _ H). reflexivity.
Qed.

Lemma patcher_skips_filled_document_witness :
  Forall Kept.filled
    (Patcher.text_segments
       [Samples.picture; Samples.hello_paragraph (py "Sain uu.")]) /\
  Main.patch_missing_translations Samples.svc_numbers
    [Samples.picture; Samples.hello_paragraph (py "Sain uu.")] (py "Book") =
    Ok ([Samples.picture; Samples.hello_paragraph (py "Sain uu.")],
        {| Main.p_requests := []; Main.p_writes := [];
           Main.modified_count := 0 |}).
Proof.
  assert (H : Forall Kept.filled
                (Patcher.text_segments
                   [Samples.picture; Samples.hello_paragraph (py "Sain uu.")])).
  { simpl. constructor; [| constructor].
    eexists. split; [reflexivity |]. simpl. lia. }
  split; [exact H |].
  exact (patcher_skips_filled_document Samples.svc_numbers _ (py "Book") H).
Defined.

(** X16: the document the patcher returns has the blocks of the one it
    was given, one for one; pictures are untouched, and a segment is
    either untouched or was one the patcher asks about and now has a
    non-empty string for target.  A target the patcher takes as filled is
    never overwritten. *)
Theorem patcher_keeps_filled_targets svc data book_title data' log :
  Main.patch_missing_translations svc data book_title = Ok (data', log) ->
  Forall2 Kept.block_kept data data'.
Proof.
  unfold Main.patch_missing_translations. intros H.
  apply KeptFacts.patch_blocks_kept in H.
  destruct H as (todo' & -> & F). exact F.
Qed.

Lemma patcher_keeps_filled_targets_witness :
  Forall2 Kept.block_kept
    [Samples.picture; Samples.hello_paragraph []]
    [Samples.picture; Samples.hello_paragraph (py "Sain uu.")].
Proof.
  refine (patcher_keeps_filled_targets Samples.svc_same _ (py "Book") _ _ _).
  vm_compute. reflexivity.
Defined.

(** X17: the patcher patches at most once for each segment it found
    unfilled. *)
Theorem patcher_patches_at_most_unfilled svc data book_title data' log :
  Main.patch_missing_translations svc data book_title = Ok (data', log) ->
  (Main.modified_count log <=
   List.length (filter Patcher.unfilled (Patcher.text_segments data)))%nat.
Proof.
  unfold Main.patch_missing_translations. intros H.
  pose proof (KeptFacts.patch_blocks_count _ _ _ _ _ _ _ H (le_n 0)) as Hc.
  apply (PatcherFacts.patch_blocks_spec _ _ data) in H.
  - destruct H as [_ R]. simpl in R. rewrite R, length_map in Hc. exact Hc.
  - unfold Patcher.inv. simpl. auto.
Qed.

Lemma patcher_patches_at_most_unfilled_witness :
  (1 <= List.length
          (filter Patcher.unfilled
             (Patcher.text_segments
                [Samples.picture; Samples.hello_paragraph []])))%nat.
Proof.
  refine (patcher_patches_at_most_unfilled Samples.svc_same _ (py "Book") _
            {| Main.p_requests :=
                 [Main.TranslateReq [py "Hello world."] (py "Book")
                    (py "Patching")];
               Main.p_writes :=
                 [[Samples.picture; Samples.hello_paragraph (py "Sain uu.")]];
               Main.modified_count := 1 |} _).
  vm_compute. reflexivity.
Defined.

(** ** Driver: what it removes and when it extracts *)

(** X18: the driver removes the final PDF exactly when the file is there
    and has at most 10000 bytes, and the refined file exactly when, the
    final PDF not being valid, the refined file is there and has at most
    1000 bytes. *)
Theorem driver_removes_only_undersized (a : Main.artifacts) :
  (In Main.RemoveFinal (Main.process_single_book a) <->
   Driver.undersized (Main.pdf_final a) 10000) /\
  (In Main.RemoveRefined (Main.process_single_book a) <->
   Main.is_valid_file (Main.pdf_final a) 10000 = false /\
   Driver.undersized (Main.refined a) 1000).
Proof.
  destruct a as [f r c]. unfold Main.process_single_book, Driver.undersized.
  simpl.
  assert (Hv : forall (x : option N) limit,
             Main.is_valid_file x limit = false <->
             x = None \/ exists size, x = Some size /\ size <= limit).
  { intros [size |] limit; simpl.
    - rewrite N.ltb_ge. split.
      + intros H. right. eauto.
      + intros [H | (size' & E & H)]; [discriminate |].
        injection E as ->. exact H.
    - split; auto. }
  destruct (Main.is_valid_file f 10000) eqn:Ef.
  - split; split.
    + simpl. intros [H | []]. discriminate.
    + intros (size & -> & H). simpl in Ef. apply N.ltb_lt in Ef. lia.
    + simpl. intros [H | []]. discriminate.
    + intros [H _]. discriminate.
  - apply Hv in Ef.
    destruct (Main.is_valid_file r 1000) eqn:Er.
    + split; split.
      * destruct Ef as [-> | (size & -> & H)]; simpl.
        -- intros [H | []]. discriminate.
        -- eauto.
      * intros (size & -> & H). simpl. auto.
      * intros H. exfalso.
        destruct f; simpl in H; intuition discriminate.
      * intros [_ (size & -> & H)]. simpl in Er. apply N.ltb_lt in Er. lia.
    + apply Hv in Er. split; split.
      * destruct Ef as [-> | (size & -> & H)]; simpl.
        -- intros H. exfalso.
           destruct r, (negb (Main.is_valid_file c 1000)); simpl in H;
             intuition discriminate.
        -- eauto.
      * intros (size & -> & H). simpl. auto.
      * intros H. split; [reflexivity |].
        destruct Er as [-> | (size & -> & Hs)]; [| eauto].
        exfalso.
        destruct f, (negb (Main.is_valid_file c 1000)); simpl in H;
          intuition discriminate.
      * intros [_ (size & -> & H)]. apply in_or_app. right. simpl. auto.
Qed.

(** X19: the driver comes to the call of Stage 1 exactly when none of the
    three files is valid, and Stage 1 then finds the structural file
    present exactly when it exists. *)
Theorem driver_runs_stage1_iff (a : Main.artifacts) (cache_exists : bool) :
  In (Main.Stage1 cache_exists) (Main.process_single_book a) <->
  Main.is_valid_file (Main.pdf_final a) 10000 = false /\
  Main.is_valid_file (Main.refined a) 1000 = false /\
  Main.is_valid_file (Main.cache a) 1000 = false /\
  cache_exists = Main.exists_file (Main.cache a).
Proof.
  destruct a as [f r c]. unfold Main.process_single_book. simpl.
  destruct (Main.is_valid_file f 10000) eqn:Ef.
  { split.
    - simpl. intros [H | []]. discriminate.
    - intros [H _]. discriminate. }
  destruct (Main.is_valid_file r 1000) eqn:Er.
  { split.
    - intros H. exfalso. destruct f; simpl in H; intuition discriminate.
    - intros (_ & H & _). discriminate. }
  destruct (Main.is_valid_file c 1000) eqn:Ec; simpl.
  { split.
    - intros H. exfalso.
      destruct f, r; simpl in H; intuition discriminate.
    - intros (_ & _ & H & _). discriminate. }
  split.
  - intros H.
    assert (E : cache_exists = Main.exists_file c).
    { destruct f, r; simpl in H; intuition congruence. }
    auto.
  - intros (_ & _ & _ & ->).
    apply in_or_app. right. apply in_or_app. right. simpl. auto.
Qed.

(** ** Refiner: the chunks and the requests *)

Module ChunksFacts.
Import Main Assemble Refiner RefinerFacts Chunks.

Lemma chunks_measure (A : Type) :
  forall n (l : list A), (List.length l <= n)%nat ->
    List.length (chunks chunk_size l) = ((List.length l + 14) / 15)%nat /\
    Forall (fun c => (1 <= List.length c <= 15)%nat) (chunks chunk_size l).
Proof.
  induction n as [| n IH]; intros l Hl.
  - destruct l; [| simpl in Hl; lia]. split; [reflexivity | constructor].
  - rewrite chunks_slices.
    destruct l as [| a l']; [split; [reflexivity | constructor] |].
    remember (a :: l') as l eqn:El.
    assert (Hm : (1 <= List.length l)%nat) by (subst l; simpl; lia).
    destruct (IH (skipn chunk_size l)) as [IH1 IH2].
    { rewrite length_skipn. unfold chunk_size. lia. }
    split.
    + change (S (List.length (chunks chunk_size (skipn chunk_size l))) =
              ((List.length l + 14) / 15)%nat).
      rewrite IH1, length_skipn. unfold chunk_size.
      destruct (le_lt_dec (List.length l) 15) as [Hs | Hb].
      * rewrite (Nat.div_small (List.length l - 15 + 14) 15) by lia.
        apply Nat.div_unique with (r := (List.length l - 1)%nat); lia.
      * replace (List.length l + 14)%nat
          with (List.length l - 15 + 14 + 1 * 15)%nat by lia.
        rewrite Nat.div_add by lia. lia.
    + constructor; [| exact IH2].
      rewrite length_firstn. unfold chunk_size. lia.
Qed.

Lemma refine_chunks_log svc book_title cs :
  forall log,
    snd (refine_chunks svc log cs book_title) = log ++ asked book_title cs.
Proof.
  induction cs as [| chunk rest IH]; intros log.
  - simpl. rewrite app_nil_r. reflexivity.
  - simpl. pose proof (refine_chunk_outcome svc log chunk book_title) as [_ Ho].
    destruct (refine_chunk svc log chunk book_title) as [chunk' log'].
    specialize (IH log').
    destruct (refine_chunks svc log' rest book_title) as [rest' log''].
    simpl in IH, Ho. simpl. unfold asked. simpl.
    destruct (forallb format_blank (chunk_targets chunk)); simpl.
    + destruct Ho as [_ ->]. exact IH.
    + destruct Ho as [-> _]. rewrite IH, <- app_assoc. reflexivity.
Qed.

Lemma merge_back_same blocks :
  merge_back blocks (filter translatable blocks) = blocks.
Proof.
  induction blocks as [| b rest IH]; [reflexivity |].
  simpl. destruct (translatable b); rewrite IH; reflexivity.
Qed.

Lemma refine_chunk_quiet svc log chunk book_title :
  Stage1.quiet svc -> fst (refine_chunk svc log chunk book_title) = chunk.
Proof.
  intros Hq. unfold refine_chunk. destruct chunk as [| b rest]; [reflexivity |].
  destruct (forallb format_blank (chunk_targets (b :: rest)));
    [reflexivity |].
  cbv zeta.
  match goal with
  | |- context [svc ?n ?r] => specialize (Hq n r); destruct (svc n r)
  end.
  - reflexivity.
  - unfold refined_list_of. rewrite Hq. reflexivity.
Qed.

Lemma refine_chunks_quiet svc book_title cs :
  Stage1.quiet svc ->
  forall log, fst (refine_chunks svc log cs book_title) = cs.
Proof.
  intros Hq. induction cs as [| chunk rest IH]; intros log; [reflexivity |].
  simpl. pose proof (refine_chunk_quiet svc log chunk book_title Hq) as Hc.
  destruct (refine_chunk svc log chunk book_title) as [chunk' log'].
  specialize (IH log').
  destruct (refine_chunks svc log' rest book_title) as [rest' log''].
  simpl in *. congruence.
Qed.

End ChunksFacts.

(** X20: the loop of the refiner makes as many chunks as the total it
    announces, the number of translatable blocks plus fourteen, divided by
    fifteen and rounded down, and every chunk has from one to fifteen
    blocks. *)
Theorem refiner_chunk_total (blocks : list Main.block) :
  let translatable_blocks := filter Assemble.translatable blocks in
  let cs := Assemble.chunks Assemble.chunk_size translatable_blocks in
  List.length cs =
    ((List.length translatable_blocks + Assemble.chunk_size - 1) /
     Assemble.chunk_size)%nat /\
  Forall (fun c => (1 <= List.length c <= Assemble.chunk_size)%nat) cs.
Proof.
  intros tb cs. subst cs.
  destruct (ChunksFacts.chunks_measure _ _ tb (le_n _)) as [H1 H2].
  split; [| exact H2]. rewrite H1. unfold Assemble.chunk_size.
  f_equal. lia.
Qed.

(** X21: what the refiner asks does not depend on what the service
    answers: one request for each chunk with a target that is not blank,
    in order, each carrying the targets of its chunk as they were before
    the refinement. *)
Theorem refiner_requests svc log blocks book_title :
  snd (Assemble.refine_narrative_chunked svc log blocks book_title) =
  log ++
  Chunks.asked book_title
    (Assemble.chunks Assemble.chunk_size
       (filter Assemble.translatable blocks)).
Proof.
  rewrite NarrativeFacts.refine_narrative_unfold.
  destruct (filter Assemble.translatable blocks) as [| t0 trest].
  - simpl. rewrite app_nil_r. reflexivity.
  - simpl snd. apply ChunksFacts.refine_chunks_log.
Qed.

(** X22: with a service that never delivers, the refiner returns the
    document it was given. *)
Theorem refiner_keeps_document_when_quiet svc log blocks book_title :
  Stage1.quiet svc ->
  fst (Assemble.refine_narrative_chunked svc log blocks book_title) = blocks.
Proof.
  intros Hq. rewrite NarrativeFacts.refine_narrative_unfold.
  pose proof (ChunksFacts.merge_back_same blocks) as Hm.
  destruct (filter Assemble.translatable blocks) as [| t0 trest];
    [reflexivity |].
  simpl fst. rewrite (ChunksFacts.refine_chunks_quiet _ _ _ Hq).
  unfold Assemble.chunks. rewrite RefinerFacts.chunks_go_concat. exact Hm.
Qed.

Lemma refiner_keeps_document_when_quiet_witness :
  Stage1.quiet Samples.svc_down /\
  fst (Assemble.refine_narrative_chunked Samples.svc_down []
         [Samples.picture; Samples.hello_paragraph (py "Sain uu.")]
         (py "Book")) =
  [Samples.picture; Samples.hello_paragraph (py "Sain uu.")].
Proof.
  split; [exact Stage1Returns.svc_down_quiet |].
  apply refiner_keeps_document_when_quiet.
  exact Stage1Returns.svc_down_quiet.
Defined.

(** ** Reflowable renderer: the chapters *)

Module BookFacts.
Import Main Assemble Book.

Lemma chapter_ok_more k t f c extra :
  chapter_ok k {| title := t; file_name := f; chapter_content := c |} ->
  chapter_ok k {| title := t; file_name := f; chapter_content := c ++ extra |}.
Proof.
  intros (H1 & H2 & rest & H3). split; [exact H1 |]. split; [exact H2 |].
  exists (rest ++ extra). cbn [chapter_content title] in *.
  rewrite H3, <- !app_assoc. reflexivity.
Qed.

Lemma close_chapter_ok st :
  inv st -> forall k ch, nth_error (close_chapter st) k = Some ch ->
  chapter_ok k ch.
Proof.
  intros [I1 I2]. unfold close_chapter.
  destruct (Assemble.current_chapter st) as [[t f] |]; [| exact I1].
  intros k ch H.
  destruct (Nat.lt_ge_cases k (List.length (chapters st))) as [Hk | Hk].
  - rewrite nth_error_app1 in H by exact Hk. exact (I1 _ _ H).
  - rewrite nth_error_app2 in H by exact Hk.
    destruct (k - List.length (chapters st))%nat as [| j] eqn:Ej.
    + simpl in H. injection H as <-.
      replace k with (List.length (chapters st)) by lia. exact I2.
    + simpl in H. destruct j; discriminate.
Qed.

Lemma open_chapter_inv st joined i :
  inv st ->
  inv {| chapters := close_chapter st;
         current_chapter :=
           Some (match joined with [] => py "Chapter" | _ :: _ => joined end,
                 py "chap_" ++ str_of_nat (List.length (close_chapter st)) ++
                 py ".xhtml");
         current_content :=
           py "<h1>" ++
           match joined with [] => py "Chapter" | _ :: _ => joined end ++
           py "</h1>";
         images := i |}.
Proof.
  intros Hi. split.
  - exact (close_chapter_ok st Hi).
  - cbn [Assemble.current_chapter chapters current_content].
    split; [reflexivity |]. split.
    + cbn [title]. destruct joined; discriminate.
    + exists []. cbn [chapter_content title]. rewrite app_nil_r. reflexivity.
Qed.

Lemma epub_block_inv file_exists i st b st' :
  epub_block file_exists i st b = Ok st' -> inv st -> inv st'.
Proof.
  unfold epub_block. intros H Hi.
  assert (Hopen : forall st'',
             (do joined <- joined_targets b;
              let t := match joined with
                       | [] => py "Chapter"
                       | _ :: _ => joined
                       end in
              let done := close_chapter st in
              Ok {| chapters := done;
                    current_chapter :=
                      Some (t, py "chap_" ++ str_of_nat (List.length done) ++
                               py ".xhtml");
                    current_content := py "<h1>" ++ t ++ py "</h1>";
                    images := images st |}) = Ok st'' -> inv st'').
  { intros st'' H'.
    destruct (joined_targets b) as [joined |]; [| discriminate].
    cbv beta iota zeta in H'. unfold bind in H'. injection H' as <-.
    apply open_chapter_inv, Hi. }
  assert (Hmore : forall extra,
             inv {| chapters := chapters st;
                    current_chapter := Assemble.current_chapter st;
                    current_content := current_content st ++ extra;
                    images := images st |}).
  { intros extra. destruct Hi as [I1 I2]. split; [exact I1 |].
    cbn [Assemble.current_chapter chapters current_content].
    destruct (Assemble.current_chapter st) as [[t f] |]; [| exact I].
    apply chapter_ok_more, I2. }
  assert (Hmore' : forall extra imgs,
             inv {| chapters := chapters st;
                    current_chapter := Assemble.current_chapter st;
                    current_content := current_content st ++ extra;
                    images := imgs |}).
  { intros extra imgs. destruct (Hmore extra) as [J1 J2].
    split; [exact J1 | exact J2]. }
  destruct (type b).
  - exact (Hopen _ H).
  - destruct (false || (i =? 0)%nat); [exact (Hopen _ H) |].
    destruct (joined_targets b) as [text |]; [| discriminate].
    unfold bind in H. destruct text as [| c text].
    + injection H as <-. exact Hi.
    + injection H as <-. apply Hmore.
  - destruct (path b) as [p |]; [| discriminate].
    destruct (file_exists p).
    + injection H as <-. apply Hmore'.
    + injection H as <-. exact Hi.
Qed.

Lemma epub_blocks_inv file_exists book_data :
  forall i st st',
    epub_blocks file_exists i st book_data = Ok st' -> inv st -> inv st'.
Proof.
  induction book_data as [| b rest IH]; intros i st st' H Hi; simpl in H.
  - injection H as <-. exact Hi.
  - destruct (epub_block file_exists i st b) as [st1 |] eqn:Eb; simpl in H;
      [| discriminate].
    exact (IH _ _ _ H (epub_block_inv _ _ _ _ _ Eb Hi)).
Qed.

Lemma epub_block_count file_exists i st b st' :
  epub_block file_exists i st b = Ok st' ->
  List.length (close_chapter st') =
    (List.length (close_chapter st) + if opens i b then 1 else 0)%nat.
Proof.
  unfold epub_block, opens. intros H.
  assert (Hopen : forall st'',
             (do joined <- joined_targets b;
              let t := match joined with
                       | [] => py "Chapter"
                       | _ :: _ => joined
                       end in
              let done := close_chapter st in
              Ok {| chapters := done;
                    current_chapter :=
                      Some (t, py "chap_" ++ str_of_nat (List.length done) ++
                               py ".xhtml");
                    current_content := py "<h1>" ++ t ++ py "</h1>";
                    images := images st |}) = Ok st'' ->
             List.length (close_chapter st'') =
               (List.length (close_chapter st) + 1)%nat).
  { intros st'' H'.
    destruct (joined_targets b) as [joined |]; [| discriminate].
    cbv beta iota zeta in H'. unfold bind in H'. injection H' as <-.
    unfold close_chapter at 1.
    cbn [Assemble.current_chapter chapters current_content].
    rewrite length_app. reflexivity. }
  destruct (type b).
  - exact (Hopen _ H).
  - destruct (i =? 0)%nat; simpl orb in H; [exact (Hopen _ H) |].
    destruct (joined_targets b) as [text |]; [| discriminate].
    unfold bind in H. destruct text as [| c text]; injection H as <-;
      unfold close_chapter; cbn [Assemble.current_chapter chapters];
      destruct (Assemble.current_chapter st) as [[t f] |];
      rewrite ?length_app; simpl; lia.
  - destruct (path b) as [p |]; [| discriminate].
    destruct (file_exists p); injection H as <-;
      unfold close_chapter; cbn [Assemble.current_chapter chapters];
      destruct (Assemble.current_chapter st) as [[t f] |];
      rewrite ?length_app; simpl; lia.
Qed.

Lemma epub_blocks_count file_exists book_data :
  forall i st st',
    epub_blocks file_exists i st book_data = Ok st' ->
    List.length (close_chapter st') =
      (List.length (close_chapter st) + openings i book_data)%nat.
Proof.
  induction book_data as [| b rest IH]; intros i st st' H; simpl in H.
  - injection H as <-. simpl. lia.
  - destruct (epub_block file_exists i st b) as [st1 |] eqn:Eb; simpl in H;
      [| discriminate].
    rewrite (IH _ _ _ H), (epub_block_count _ _ _ _ _ Eb). simpl. lia.
Qed.

End BookFacts.

(** X23: in every book the reflowable renderer writes, the chapter at
    position k has the file chap_k.xhtml, a title that is not empty, and a
    content that starts with the title as a heading. *)
Theorem epub_chapters_numbered file_exists book_data chs k ch :
  Assemble.assemble_epub file_exists book_data = Ok chs ->
  nth_error chs k = Some ch ->
  Book.chapter_ok k ch.
Proof.
  unfold Assemble.assemble_epub. intros H Hk.
  match type of H with
  | context [Assemble.epub_blocks file_exists 0 ?s book_data] =>
      destruct (Assemble.epub_blocks file_exists 0 s book_data) as [st |] eqn:E;
        simpl in H; [| discriminate]
  end.
  injection H as <-.
  apply (BookFacts.close_chapter_ok st); [| exact Hk].
  apply (BookFacts.epub_blocks_inv _ _ _ _ _ E).
  split; [| exact I]. intros j c Hj. destruct j; discriminate.
Qed.

Lemma epub_chapters_numbered_witness :
  Book.chapter_ok 0
    {| Assemble.title := py "Neg.";
       Assemble.file_name := py "chap_0.xhtml";
       Assemble.chapter_content := py "<h1>Neg.</h1>" |}.
Proof.
  refine (epub_chapters_numbered (fun _ => true)
            [Samples.picture; Samples.hello_paragraph (py "Sain uu.");
             Samples.title_block]
            [{| Assemble.title := py "Neg.";
                Assemble.file_name := py "chap_0.xhtml";
                Assemble.chapter_content := py "<h1>Neg.</h1>" |}] 0 _ _ _).
  - vm_compute. reflexivity.
  - reflexivity.
Defined.

(** X24: the book has one chapter for every heading and one for a
    paragraph at index 0, and no other. *)
Theorem epub_chapter_count file_exists book_data chs :
  Assemble.assemble_epub file_exists book_data = Ok chs ->
  List.length chs = Book.openings 0 book_data.
Proof.
  unfold Assemble.assemble_epub. intros H.
  match type of H with
  | context [Assemble.epub_blocks file_exists 0 ?s book_data] =>
      destruct (Assemble.epub_blocks file_exists 0 s book_data) as [st |] eqn:E;
        simpl in H; [| discriminate]
  end.
  injection H as <-.
  rewrite (BookFacts.epub_blocks_count _ _ _ _ _ E). reflexivity.
Qed.

Lemma epub_chapter_count_witness :
  List.length
    [{| Assemble.title := py "Neg.";
        Assemble.file_name := py "chap_0.xhtml";
        Assemble.chapter_content := py "<h1>Neg.</h1>" |}] =
  Book.openings 0
    [Samples.picture; Samples.hello_paragraph (py "Sain uu.");
     Samples.title_block].
Proof.
  refine (epub_chapter_count (fun _ => true) _ _ _).
  vm_compute. reflexivity.
Defined.

(** ** From the structural file to the book *)

Module PipelineFacts.
Import Main Assemble Doc DocFacts Book.

Lemma refine_skeleton svc log blocks book_title :
  skeleton (fst (refine_narrative_chunked svc log blocks book_title)) =
  skeleton blocks.
Proof.
  rewrite NarrativeFacts.refine_narrative_unfold.
  pose proof (RefinerFacts.refine_chunks_skeleton svc book_title
                (chunks chunk_size (filter translatable blocks)) log) as Hs.
  unfold chunks in Hs at 2. rewrite RefinerFacts.chunks_go_concat in Hs.
  pose proof (RefinerFacts.merge_back_spec blocks) as Hm.
  destruct (filter translatable blocks) as [| t0 trest]; [reflexivity |].
  simpl fst. exact (proj1 (Hm _ Hs)).
Qed.

Lemma patch_skeleton svc data book_title data' log :
  patch_missing_translations svc data book_title = Ok (data', log) ->
  skeleton data' = skeleton data.
Proof.
  unfold patch_missing_translations. intros H.
  apply (PatcherFacts.patch_blocks_spec _ _ data) in H.
  - destruct H as [(_ & _ & I3 & _) _]. exact I3.
  - unfold Patcher.inv. simpl. auto.
Qed.

Lemma openings_skeleton a :
  forall b i, skeleton a = skeleton b -> openings i a = openings i b.
Proof.
  induction a as [| x a IH]; intros [| y b] i H; try discriminate;
    [reflexivity |].
  simpl in H. injection H as _ Ht _ _ Hr. simpl.
  rewrite (IH b (S i) Hr). unfold opens. rewrite Ht. reflexivity.
Qed.

End PipelineFacts.

(** X26: the number of chapters of the reflowable book is fixed by the
    structural file: the patcher and the refiner, whatever the service
    answers, change neither the headings nor the block at index 0, so the
    book rendered after both passes has one chapter for every heading of
    the structural file and one for a paragraph at its index 0. *)
Theorem pipeline_chapter_count
    svc data book_title patched plog svc' rlog file_exists chs :
  Main.patch_missing_translations svc data book_title = Ok (patched, plog) ->
  Assemble.assemble_epub file_exists
    (fst (Assemble.refine_narrative_chunked svc' rlog patched book_title)) =
    Ok chs ->
  List.length chs = Book.openings 0 data.
Proof.
  intros Hp He.
  unfold Assemble.assemble_epub in He.
  match type of He with
  | context [Assemble.epub_blocks file_exists 0 ?s ?d] =>
      destruct (Assemble.epub_blocks file_exists 0 s d) as [st |] eqn:E;
        simpl in He; [| discriminate]
  end.
  injection He as <-.
  rewrite (BookFacts.epub_blocks_count _ _ _ _ _ E). simpl.
  apply PipelineFacts.openings_skeleton.
  rewrite PipelineFacts.refine_skeleton.
  exact (PipelineFacts.patch_skeleton _ _ _ _ _ Hp).
Qed.

Lemma pipeline_chapter_count_witness :
  List.length
    [{| Assemble.title := py "Sain uu.";
        Assemble.file_name := py "chap_0.xhtml";
        Assemble.chapter_content := py "<h1>Sain uu.</h1>" |}] =
  Book.openings 0 [Samples.hello_paragraph []; Samples.picture].
Proof.
  refine (pipeline_chapter_count Samples.svc_same
            [Samples.hello_paragraph []; Samples.picture] (py "Book")
            [Samples.hello_paragraph (py "Sain uu."); Samples.picture]
            {| Main.p_requests :=
                 [Main.TranslateReq [py "Hello world."] (py "Book")
                    (py "Patching")];
               Main.p_writes :=
                 [[Samples.hello_paragraph (py "Sain uu."); Samples.picture]];
               Main.modified_count := 1 |}
            Samples.svc_down [] (fun _ => false) _ _ _).
  - vm_compute. reflexivity.
  - vm_compute. reflexivity.
Defined.

(** ** The segmenter on healed text *)

Module SpacingFacts.
Import Re Main Segmenter SegmenterFacts Spacing.

Lemma spaced_cons c s :
  spaced (c :: s) = true <->
  (isspace c = true -> c = 32 /\ head_is_space s = false) /\ spaced s = true.
Proof.
  simpl. rewrite andb_true_iff, orb_true_iff, andb_true_iff, N.eqb_eq,
    !negb_true_iff.
  split.
  - intros [[H | [H1 H2]] Hs]; split; auto. intros E. congruence.
  - intros [H Hs]. split; [| exact Hs].
    destruct (isspace c); [right; apply H; reflexivity | left; reflexivity].
Qed.

Lemma spaced_suffix x y : spaced (x ++ y) = true -> spaced y = true.
Proof.
  induction x as [| c x IH]; [auto |].
  rewrite <- app_comm_cons, spaced_cons. intros [_ H]. apply IH, H.
Qed.

Lemma spaced_prefix x y : spaced (x ++ y) = true -> spaced x = true.
Proof.
  induction x as [| c x IH]; [reflexivity |].
  rewrite <- app_comm_cons, !spaced_cons. intros [H Hs].
  split; [| apply IH, Hs].
  intros E. destruct (H E) as [H1 H2]. split; [exact H1 |].
  destruct x as [| d x]; [reflexivity | exact H2].
Qed.

Lemma spaced_glue h q y :
  spaced (h ++ [q]) = true -> isspace q = false -> spaced y = true ->
  spaced (h ++ q :: y) = true.
Proof.
  intros Hh Hq Hy. induction h as [| c h IH].
  - simpl. rewrite Hq, Hy. reflexivity.
  - rewrite <- app_comm_cons in *. rewrite spaced_cons in *.
    destruct Hh as [H Hs]. split; [| apply IH, Hs].
    rewrite head_is_space_app. exact H.
Qed.

Lemma spaced_snoc x p :
  spaced x = true -> isspace p = false -> spaced (x ++ [p]) = true.
Proof.
  intros Hx Hp. induction x as [| c x IH].
  - simpl. rewrite Hp. reflexivity.
  - rewrite <- app_comm_cons. rewrite spaced_cons in *.
    destruct Hx as [H Hs]. split; [| apply IH, Hs].
    intros E. destruct (H E) as [H1 H2]. split; [exact H1 |].
    destruct x as [| d x]; [simpl; exact Hp | exact H2].
Qed.

Lemma spaced_strip t : spaced t = true -> spaced (strip t) = true.
Proof.
  intros H. unfold strip.
  destruct (rstrip_prefix t) as (ws & E). rewrite E in H.
  apply spaced_prefix in H.
  destruct (lstrip_suffix (rstrip t)) as (ws' & E'). rewrite E' in H.
  apply spaced_suffix in H. exact H.
Qed.

Lemma split_terminal_spaced t :
  spaced t = true ->
  forall skip, Forall (fun r => spaced r = true) (split_terminal_go skip t).
Proof.
  induction t as [| c t IH]; intros H skip; simpl.
  - constructor; [reflexivity | constructor].
  - apply spaced_cons in H. destruct H as [Hc Hs].
    destruct (skip && isspace c); [apply IH, Hs |].
    destruct (is_terminal c && head_is_space t) eqn:E.
    + constructor; [reflexivity |].
      constructor; [| apply IH, Hs].
      apply andb_true_iff in E. destruct E as [E _].
      simpl. rewrite (terminal_not_space c E). reflexivity.
    + pose proof (IH Hs false) as Hr. pose proof (go_first_head t) as Hh.
      destruct (split_terminal_go false t) as [| r rs]; simpl.
      * constructor; [| constructor]. apply spaced_cons.
        split; [| reflexivity].
        intros Ec. destruct (Hc Ec) as [-> _]. split; reflexivity.
      * inversion Hr as [| ? ? Hr1 Hr2]; subst.
        constructor; [| exact Hr2].
        apply spaced_cons. split; [| exact Hr1].
        intros Ec. destruct (Hc Ec) as [-> Ht]. split; [reflexivity |].
        simpl in Hh. destruct (head_is_space r); [| reflexivity].
        rewrite Hh in Ht by reflexivity. discriminate.
Qed.

Lemma glue_spaced cur chunk :
  cur_spaced cur -> spaced chunk = true -> spaced (cur ++ chunk) = true.
Proof.
  intros [-> | (Hs & h & q & -> & Hq)] Hc; [exact Hc |].
  rewrite <- app_assoc. simpl.
  apply spaced_glue; auto. apply terminal_not_space, Hq.
Qed.

Lemma split_loop_spaced n :
  forall raw first cur acc,
    (List.length raw <= n)%nat -> raw_ok first raw ->
    Forall (fun r => spaced r = true) raw ->
    cur_spaced cur -> Forall (fun s => spaced s = true) acc ->
    Forall (fun s => spaced s = true) (snd (split_loop raw cur acc)) /\
    spaced (fst (split_loop raw cur acc) ++ last raw []) = true.
Proof.
  induction n as [| n IH]; intros [| chunk [| punc rest]] first cur acc
    Hlen Hraw Hsp Hcur Hacc; simpl in Hlen; try lia;
    try (destruct Hraw; fail).
  - simpl. split; [exact Hacc |].
    apply glue_spaced; [exact Hcur |]. inversion Hsp; assumption.
  - destruct Hraw as (_ & _ & (p & -> & Hp) & Hrest).
    inversion Hsp as [| ? ? Hchunk Hsp1]; subst.
    inversion Hsp1 as [| ? ? _ Hsp2]; subst.
    rewrite last_cons2 by (destruct rest; [destruct Hrest | discriminate]).
    simpl split_loop. rewrite app_assoc.
    assert (Hnew : spaced ((cur ++ chunk) ++ [p]) = true).
    { apply spaced_snoc; [apply glue_spaced; auto |].
      apply terminal_not_space, Hp. }
    destruct (is_abbreviation (last (split chunk) [])); simpl negb;
      cbv iota.
    + apply (IH rest false); auto; try lia.
      right. split; [exact Hnew |]. exists (cur ++ chunk), p. auto.
    + apply (IH rest false); auto; try lia.
      * left. reflexivity.
      * apply Forall_app. split; [exact Hacc |].
        constructor; [| constructor]. apply spaced_strip, Hnew.
Qed.

Lemma split_sentences_spaced t :
  spaced t = true ->
  Forall (fun s => spaced s = true) (split_sentences t).
Proof.
  intros Ht. unfold split_sentences. destruct t as [| c t]; [constructor |].
  pose proof (split_terminal_go_ok (c :: t) false) as Hraw.
  pose proof (split_terminal_spaced (c :: t) Ht false) as Hsp.
  change (split_terminal_go false (c :: t)) with (split_terminal (c :: t))
    in Hraw, Hsp.
  simpl negb in Hraw.
  destruct (split_loop_spaced _ (split_terminal (c :: t)) true [] []
              (Nat.le_refl _) Hraw Hsp) as (H1 & H2);
    [left; reflexivity | constructor |].
  rewrite (raw_ok_odd _ _ Hraw).
  destruct (split_loop (split_terminal (c :: t)) [] []) as [cur sents].
  simpl in H1, H2.
  apply Forall_forall. intros s Hin. apply filter_In in Hin.
  destruct Hin as [Hin _].
  assert (Hall : Forall (fun s => spaced s = true)
                   (sents ++ [strip (cur ++ last (split_terminal (c :: t)) [])])).
  { apply Forall_app. split; [exact H1 |].
    constructor; [apply spaced_strip, H2 | constructor]. }
  destruct cur as [| d cur]; exact (proj1 (Forall_forall _ _) Hall s Hin).
Qed.

Lemma sub_spaces_go_spaced t :
  forall skip,
    spaced (sub_spaces_go skip t) = true /\
    head_is_space (sub_spaces_go true t) = false.
Proof.
  induction t as [| c t IH]; intros skip; [split; reflexivity |].
  simpl. destruct (isspace c) eqn:Ec.
  - split; [| apply (IH true)].
    destruct skip; [apply (IH true) |].
    apply spaced_cons. split; [| apply (IH true)].
    intros _. split; [reflexivity | apply (IH true)].
  - split; [| simpl; exact Ec].
    apply spaced_cons. split; [congruence | apply (IH false)].
Qed.

Lemma heal_text_spaced t : spaced (heal_text t) = true.
Proof.
  unfold heal_text, sub_spaces. apply spaced_strip, sub_spaces_go_spaced.
Qed.

Lemma sub_spaces_id s : spaced s = true -> sub_spaces s = s.
Proof.
  unfold sub_spaces. induction s as [| c s IH]; [reflexivity |].
  intros H. apply spaced_cons in H. destruct H as [Hc Hs].
  simpl. destruct (isspace c) eqn:Ec.
  - destruct (Hc eq_refl) as [-> Hh]. f_equal.
    rewrite <- (HealFacts.sub_spaces_nospace s Hh). apply IH, Hs.
  - f_equal. apply IH, Hs.
Qed.

End SpacingFacts.

(** X27: the sentences of healed text are healed: healing any sentence
    that the segmenter returns on the result of [heal_text] gives the
    sentence back. *)
Theorem split_sentences_of_healed_text (text : str) :
  Forall (fun s => Main.heal_text s = s)
    (Main.split_sentences (Main.heal_text text)).
Proof.
  pose proof (SpacingFacts.split_sentences_spaced _
                (SpacingFacts.heal_text_spaced text)) as Hs.
  pose proof (SegmenterMore.good_list_all _
                (SegmenterFacts.split_sentences_good (Main.heal_text text)))
    as Hg.
  apply Forall_forall. intros s Hin.
  pose proof (proj1 (Forall_forall _ _) Hs s Hin) as H1.
  destruct (proj1 (Forall_forall _ _) Hg s Hin) as [(_ & H2 & H3) _].
  unfold Main.heal_text. rewrite (SpacingFacts.sub_spaces_id s H1).
  apply SegmenterFacts.strip_id; assumption.
Qed.
